(** * nfs-subdir-external-provisioner: the provisioning and deletion logic

    A shallow embedding of [cmd/nfs-subdir-external-provisioner/provisioner.go]
    together with the parts of the Go standard library it calls
    ([strings], [strconv], [path/filepath], the one compiled [regexp]),
    followed by the properties of the design document that concern it.

    Go strings are byte sequences: they are modelled as [list ascii].
    Go maps from string to string are [gmap]s; a missing key reads as the
    empty string, as indexing a Go map does. Machine integers are [Z] with
    the wrap-around written out. *)

From Stdlib Require Import ZArith Ascii String List Lia Bool.
From stdpp Require Import gmap strings list.

Abbreviation gostring := (list ascii).

(** Literals are written [str "..."]. *)
Definition str (s : string) : gostring := list_ascii_of_string s.

Definition byteval (c : ascii) : Z := Z.of_N (N_of_ascii c).

(** [m[k]] on a Go [map[string]string]: the zero value when [k] is absent
    (also when the map is nil). *)
Definition index_map (m : gmap gostring gostring) (k : gostring) : gostring :=
  default [] (m !! k).

(** ** Errors

    The program builds its errors with [fmt.Errorf] and [errors.New], or hands
    on the error value of a library call. One constructor stands for each
    place that makes an error, with the values formatted into its message. *)

(** [strconv.ErrSyntax], [strconv.ErrRange], and the errors of a refused base
    or bit size. *)
Inductive numErr := ErrSyntax | ErrRange | ErrBase (base : Z) | ErrBitSize (bitSize : Z).

(** [*strconv.NumError] *)
Record NumError := mkNumError { Func : gostring; Num : gostring; Err : numErr }.

(** The error of a failed [os] call, by its errno. *)
Inductive oserror := ENOENT | EEXIST | EACCES | ENOTDIR | ENOTEMPTY | EINVAL | EIO.

(** [os.IsNotExist] *)
Definition IsNotExist (e : option oserror) : bool :=
  match e with Some ENOENT => true | _ => false end.

(** The error of the storage-class lookup through the cluster client. *)
Inductive apierror := NotFound | ServerUnavailable.

Inductive error :=
| ErrNum (e : NumError)                 (* a strconv error handed on as it is *)
| ErrOS (e : oserror)                   (* the error of an os call handed on as it is *)
| ErrAPI (e : apierror)                 (* the error of the client's Get handed on *)
| ErrSelectorNotSupported               (* "claim Selector is not supported" *)
| ErrInvalidDirectoryMode (pvcMode : gostring) (err : error)
                                        (* "invalid directoryMode %s: %v" *)
| ErrUnableToCreateDirectory (e : oserror)
                    (* "unable to create directory to provision new pv: " + err *)
| ErrCannotGetKubeClient                (* "cannot get kube client" *)
| ErrVolumeHasNoStorageClass            (* "volume has no storage class" *)
| ErrInvalidMode (mode : gostring) (e : NumError)   (* "invalid mode %s: %v" *)
| ErrModeOutOfRange (mode : gostring)   (* "mode must be between 0 and 0777, got %s" *)
| ErrInvalidId (id : gostring) (e : NumError)       (* "invalid id %s: %v" *)
| ErrIdOutOfRange (id : gostring).      (* "id must be between 0 and 65535, got %s" *)

(** The four error kinds of the design document (section 7). The code has
    no error types of its own; this is the document's reading of each
    error the code can return. *)
Inductive ErrorKind := UnsupportedSelector | InvalidParameter | ClassLookupError | IOError.

Definition kind (e : error) : ErrorKind :=
  match e with
  | ErrNum _ => InvalidParameter
  | ErrOS _ => IOError
  | ErrAPI _ => ClassLookupError
  | ErrSelectorNotSupported => UnsupportedSelector
  | ErrInvalidDirectoryMode _ _ => InvalidParameter
  | ErrUnableToCreateDirectory _ => IOError
  | ErrCannotGetKubeClient => ClassLookupError
  | ErrVolumeHasNoStorageClass => ClassLookupError
  | ErrInvalidMode _ _ => InvalidParameter
  | ErrModeOutOfRange _ => InvalidParameter
  | ErrInvalidId _ _ => InvalidParameter
  | ErrIdOutOfRange _ => InvalidParameter
  end.

(** ** Package strconv *)

Module strconv.
Local Open Scope Z_scope.

Definition maxUint64 : Z := 2 ^ 64 - 1.

(** Arithmetic of [uint64] and of [int64]/[int] (64 bits). *)
Definition wrapU64 (z : Z) : Z := z mod 2 ^ 64.
Definition wrapI64 (z : Z) : Z := (z + 2 ^ 63) mod 2 ^ 64 - 2 ^ 63.

(** [intSize]: the width of [int]; the provisioner is built for 64-bit
    targets. *)
Definition intSize : Z := 64.

Definition syntaxError (fn s : gostring) : NumError := mkNumError fn s ErrSyntax.
Definition rangeError (fn s : gostring) : NumError := mkNumError fn s ErrRange.

(** [lower(c)]: [c | ('x' - 'X')]. *)
Definition lower (c : Z) : Z := Z.lor c 32.

(** The digit switch of [ParseUint]: the value of a character as a digit,
    in any base up to 36. *)
Definition digitVal (c : ascii) : option Z :=
  let b := byteval c in
  if (48 <=? b) && (b <=? 57) then Some (b - 48)
  else if (97 <=? lower b) && (lower b <=? 122) then Some (lower b - 97 + 10)
  else None.

(** The loop of [ParseUint] over the bytes of [s], from the accumulator [n].
    The result is the pair Go returns: the value and the error. *)
Fixpoint parseUintLoop (base cutoff maxVal : Z) (s : gostring) (n : Z)
  : Z * option numErr :=
  match s with
  | [] => (n, None)
  | c :: s' =>
      match digitVal c with
      | None => (0, Some ErrSyntax)
      | Some d =>
          if d >=? base then (0, Some ErrSyntax)
          else if n >=? cutoff then (maxVal, Some ErrRange)   (* n*base overflows *)
          else
            let n := wrapU64 (n * base) in
            let n1 := wrapU64 (n + d) in
            if (n1 <? n) || (n1 >? maxVal) then (maxVal, Some ErrRange)
            else parseUintLoop base cutoff maxVal s' n1
      end
  end.

(** [ParseUint(s, base, bitSize)] for an explicit base from 2 to 36, which is
    how the provisioner reaches it (8 and 10). Base 0, where Go reads a
    prefix and allows underscores, is outside this model and is answered
    like the other bases Go refuses. *)
Definition ParseUint (s : gostring) (base bitSize : Z) : Z * option NumError :=
  let fn := str "ParseUint" in
  match s with
  | [] => (0, Some (syntaxError fn s))
  | _ =>
      if negb ((2 <=? base) && (base <=? 36)) then (0, Some (mkNumError fn s (ErrBase base)))
      else
        let bitSize := if bitSize =? 0 then intSize else bitSize in
        if (bitSize <? 0) || (bitSize >? 64) then (0, Some (mkNumError fn s (ErrBitSize bitSize)))
        else
          let cutoff := maxUint64 / base + 1 in
          let maxVal := wrapU64 (Z.shiftl 1 bitSize - 1) in
          match parseUintLoop base cutoff maxVal s 0 with
          | (n, None) => (n, None)
          | (n, Some e) => (n, Some (mkNumError fn s e))
          end
  end.

(** [ParseInt(s, base, bitSize)] *)
Definition ParseInt (s : gostring) (base bitSize : Z) : Z * option NumError :=
  let fn := str "ParseInt" in
  match s with
  | [] => (0, Some (syntaxError fn s))
  | c0 :: s1 =>
      let s0 := s in
      (* pick off the leading sign *)
      let '(neg, s) :=
        if Ascii.eqb c0 "+" then (false, s1)
        else if Ascii.eqb c0 "-" then (true, s1)
        else (false, s) in
      let '(un, err) := ParseUint s base bitSize in
      match err with
      | Some (mkNumError _ _ ErrSyntax) => (0, Some (syntaxError fn s0))
      | Some (mkNumError _ _ (ErrBase b)) => (0, Some (mkNumError fn s0 (ErrBase b)))
      | Some (mkNumError _ _ (ErrBitSize b)) => (0, Some (mkNumError fn s0 (ErrBitSize b)))
      | _ =>
          let bitSize := if bitSize =? 0 then intSize else bitSize in
          let cutoff := wrapU64 (Z.shiftl 1 (bitSize - 1)) in
          if negb neg && (un >=? cutoff) then (wrapI64 (cutoff - 1), Some (rangeError fn s0))
          else if neg && (un >? cutoff) then (wrapI64 (- wrapI64 cutoff), Some (rangeError fn s0))
          else
            let n := wrapI64 un in
            (if neg then wrapI64 (- n) else n, None)
      end
  end.

(** The loop of the fast path of [Atoi]: [ch -= '0'] is byte arithmetic. *)
Fixpoint atoiLoop (s : gostring) (n : Z) : option Z :=
  match s with
  | [] => Some n
  | c :: s' =>
      let ch := (byteval c - 48) mod 256 in
      if ch >? 9 then None
      else atoiLoop s' (wrapI64 (n * 10 + ch))
  end.

(** [Atoi(s)] *)
Definition Atoi (s : gostring) : Z * option NumError :=
  let fn := str "Atoi" in
  let sLen := Z.of_nat (length s) in
  if ((intSize =? 32) && ((0 <? sLen) && (sLen <? 10)))
     || ((intSize =? 64) && ((0 <? sLen) && (sLen <? 19))) then
    (* fast path for small integers that fit the int type *)
    let s0 := s in
    let signed := match s with c :: _ => Ascii.eqb c "-" || Ascii.eqb c "+" | [] => false end in
    let s := if signed then tl s else s in
    if signed && (Z.of_nat (length s) <? 1) then (0, Some (syntaxError fn s0))
    else
      match atoiLoop s 0 with
      | None => (0, Some (syntaxError fn s0))
      | Some n =>
          let n := match s0 with
                   | c :: _ => if Ascii.eqb c "-" then wrapI64 (- n) else n
                   | [] => n
                   end in
          (n, None)
      end
  else
    (* slow path for invalid, big, or underscored integers *)
    let '(i64, err) := ParseInt s 10 0 in
    (i64, option_map (fun e => mkNumError fn (Num e) (Err e)) err).

(** [ParseBool(str)] *)
Definition ParseBool (s : gostring) : bool * option NumError :=
  if bool_decide (s ∈ map str ["1"; "t"; "T"; "TRUE"; "true"; "True"]) then (true, None)
  else if bool_decide (s ∈ map str ["0"; "f"; "F"; "FALSE"; "false"; "False"]) then (false, None)
  else (false, Some (syntaxError (str "ParseBool") s)).

End strconv.

(** ** The parameter validators *)

Section Validators.
Local Open Scope Z_scope.

(** [getModeFromString]; an [os.FileMode] is an unsigned 32-bit number. *)
Definition getModeFromString (mode : gostring) : Z * option error :=
  if bool_decide (mode = []) then (511, None)   (* 0o777 *)
  else
    let '(modeInt, err) := strconv.ParseInt mode 8 64 in
    match err with
    | Some e => (0, Some (ErrInvalidMode mode e))
    | None =>
        if (modeInt <? 0) || (modeInt >? 511) then (0, Some (ErrModeOutOfRange mode))
        else (modeInt mod 2 ^ 32, None)
    end.

(** [getIdFromString] *)
Definition getIdFromString (id : gostring) : Z * option error :=
  if bool_decide (id = []) then (0, None)
  else
    let '(idInt, err) := strconv.Atoi id in
    match err with
    | Some e => (0, Some (ErrInvalidId id e))
    | None =>
        if (idInt <? 0) || (idInt >? 65535) then (0, Some (ErrIdOutOfRange id))
        else (idInt, None)
    end.

End Validators.

(** ** What the design document says of the validators

    A numeral is an optional sign and one or more digits of the base; its
    value is read digit by digit. *)

Section NumeralSpec.
Local Open Scope Z_scope.

Definition digit_of (base : Z) (c : ascii) : option Z :=
  let v := byteval c - 48 in
  if (0 <=? v) && (v <? base) then Some v else None.

Fixpoint digits_value (base : Z) (s : gostring) (acc : Z) : option Z :=
  match s with
  | [] => Some acc
  | c :: s' =>
      match digit_of base c with
      | Some d => digits_value base s' (acc * base + d)
      | None => None
      end
  end.

Definition unsigned_numeral (base : Z) (s : gostring) : option Z :=
  match s with
  | [] => None
  | _ => digits_value base s 0
  end.

Definition numeral (base : Z) (s : gostring) : option Z :=
  match s with
  | [] => None
  | c :: s' =>
      if Ascii.eqb c "+" then unsigned_numeral base s'
      else if Ascii.eqb c "-" then Z.opp <$> unsigned_numeral base s'
      else unsigned_numeral base s
  end.

(** The values of an [int64]. *)
Definition in_int64 (v : Z) : bool := (- 2 ^ 63 <=? v) && (v <? 2 ^ 63).

(** What a validator answers: the value, or the kind of its error. *)
Definition outcome (r : Z * option error) : Z + ErrorKind :=
  match r with
  | (v, None) => inl v
  | (_, Some e) => inr (kind e)
  end.

(** The mode parser as the document words it. *)
Definition mode_spec (s : gostring) : Z + ErrorKind :=
  match s with
  | [] => inl 511
  | _ =>
      match numeral 8 s with
      | Some v => if (0 <=? v) && (v <=? 511) then inl v else inr InvalidParameter
      | None => inr InvalidParameter
      end
  end.

(** The id parser as the document words it. *)
Definition id_spec (s : gostring) : Z + ErrorKind :=
  match s with
  | [] => inl 0
  | _ =>
      match numeral 10 s with
      | Some v => if (0 <=? v) && (v <=? 65535) then inl v else inr InvalidParameter
      | None => inr InvalidParameter
      end
  end.

End NumeralSpec.

(** ** Package strings *)

Module strings.

(** [HasPrefix(s, prefix)] *)
Fixpoint HasPrefix (s prefix : gostring) {struct prefix} : bool :=
  match prefix, s with
  | [], _ => true
  | _ :: _, [] => false
  | p :: prefix', c :: s' => Ascii.eqb c p && HasPrefix s' prefix'
  end.

(** [Index(s, substr)]: the offset of the first instance of [substr] in [s];
    [None] stands for Go's -1. *)
Fixpoint Index (s substr : gostring) : option nat :=
  if HasPrefix s substr then Some 0%nat
  else match s with
       | [] => None
       | _ :: s' => S <$> Index s' substr
       end.

Definition continuation (c : option ascii) (lo hi : Z) : bool :=
  match c with
  | Some c => (lo <=? byteval c)%Z && (byteval c <=? hi)%Z
  | None => false
  end.

(** The width of the first rune of a non-empty string, as
    [utf8.DecodeRuneInString] reports it: 1 for an invalid encoding. *)
Definition runeWidth (s : gostring) : nat :=
  match s with
  | [] => 0
  | c0 :: t =>
      let b := byteval c0 in
      let c1 := t !! 0%nat in let c2 := t !! 1%nat in let c3 := t !! 2%nat in
      let two := (194 <=? b)%Z && (b <=? 223)%Z in
      let three := (224 <=? b)%Z && (b <=? 239)%Z in
      let four := (240 <=? b)%Z && (b <=? 244)%Z in
      let lo := if (b =? 224)%Z then 160%Z else if (b =? 240)%Z then 144%Z else 128%Z in
      let hi := if (b =? 237)%Z then 159%Z else if (b =? 244)%Z then 143%Z else 191%Z in
      if two && continuation c1 128 191 then 2
      else if three && continuation c1 lo hi && continuation c2 128 191 then 3
      else if four && continuation c1 lo hi && continuation c2 128 191
                   && continuation c3 128 191 then 4
      else 1
  end.

(** [utf8.RuneCountInString] *)
Fixpoint runeCount (fuel : nat) (s : gostring) : nat :=
  match fuel, s with
  | S fuel', _ :: _ => S (runeCount fuel' (drop (runeWidth s) s))
  | _, _ => 0
  end.

(** The loop of [Count] for a non-empty [substr]: the instances of [substr]
    in [s] that do not overlap, found from the left. Every round removes at
    least one byte, so [length s] rounds are enough. *)
Fixpoint countLoop (fuel : nat) (s substr : gostring) : nat :=
  match fuel with
  | O => 0
  | S fuel' =>
      match Index s substr with
      | None => 0
      | Some i => S (countLoop fuel' (drop (i + length substr) s) substr)
      end
  end.

(** [Count(s, substr)] *)
Definition Count (s substr : gostring) : nat :=
  match substr with
  | [] => runeCount (length s) s + 1
  | _ => countLoop (length s) s substr
  end.

(** The loop of [Replace]: [n] replacements, the [i]-th being made in the
    rest [s] of the string ([s[start:]] in Go). *)
Fixpoint replaceLoop (n i : nat) (s old new : gostring) : gostring :=
  match n with
  | O => s
  | S n' =>
      let j := match old with
               | [] => if (0 <? i)%nat then runeWidth s else 0%nat
               | _ => default 0%nat (Index s old)
               end in
      take j s ++ new ++ replaceLoop n' (S i) (drop (j + length old) s) old new
  end.

(** [Replace(s, old, new, n)]; a negative [n] lifts the limit. *)
Definition Replace (s old new : gostring) (n : Z) : gostring :=
  if bool_decide (old = new) || (n =? 0)%Z then s
  else
    let m := Count s old in
    if (m =? 0)%nat then s
    else
      let n := if (n <? 0)%Z || (Z.of_nat m <? n)%Z then m else Z.to_nat n in
      replaceLoop n 0 s old new.

(** [ReplaceAll(s, old, new)] *)
Definition ReplaceAll (s old new : gostring) : gostring := Replace s old new (-1).

(** [Join(elems, sep)] *)
Fixpoint Join (elems : list gostring) (sep : gostring) : gostring :=
  match elems with
  | [] => []
  | [e] => e
  | e :: elems' => e ++ sep ++ Join elems' sep
  end.

End strings.

(** ** The placeholder pattern

    [pattern] is the one regular expression of the program,
    [\${\.PVC\.((labels|annotations)\.(.*?)|.*?)}]. Go finds the leftmost
    match and, among those, the one a backtracking search meets first; the
    functions below are that search written out for this expression. [.]
    matches any byte but the line feed. *)

Module regexp.

(** [r[0]] to [r[3]]: the match and its three groups; a group that took no
    part in the match is the empty string. *)
Record submatch := mkSubmatch { r0 : gostring; r1 : gostring; r2 : gostring; r3 : gostring }.

(** A literal: the rest of [s] behind [lit]. *)
Definition literal (lit s : gostring) : option gostring :=
  if strings.HasPrefix s lit then Some (drop (length lit) s) else None.

(** [.*?}]: the shortest run of bytes other than the line feed that a closing
    brace follows. The run and what is left behind the brace. *)
Fixpoint lazyUntilBrace (s : gostring) : option (gostring * gostring) :=
  match s with
  | [] => None
  | c :: s' =>
      if Ascii.eqb c "}" then Some ([], s')
      else if Ascii.eqb c "010" then None
      else (fun '(run, rest) => (c :: run, rest)) <$> lazyUntilBrace s'
  end.

(** The first alternative of group 1 with the closing brace,
    [(labels|annotations)\.(.*?)}], for one of the two words. *)
Definition keyed (word s : gostring) : option (submatch * gostring) :=
  s2 ← literal word s;
  s3 ← literal (str ".") s2;
  '(key, rest) ← lazyUntilBrace s3;
  Some (mkSubmatch (str "${.PVC." ++ word ++ str "." ++ key ++ str "}")
                   (word ++ str "." ++ key) word key, rest).

(** The second alternative with the closing brace, [.*?}]. *)
Definition plain (s : gostring) : option (submatch * gostring) :=
  '(field, rest) ← lazyUntilBrace s;
  Some (mkSubmatch (str "${.PVC." ++ field ++ str "}") field [] [], rest).

Definition orelse {A} (x y : option A) : option A :=
  match x with Some _ => x | None => y end.

(** A match of [pattern] that starts at the first byte of [s], and what is
    left of [s] behind it. *)
Definition matchAt (s : gostring) : option (submatch * gostring) :=
  s1 ← literal (str "${.PVC.") s;
  orelse (orelse (keyed (str "labels") s1) (keyed (str "annotations") s1)) (plain s1).

(** The search of [FindAllStringSubmatch]: the leftmost match, then on from
    its end. A match is never empty, so every round removes a byte. *)
Fixpoint findAll (fuel : nat) (s : gostring) : list submatch :=
  match fuel, s with
  | S fuel', _ :: s' =>
      match matchAt s with
      | Some (m, rest) => m :: findAll fuel' rest
      | None => findAll fuel' s'
      end
  | _, _ => []
  end.

(** [pattern.FindAllStringSubmatch(s, -1)] *)
Definition FindAllStringSubmatch (s : gostring) : list submatch :=
  findAll (length s) s.

End regexp.

(** ** The metadata resolver *)

Record pvcMetadata := mkMeta {
  data : gmap gostring gostring;
  labels : gmap gostring gostring;
  annotations : gmap gostring gostring
}.

(** The body of the loop of [stringParser]. *)
Definition substitute (meta : pvcMetadata) (s : gostring) (r : regexp.submatch) : gostring :=
  if bool_decide (regexp.r2 r = str "labels") then
    strings.ReplaceAll s (regexp.r0 r) (index_map (labels meta) (regexp.r3 r))
  else if bool_decide (regexp.r2 r = str "annotations") then
    strings.ReplaceAll s (regexp.r0 r) (index_map (annotations meta) (regexp.r3 r))
  else
    strings.ReplaceAll s (regexp.r0 r) (index_map (data meta) (regexp.r1 r)).

(** [(meta *pvcMetadata).stringParser] *)
Definition stringParser (meta : pvcMetadata) (s : gostring) : gostring :=
  let result := regexp.FindAllStringSubmatch s in
  fold_left (substitute meta) result s.

(** ** What the design document says of the resolver

    The template is cut into its placeholders, the leftmost first and
    without overlap, and the bytes between them; every placeholder is
    replaced by its value, once and where it stands. *)

Section ResolverSpec.

Inductive segment := Lit (c : ascii) | Hit (m : regexp.submatch).

Fixpoint segmentsOf (fuel : nat) (s : gostring) : list segment :=
  match fuel, s with
  | S fuel', c :: s' =>
      match regexp.matchAt s with
      | Some (m, rest) => Hit m :: segmentsOf fuel' rest
      | None => Lit c :: segmentsOf fuel' s'
      end
  | _, _ => []
  end.

Definition segments (s : gostring) : list segment := segmentsOf (length s) s.

(** The value of [${.PVC.<field>}]: the label or the annotation of that key
    for [labels.<key>] and [annotations.<key>], the entry of [data] for any
    other field; empty when there is none. *)
Definition placeholder_value (meta : pvcMetadata) (field : gostring) : gostring :=
  match regexp.literal (str "labels.") field with
  | Some key => index_map (labels meta) key
  | None =>
      match regexp.literal (str "annotations.") field with
      | Some key => index_map (annotations meta) key
      | None => index_map (data meta) field
      end
  end.

Definition expand_segment (meta : pvcMetadata) (seg : segment) : gostring :=
  match seg with
  | Lit c => [c]
  | Hit m => placeholder_value meta (regexp.r1 m)
  end.

(** The template with every placeholder replaced by its value. *)
Definition expand (meta : pvcMetadata) (s : gostring) : gostring :=
  concat (map (expand_segment meta) (segments s)).

Definition no_dollar (s : gostring) : bool :=
  forallb (fun c => negb (Ascii.eqb c "$")) s.

(** A template in which every dollar sign opens a placeholder, with values
    that bring in no dollar sign. *)
Definition delimited (meta : pvcMetadata) (seg : segment) : bool :=
  match seg with
  | Lit c => negb (Ascii.eqb c "$")
  | Hit m => no_dollar (regexp.r1 m) && no_dollar (placeholder_value meta (regexp.r1 m))
  end.

Definition well_delimited (meta : pvcMetadata) (s : gostring) : bool :=
  forallb (delimited meta) (segments s).

(** The groups of the match whose field (group 1) is [field]: the text is
    the opening, the field and a closing brace, and groups 2 and 3 are the
    word and the key when the field spells them. *)
Definition groups_of (field : gostring) : regexp.submatch :=
  let text := str "${.PVC." ++ field ++ str "}" in
  match regexp.literal (str "labels.") field with
  | Some key => regexp.mkSubmatch text field (str "labels") key
  | None =>
      match regexp.literal (str "annotations.") field with
      | Some key => regexp.mkSubmatch text field (str "annotations") key
      | None => regexp.mkSubmatch text field [] []
      end
  end.

Definition seg_text (seg : segment) : gostring :=
  match seg with
  | Lit c => [c]
  | Hit m => regexp.r0 m
  end.

Definition hits (segs : list segment) : list regexp.submatch :=
  omap (fun seg => match seg with Hit m => Some m | Lit _ => None end) segs.

(** A template part of the way through the loop of [stringParser]: the
    placeholders whose text is in [done] have been replaced. *)
Definition render (meta : pvcMetadata) (done : list gostring) (seg : segment) : gostring :=
  match seg with
  | Lit c => [c]
  | Hit m =>
      if bool_decide (regexp.r0 m ∈ done) then placeholder_value meta (regexp.r1 m)
      else regexp.r0 m
  end.

(** A segment as the search produces it. *)
Definition shaped (seg : segment) : Prop :=
  match seg with
  | Lit _ => True
  | Hit m => exists field, m = groups_of field /\ ("}"%char ∉ field)
  end.

(** [delimited], as a proposition. *)
Definition seg_ok (meta : pvcMetadata) (seg : segment) : Prop :=
  match seg with
  | Lit c => c <> "$"%char
  | Hit m => exists field, m = groups_of field /\ ("}"%char ∉ field)
                           /\ ("$"%char ∉ field)
                           /\ ("$"%char ∉ placeholder_value meta field)
  end.

End ResolverSpec.

(** ** Sample claims and templates *)

Section ResolverSamples.

(** A claim [data] in namespace [default] with the label [tier=gold]. *)
Definition meta_gold : pvcMetadata :=
  mkMeta {[ str "name" := str "data"; str "namespace" := str "default" ]}
         {[ str "tier" := str "gold" ]}
         ∅.

Definition tpl_gold : gostring := str "${.PVC.labels.tier}/${.PVC.name}".

(** The same claim with a label whose value is itself a placeholder. *)
Definition meta_label_injected : pvcMetadata :=
  mkMeta {[ str "name" := str "data"; str "namespace" := str "default" ]}
         {[ str "app" := str "${.PVC.name}" ]}
         ∅.

Definition tpl_label_then_name : gostring := str "${.PVC.labels.app}-${.PVC.name}".

(** And with an annotation whose value holds a placeholder. *)
Definition meta_annotation_injected : pvcMetadata :=
  mkMeta {[ str "name" := str "data"; str "namespace" := str "default" ]}
         ∅
         {[ str "dir" := str "x/${.PVC.namespace}" ]}.

Definition tpl_annotation_then_namespace : gostring :=
  str "${.PVC.annotations.dir}/${.PVC.namespace}".

End ResolverSamples.

(** ** Package path/filepath (Unix) *)

Module filepath.

(** The elements of a path: the runs of bytes between separators, the empty
    ones included. *)
Fixpoint elements (path : gostring) : list gostring :=
  match path with
  | [] => [[]]
  | c :: path' =>
      if Ascii.eqb c "/" then [] :: elements path'
      else match elements path' with
           | e :: es => (c :: e) :: es
           | [] => [[c]]
           end
  end.

(** One round of the loop of [Clean] on the element [e]. [out] holds the
    elements written so far, the last one first. A [..] element can be
    undone against the last element written unless that is itself [..]
    (Go's [out.w > dotdot]); at the start of a rooted path it is dropped, at
    the start of any other it is kept. *)
Definition cleanStep (rooted : bool) (out : list gostring) (e : gostring) : list gostring :=
  if bool_decide (e = []) then out                 (* empty path element *)
  else if bool_decide (e = str ".") then out       (* . element *)
  else if bool_decide (e = str "..") then
    match out with
    | top :: out' =>
        if bool_decide (top = str "..") then (if rooted then out else e :: out)
        else out'                                  (* can backtrack *)
    | [] => if rooted then out else e :: out
    end
  else e :: out.                                   (* real path element *)

(** [Clean(path)] *)
Definition Clean (path : gostring) : gostring :=
  match path with
  | [] => str "."
  | c :: _ =>
      let rooted := Ascii.eqb c "/" in
      let out := fold_left (cleanStep rooted) (elements path) [] in
      let body := strings.Join (rev out) (str "/") in
      if rooted then str "/" ++ body
      else match out with [] => str "." | _ => body end
  end.

(** [Join(elem...)]: the elements from the first non-empty one on, joined
    by separators and cleaned. *)
Fixpoint Join (elem : list gostring) : gostring :=
  match elem with
  | [] => []
  | e :: elem' =>
      if bool_decide (e = []) then Join elem'
      else Clean (strings.Join elem (str "/"))
  end.

(** Trailing separators removed. *)
Fixpoint stripTrailingSlashes (path : gostring) : gostring :=
  match path with
  | [] => []
  | c :: path' =>
      match stripTrailingSlashes path' with
      | [] => if Ascii.eqb c "/" then [] else [c]
      | t => c :: t
      end
  end.

(** [Base(path)] *)
Definition Base (path : gostring) : gostring :=
  match path with
  | [] => str "."
  | _ =>
      match stripTrailingSlashes path with
      | [] => str "/"                  (* it had only slashes *)
      | path' => default [] (last (elements path'))
      end
  end.

End filepath.

(** ** The cluster objects, as far as the provisioner reads and writes them *)

Record LabelSelector := mkSelector { matchLabels : gmap gostring gostring }.

Record PersistentVolumeClaim := mkPVC {
  pvcNamespace : gostring;
  pvcName : gostring;
  pvcLabels : gmap gostring gostring;
  pvcAnnotations : gmap gostring gostring;
  pvcSelector : option LabelSelector;          (* Spec.Selector, a pointer *)
  pvcAccessModes : list gostring;              (* Spec.AccessModes *)
  pvcRequests : gmap gostring gostring         (* Spec.Resources.Requests *)
}.

Record StorageClass := mkClass {
  scParameters : gmap gostring gostring;
  scReclaimPolicy : gostring;                  (* *ReclaimPolicy, set by the controller *)
  scMountOptions : list gostring
}.

(** [controller.ProvisionOptions] *)
Record ProvisionOptions := mkOptions {
  optStorageClass : StorageClass;
  optPVName : gostring;
  optPVC : PersistentVolumeClaim
}.

Record NFSVolumeSource := mkNFS { nfsServer : gostring; nfsPath : gostring; nfsReadOnly : bool }.

Record PersistentVolume := mkPV {
  pvName : gostring;
  pvAnnotations : gmap gostring gostring;
  pvStorageClassName : gostring;
  pvReclaimPolicy : gostring;
  pvAccessModes : list gostring;
  pvMountOptions : list gostring;
  pvCapacity : gmap gostring gostring;
  pvNFS : NFSVolumeSource
}.

(** [controller.ProvisioningState], a string type. *)
Definition ProvisioningFinished : gostring := str "Finished".

Record nfsProvisioner := mkProvisioner {
  client : bool;              (* whether the client is set (not nil) *)
  server : gostring;
  path : gostring;
  defaultMode : Z;
  defaultUid : Z;
  defaultGid : Z
}.

Definition mountPath : gostring := str "/persistentvolumes".
Definition annotationPrefix : gostring := str "k8s-sigs.io".

(** ** Effects

    The provisioner acts on the file system through package [os], asks the
    cluster for a storage class, and writes log lines. A call of [Provision]
    or [Delete] is a tree of these calls: each node is a call, with one
    subtree for every answer. *)

Inductive oscall :=
| Stat (name : gostring)
| MkdirAll (path : gostring) (perm : Z)
| Chmod (name : gostring) (mode : Z)
| Chown (name : gostring) (uid gid : Z)
| RemoveAll (path : gostring)
| Rename (oldpath newpath : gostring).

(** The calls that change the file system. *)
Definition mutates (c : oscall) : bool :=
  match c with Stat _ => false | _ => true end.

Inductive severity := Info4 | Warning | Error.

Inductive logmsg :=
| MsgVolumeOptions (options : ProvisionOptions)   (* "nfs provisioner: VolumeOptions %v" *)
| MsgCreatingPath (fullPath : gostring)           (* "creating path %s" *)
| MsgInvalidUid (pvcUid : gostring) (err : error) (* "invalid directoryUid %s: %v" *)
| MsgInvalidGid (pvcGid : gostring) (err : error) (* "invalid directoryGid %s: %v" *)
| MsgPathNotExist (oldPath : gostring)      (* "path %s does not exist, deletion skipped" *)
| MsgArchiving (oldPath archivePath : gostring).  (* "archiving path %s to %s" *)

Inductive prog (R : Type) : Type :=
| Ret (r : R)
| Log (sev : severity) (msg : logmsg) (k : prog R)
| OS (c : oscall) (k : option oserror -> prog R)
| Lookup (className : gostring) (k : StorageClass + apierror -> prog R).
Arguments Ret {R} r.
Arguments Log {R} sev msg k.
Arguments OS {R} c k.
Arguments Lookup {R} className k.

Fixpoint bind {A B} (m : prog A) (f : A -> prog B) : prog B :=
  match m with
  | Ret a => f a
  | Log sev msg k => Log sev msg (bind k f)
  | OS c k => OS c (fun r => bind (k r) f)
  | Lookup n k => Lookup n (fun r => bind (k r) f)
  end.

Definition glog (sev : severity) (msg : logmsg) : prog unit := Log sev msg (Ret tt).
Definition os (c : oscall) : prog (option oserror) := OS c Ret.
Definition getStorageClass (className : gostring) : prog (StorageClass + apierror) :=
  Lookup className Ret.

#[global] Instance prog_bind : MBind prog := fun A B f m => bind m f.

(** What a run leaves behind: the calls in order, each with its answer. *)
Inductive entry :=
| ELog (sev : severity) (msg : logmsg)
| EOS (c : oscall) (r : option oserror)
| ELookup (className : gostring) (r : StorageClass + apierror).

(** The outside: a state and the answer it gives to each call. *)
Record handler (W : Type) := mkHandler {
  hLog : severity -> logmsg -> W -> W;
  hOS : oscall -> W -> option oserror * W;
  hLookup : gostring -> W -> (StorageClass + apierror) * W
}.
Arguments mkHandler {W}.
Arguments hLog {W} h.
Arguments hOS {W} h.
Arguments hLookup {W} h.

Fixpoint run {W R} (h : handler W) (m : prog R) (w : W) : list entry * R * W :=
  match m with
  | Ret r => ([], r, w)
  | Log sev msg k =>
      let '(tr, r, w') := run h k (hLog h sev msg w) in
      (ELog sev msg :: tr, r, w')
  | OS c k =>
      let '(x, w1) := hOS h c w in
      let '(tr, r, w') := run h (k x) w1 in
      (EOS c x :: tr, r, w')
  | Lookup n k =>
      let '(x, w1) := hLookup h n w in
      let '(tr, r, w') := run h (k x) w1 in
      (ELookup n x :: tr, r, w')
  end.

(** ** The provisioner *)

(** The two paths of a provision call (lines 95 to 116 of [Provision]): the
    path on the server and the path under the mount. *)
Definition provisionPaths (p : nfsProvisioner) (options : ProvisionOptions)
  : gostring * gostring :=
  let pvcNamespace := pvcNamespace (optPVC options) in
  let pvcName := pvcName (optPVC options) in
  let pvName := strings.Join [pvcNamespace; pvcName; optPVName options] (str "-") in
  let metadata :=
    mkMeta (<[str "name" := pvcName]> (<[str "namespace" := pvcNamespace]> ∅))
           (pvcLabels (optPVC options))
           (pvcAnnotations (optPVC options)) in
  let fullPath := filepath.Join [mountPath; pvName] in
  let path_ := filepath.Join [path p; pvName] in
  match scParameters (optStorageClass options) !! str "pathPattern" with
  | Some pathPattern =>
      let customPath := stringParser metadata pathPattern in
      if bool_decide (customPath <> []) then
        (filepath.Join [path p; customPath], filepath.Join [mountPath; customPath])
      else (path_, fullPath)
  | None => (path_, fullPath)
  end.

(** An id annotation: the parsed id, or the default with a line in the log. *)
Definition idOrDefault (default_ : Z) (pvcId : gostring)
    (msg : gostring -> error -> logmsg) : prog Z :=
  if bool_decide (pvcId <> []) then
    match getIdFromString pvcId with
    | (_, Some err) =>
        (* no real point in returning an error here as the dir will have
           already been created; log the error and continue with the default *)
        glog Error (msg pvcId err);; Ret default_
    | (id, None) => Ret id
    end
  else Ret default_.

(** [(p *nfsProvisioner).Provision] *)
Definition Provision (p : nfsProvisioner) (options : ProvisionOptions)
  : prog (option PersistentVolume * gostring * option error) :=
  match pvcSelector (optPVC options) with
  | Some _ => Ret (None, ProvisioningFinished, Some ErrSelectorNotSupported)
  | None =>
      glog Info4 (MsgVolumeOptions options) ;;
      let annotations := pvcAnnotations (optPVC options) in
      let '(path_, fullPath) := provisionPaths p options in
      (* a mode the claim asks for, or the default *)
      let pvcMode := index_map annotations (annotationPrefix ++ str "/nfs-directory-mode") in
      match (if bool_decide (pvcMode <> []) then getModeFromString pvcMode
             else (defaultMode p, None)) with
      | (_, Some err) =>
          Ret (None, ProvisioningFinished, Some (ErrInvalidDirectoryMode pvcMode err))
      | (mode, None) =>
          glog Info4 (MsgCreatingPath fullPath) ;;
          err ← os (MkdirAll fullPath mode);
          match err with
          | Some e => Ret (None, ProvisioningFinished, Some (ErrUnableToCreateDirectory e))
          | None =>
              err ← os (Chmod fullPath mode);
              match err with
              | Some e => Ret (None, [], Some (ErrOS e))
              | None =>
                  (* a uid and gid the claim asks for, or the defaults *)
                  uid ← idOrDefault (defaultUid p)
                           (index_map annotations (annotationPrefix ++ str "/nfs-directory-uid"))
                           MsgInvalidUid;
                  gid ← idOrDefault (defaultGid p)
                           (index_map annotations (annotationPrefix ++ str "/nfs-directory-gid"))
                           MsgInvalidGid;
                  err ← os (Chown fullPath uid gid);
                  match err with
                  | Some e => Ret (None, [], Some (ErrOS e))
                  | None =>
                      let pv :=
                        mkPV (optPVName options) ∅ []
                             (scReclaimPolicy (optStorageClass options))
                             (pvcAccessModes (optPVC options))
                             (scMountOptions (optStorageClass options))
                             {[ str "storage" :=
                                  index_map (pvcRequests (optPVC options)) (str "storage") ]}
                             (mkNFS (server p) path_ false) in
                      Ret (Some pv, ProvisioningFinished, None)
                  end
              end
          end
      end
  end.

(** [storagehelpers.GetPersistentVolumeClass]: the beta annotation first. *)
Definition GetPersistentVolumeClass (pv : PersistentVolume) : gostring :=
  match pvAnnotations pv !! str "volume.beta.kubernetes.io/storage-class" with
  | Some class => class
  | None => pvStorageClassName pv
  end.

(** [(p *nfsProvisioner).getClassForVolume] *)
Definition getClassForVolume (p : nfsProvisioner) (pv : PersistentVolume)
  : prog (StorageClass + error) :=
  if negb (client p) then Ret (inr ErrCannotGetKubeClient)
  else
    let className := GetPersistentVolumeClass pv in
    if bool_decide (className = []) then Ret (inr ErrVolumeHasNoStorageClass)
    else
      r ← getStorageClass className;
      match r with
      | inr err => Ret (inr (ErrAPI err))
      | inl class => Ret (inl class)
      end.

(** The local path [Delete] derives for a volume ([oldPath]). *)
Definition localPath (p : nfsProvisioner) (volume : PersistentVolume) : gostring :=
  strings.Replace (nfsPath (pvNFS volume)) (path p) mountPath 1.

(** Where [Delete] moves a directory it archives ([archivePath]). *)
Definition archivePathOf (volume : PersistentVolume) : gostring :=
  let basePath := filepath.Base (nfsPath (pvNFS volume)) in
  filepath.Join [mountPath; str "archived-" ++ basePath].

(** An error of package [os] as the [error] a function returns. *)
Definition oserr (err : option oserror) : option error := ErrOS <$> err.

(** [(p *nfsProvisioner).Delete] *)
Definition Delete (p : nfsProvisioner) (volume : PersistentVolume) : prog (option error) :=
  let oldPath := localPath p volume in
  err ← os (Stat oldPath);
  if IsNotExist err then
    glog Warning (MsgPathNotExist oldPath);; Ret (None : option error)
  else
    (* get the storage class for this volume *)
    r ← getClassForVolume p volume;
    match r with
    | inr err => Ret (Some err)
    | inl storageClass =>
        let onDelete := index_map (scParameters storageClass) (str "onDelete") in
        if bool_decide (onDelete = str "delete") then
          err ← os (RemoveAll oldPath); Ret (oserr err)
        else if bool_decide (onDelete = str "retain") then Ret None
        else
          let archive : prog (option error) :=
            let archivePath := archivePathOf volume in
            glog Info4 (MsgArchiving oldPath archivePath);;
            err ← os (Rename oldPath archivePath); Ret (oserr err) in
          match scParameters storageClass !! str "archiveOnDelete" with
          | Some archiveOnDelete =>
              match strconv.ParseBool archiveOnDelete with
              | (_, Some err) => Ret (Some (ErrNum err))
              | (archiveBool, None) =>
                  if negb archiveBool then
                    err ← os (RemoveAll oldPath); Ret (oserr err)
                  else archive
              end
          | None => archive
          end
    end.

(** ** A model of the outside

    A table of the directories that exist, each with its mode and owner, the
    storage classes of the cluster, and the log. Names are resolved
    lexically. It stands for the mounted export in the examples; the
    properties of [Provision] and [Delete] below hold for every handler. *)

Record inode := mkInode { imode : Z; iuid : Z; igid : Z }.

Record world := mkWorld {
  dirs : gmap gostring inode;
  classes : gmap gostring StorageClass;
  logged : list (severity * logmsg)
}.

(** [name] is [dir] or lies beneath it. *)
Definition within (dir name : gostring) : bool :=
  bool_decide (name = dir) || strings.HasPrefix name (dir ++ str "/").

(** A rooted clean path and the directories above it, the outermost first. *)
Fixpoint ancestorsOf (above : gostring) (elems : list gostring) : list gostring :=
  match elems with
  | [] => []
  | e :: elems' =>
      let d := above ++ str "/" ++ e in
      d :: ancestorsOf d elems'
  end.

Definition mkdirAll (name : gostring) (perm : Z) (d : gmap gostring inode)
  : gmap gostring inode :=
  fold_left (fun d a => match d !! a with
                        | Some _ => d
                        | None => <[a := mkInode perm 0 0]> d
                        end)
            (ancestorsOf [] (tail (filepath.elements name))) d.

Definition osStep (c : oscall) (w : world) : option oserror * world :=
  let d := dirs w in
  let set d' := mkWorld d' (classes w) (logged w) in
  match c with
  | Stat name =>
      (match d !! filepath.Clean name with Some _ => None | None => Some ENOENT end, w)
  | MkdirAll name perm => (None, set (mkdirAll (filepath.Clean name) perm d))
  | Chmod name mode =>
      match d !! filepath.Clean name with
      | Some i => (None, set (<[filepath.Clean name := mkInode mode (iuid i) (igid i)]> d))
      | None => (Some ENOENT, w)
      end
  | Chown name uid gid =>
      match d !! filepath.Clean name with
      | Some i => (None, set (<[filepath.Clean name := mkInode (imode i) uid gid]> d))
      | None => (Some ENOENT, w)
      end
  | RemoveAll name =>
      (None, set (filter (fun kv => within (filepath.Clean name) kv.1 = false) d))
  | Rename oldpath newpath =>
      let o := filepath.Clean oldpath in
      let n := filepath.Clean newpath in
      match d !! o with
      | None => (Some ENOENT, w)
      | Some _ =>
          if bool_decide (o = n) then (None, w)
          else if within o n then (Some EINVAL, w)
          else if bool_decide (filter (fun kv => within n kv.1 = true) d <> ∅)
          then (Some ENOTEMPTY, w)
          else
            let moved : gmap gostring inode :=
              list_to_map ((fun kv => (n ++ drop (length o) kv.1, kv.2))
                             <$> map_to_list (filter (fun kv => within o kv.1 = true) d)) in
            (None, set (filter (fun kv => within o kv.1 = false) (moved ∪ d)))
      end
  end.

Definition cluster : handler world :=
  mkHandler
    (fun sev msg w => mkWorld (dirs w) (classes w) (logged w ++ [(sev, msg)]))
    osStep
    (fun name w => (match classes w !! name with
                    | Some class => inl class
                    | None => inr NotFound
                    end, w)).

(** ** Sample provisioners, claims and volumes *)

Section Samples.

Definition provisioner : nfsProvisioner :=
  mkProvisioner true (str "nfs.example.com") (str "/export") 511 0 0.

Definition class_with (params : gmap gostring gostring) : StorageClass :=
  mkClass params (str "Delete") [].

Definition claim_with (annotations : gmap gostring gostring)
    (selector : option LabelSelector) : PersistentVolumeClaim :=
  mkPVC (str "default") (str "data") {[ str "tier" := str "gold" ]} annotations selector
        [str "ReadWriteMany"] {[ str "storage" := str "1Gi" ]}.

Definition options_with (params annotations : gmap gostring gostring)
    (selector : option LabelSelector) : ProvisionOptions :=
  mkOptions (class_with params) (str "pvc-1") (claim_with annotations selector).

(** A volume of class [standard] at [path_] on the server. *)
Definition volume_at (path_ : gostring) : PersistentVolume :=
  mkPV (str "pvc-1") ∅ (str "standard") (str "Delete") [str "ReadWriteMany"] []
       {[ str "storage" := str "1Gi" ]}
       (mkNFS (str "nfs.example.com") path_ false).

(** The mount with the directory of that volume in it, and a cluster whose
    class [standard] has the parameters [params]. *)
Definition world_with (params : gmap gostring gostring) : world :=
  mkWorld {[ str "/persistentvolumes" := mkInode 511 0 0;
             str "/persistentvolumes/default-data-pvc-1" := mkInode 511 0 0 ]}
          {[ str "standard" := class_with params ]}
          [].

End Samples.

(** ** What the design document says of deletion *)

Section DeletionSpec.

Inductive DeletionAction :=
| RemoveTree
| LeaveUntouched
| ArchiveTree
| RejectParameter (e : NumError).

(** The precedence of section 4.5: [onDelete] first, when it is one of its
    two values; [archiveOnDelete] otherwise. *)
Definition deletionAction (params : gmap gostring gostring) : DeletionAction :=
  if bool_decide (params !! str "onDelete" = Some (str "delete")) then RemoveTree
  else if bool_decide (params !! str "onDelete" = Some (str "retain")) then LeaveUntouched
  else
    match params !! str "archiveOnDelete" with
    | None => ArchiveTree
    | Some v =>
        match strconv.ParseBool v with
        | (_, Some e) => RejectParameter e
        | (true, None) => ArchiveTree
        | (false, None) => RemoveTree
        end
    end.

(** What a call of [Delete] does once the directory [old] is known to exist
    and the storage class is at hand, from the state [w]: the calls it
    makes, its result and the state it leaves. *)
Definition performDeletion {W} (h : handler W) (action : DeletionAction)
    (old archive : gostring) (w : W) : list entry * option error * W :=
  match action with
  | RemoveTree =>
      let '(e, w') := hOS h (RemoveAll old) w in
      ([EOS (RemoveAll old) e], oserr e, w')
  | LeaveUntouched => ([], None, w)
  | ArchiveTree =>
      let w1 := hLog h Info4 (MsgArchiving old archive) w in
      let '(e, w') := hOS h (Rename old archive) w1 in
      ([ELog Info4 (MsgArchiving old archive); EOS (Rename old archive) e], oserr e, w')
  | RejectParameter e => ([], Some (ErrNum e), w)
  end.

End DeletionSpec.

(** ** What the design document says of the paths *)

Section PathSpec.

(** The suffix of a provision call: the expanded [pathPattern] when the
    storage class has one and it does not expand to the empty string, the
    default [{namespace}-{claimName}-{generatedVolumeName}] otherwise. *)
Definition suffixOf (options : ProvisionOptions) : gostring :=
  let claim := optPVC options in
  let default_ :=
    pvcNamespace claim ++ str "-" ++ pvcName claim ++ str "-" ++ optPVName options in
  let metadata :=
    mkMeta {[ str "name" := pvcName claim; str "namespace" := pvcNamespace claim ]}
           (pvcLabels claim) (pvcAnnotations claim) in
  match scParameters (optStorageClass options) !! str "pathPattern" with
  | Some pathPattern =>
      match stringParser metadata pathPattern with
      | [] => default_
      | customPath => customPath
      end
  | None => default_
  end.

(** An element a cleaned path keeps as it is: not empty, not [.] or [..],
    and without a separator. *)
Definition normalb (e : gostring) : bool :=
  negb (bool_decide (e = [])) && negb (bool_decide (e = str "."))
  && negb (bool_decide (e = str "..")) && negb (bool_decide ("/"%char ∈ e)).

(** A relative path made of such elements only, as [a/b/c]. *)
Definition plain_relative (s : gostring) : bool :=
  forallb normalb (filepath.elements s).

(** A rooted path made of such elements only, as [/a/b]. *)
Definition plain_rooted (s : gostring) : bool :=
  match s with
  | c :: s' => Ascii.eqb c "/" && plain_relative s'
  | [] => false
  end.

End PathSpec.

(** ** What the design document says of provisioning *)

Section ProvisionSpec.

(** The three annotations of a claim that [Provision] reads. *)
Definition modeAnnotation (options : ProvisionOptions) : gostring :=
  index_map (pvcAnnotations (optPVC options)) (annotationPrefix ++ str "/nfs-directory-mode").
Definition uidAnnotation (options : ProvisionOptions) : gostring :=
  index_map (pvcAnnotations (optPVC options)) (annotationPrefix ++ str "/nfs-directory-uid").
Definition gidAnnotation (options : ProvisionOptions) : gostring :=
  index_map (pvcAnnotations (optPVC options)) (annotationPrefix ++ str "/nfs-directory-gid").

(** The mode of the directory: the annotation when there is one, the
    default of the process otherwise. The value, or the kind of the error. *)
Definition modePolicy (default_ : Z) (pvcMode : gostring) : Z + ErrorKind :=
  match pvcMode with
  | [] => inl default_
  | _ => mode_spec pvcMode
  end.

(** The owner of the directory: the annotation when there is one and it is
    a valid id, the default of the process otherwise. *)
Definition idPolicy (default_ : Z) (pvcId : gostring) : Z :=
  match pvcId with
  | [] => default_
  | _ => match id_spec pvcId with
         | inl id => id
         | inr _ => default_
         end
  end.

(** The log line an id annotation leaves behind: one error line when it is
    not a valid id. *)
Definition idLog (pvcId : gostring) (msg : gostring -> error -> logmsg) : list entry :=
  match pvcId with
  | [] => []
  | _ => match getIdFromString pvcId with
         | (_, Some err) => [ELog Error (msg pvcId err)]
         | (_, None) => []
         end
  end.

Fixpoint replay {W} (h : handler W) (log : list entry) (w : W) : W :=
  match log with
  | ELog sev msg :: log' => replay h log' (hLog h sev msg w)
  | _ :: log' => replay h log' w
  | [] => w
  end.

(** What a call of [Provision] does once the request is accepted and the
    mode is known, from the state [w]: create the directory, set its mode,
    set its owner, each step only when the one before succeeded; [idlog]
    are the log lines of the id annotations, written between the second and
    the third step. *)
Definition performProvision {W} (h : handler W) (fullPath : gostring) (mode uid gid : Z)
    (idlog : list entry) (pv : PersistentVolume) (w : W)
  : list entry * (option PersistentVolume * gostring * option error) * W :=
  let w1 := hLog h Info4 (MsgCreatingPath fullPath) w in
  let '(e1, w2) := hOS h (MkdirAll fullPath mode) w1 in
  let tr1 := [ELog Info4 (MsgCreatingPath fullPath); EOS (MkdirAll fullPath mode) e1] in
  match e1 with
  | Some e => (tr1, (None, ProvisioningFinished, Some (ErrUnableToCreateDirectory e)), w2)
  | None =>
      let '(e2, w3) := hOS h (Chmod fullPath mode) w2 in
      let tr2 := tr1 ++ [EOS (Chmod fullPath mode) e2] in
      match e2 with
      | Some e => (tr2, (None, [], Some (ErrOS e)), w3)
      | None =>
          let w4 := replay h idlog w3 in
          let '(e3, w5) := hOS h (Chown fullPath uid gid) w4 in
          let tr3 := tr2 ++ idlog ++ [EOS (Chown fullPath uid gid) e3] in
          match e3 with
          | Some e => (tr3, (None, [], Some (ErrOS e)), w5)
          | None => (tr3, (Some pv, ProvisioningFinished, None), w5)
          end
      end
  end.

(** The volume a successful call returns. *)
Definition provisionedVolume (p : nfsProvisioner) (options : ProvisionOptions)
    (path_ : gostring) : PersistentVolume :=
  mkPV (optPVName options) ∅ []
       (scReclaimPolicy (optStorageClass options))
       (pvcAccessModes (optPVC options))
       (scMountOptions (optStorageClass options))
       {[ str "storage" := index_map (pvcRequests (optPVC options)) (str "storage") ]}
       (mkNFS (server p) path_ false).

End ProvisionSpec.

(** ** More samples *)

Section MoreSamples.

Definition volume_1 : PersistentVolume := volume_at (str "/export/default-data-pvc-1").

(** A volume whose path holds the export base path, but not in front. *)
Definition volume_elsewhere : PersistentVolume :=
  volume_at (str "/srv/export/default-data-pvc-1").

(** A claim for a directory outside the export, through a pattern that
    copies an annotation. *)
Definition options_traversal : ProvisionOptions :=
  options_with {[ str "pathPattern" := str "${.PVC.annotations.dir}" ]}
               {[ str "dir" := str "../shared" ]} None.

(** A pattern that names a label the claim does not have. *)
Definition options_absent_label : ProvisionOptions :=
  options_with {[ str "pathPattern" :=
                    str "${.PVC.namespace}/${.PVC.labels.team}/${.PVC.name}" ]}
               ∅ None.

Definition options_plain : ProvisionOptions := options_with ∅ ∅ None.

(** The claim of the second scenario of the document: mode 0700 and a
    pattern over the label [tier] and the name. *)
Definition options_gold : ProvisionOptions :=
  options_with {[ str "pathPattern" := str "${.PVC.labels.tier}/${.PVC.name}" ]}
               {[ str "k8s-sigs.io/nfs-directory-mode" := str "0700" ]} None.

Definition options_bad_mode : ProvisionOptions :=
  options_with ∅ {[ str "k8s-sigs.io/nfs-directory-mode" := str "1000" ]} None.

Definition options_bad_ids : ProvisionOptions :=
  options_with ∅ {[ str "k8s-sigs.io/nfs-directory-mode" := str "0700";
                    str "k8s-sigs.io/nfs-directory-uid" := str "70000";
                    str "k8s-sigs.io/nfs-directory-gid" := str "-1" ]} None.

Definition options_selector : ProvisionOptions :=
  options_with ∅ {[ str "k8s-sigs.io/nfs-directory-mode" := str "1000" ]}
               (Some (mkSelector {[ str "tier" := str "gold" ]})).

End MoreSamples.

(** ** Start-up

    [main] reads its settings from the environment, builds the cluster
    client and hands the provisioner to the controller, which never returns.
    [glog.Fatal] ends the process. The calls into the client libraries are
    answered by the outside; a configuration and a client are opaque. *)

Inductive fatal :=
| FatalServerNotSet                    (* "NFS_SERVER not set" *)
| FatalPathNotSet                      (* "NFS_PATH not set" *)
| FatalProvisionerNameNotSet           (* "environment variable %s is not set! ..." *)
| FatalDefaultMode (err : error)       (* "Failed to parse NFS_DEFAULT_MODE: %v" *)
| FatalDefaultUid (err : error)        (* "Failed to parse NFS_DEFAULT_UID: %v" *)
| FatalDefaultGid (err : error)        (* "Failed to parse NFS_DEFAULT_GID: %v" *)
| FatalKubeconfig (err : gostring)     (* "Failed to create kubeconfig: %v" *)
| FatalConfig (err : gostring)         (* "Failed to create config: %v" *)
| FatalClient (err : gostring)         (* "Failed to create client: %v" *)
| FatalServerVersion (err : gostring)  (* "Error getting server version: %v" *)
| FatalLeaderElection (err : NumError).
                          (* "Unable to parse ENABLE_LEADER_ELECTION env var: %v" *)

(** The answers of [clientcmd.BuildConfigFromFlags("", kubeconfig)],
    [rest.InClusterConfig()], [kubernetes.NewForConfig(config)] and
    [clientset.Discovery().ServerVersion()] (its [GitVersion]); the right
    side is the error. *)
Record kube := mkKube {
  BuildConfigFromFlags : gostring -> gostring + gostring;
  InClusterConfig : gostring + gostring;
  NewForConfig : gostring -> gostring + gostring;
  ServerVersion : gostring -> gostring + gostring
}.

(** The arguments of [controller.NewProvisionController]. *)
Record launch := mkLaunch {
  lClientset : gostring;
  lProvisionerName : gostring;
  lProvisioner : nfsProvisioner;
  lGitVersion : gostring;
  lLeaderElection : bool
}.

Definition provisionerNameKey : gostring := str "PROVISIONER_NAME".

(** [os.Getenv]: the empty string for a variable that is not set. *)
Definition Getenv (env : gmap gostring gostring) (key : gostring) : gostring :=
  index_map env key.

(** [main], up to the start of the controller. *)
Definition main (env : gmap gostring gostring) (k : kube) : fatal + launch :=
  let server_ := Getenv env (str "NFS_SERVER") in
  if bool_decide (server_ = []) then inl FatalServerNotSet else
  let path_ := Getenv env (str "NFS_PATH") in
  if bool_decide (path_ = []) then inl FatalPathNotSet else
  let provisionerName := Getenv env provisionerNameKey in
  if bool_decide (provisionerName = []) then inl FatalProvisionerNameNotSet else
  (* the default mode, uid, and gid from the environment *)
  match getModeFromString (Getenv env (str "NFS_DEFAULT_MODE")) with
  | (_, Some err) => inl (FatalDefaultMode err)
  | (mode, None) =>
  match getIdFromString (Getenv env (str "NFS_DEFAULT_UID")) with
  | (_, Some err) => inl (FatalDefaultUid err)
  | (uid, None) =>
  match getIdFromString (Getenv env (str "NFS_DEFAULT_GID")) with
  | (_, Some err) => inl (FatalDefaultGid err)
  | (gid, None) =>
  let kubeconfig := Getenv env (str "KUBECONFIG") in
  match (if bool_decide (kubeconfig <> []) then
           match BuildConfigFromFlags k kubeconfig with
           | inr err => inl (FatalKubeconfig err)
           | inl config => inr config
           end
         else
           match InClusterConfig k with
           | inr err => inl (FatalConfig err)
           | inl config => inr config
           end) with
  | inl f => inl f
  | inr config =>
  match NewForConfig k config with
  | inr err => inl (FatalClient err)
  | inl clientset =>
  match ServerVersion k clientset with
  | inr err => inl (FatalServerVersion err)
  | inl gitVersion =>
  let leaderElectionEnv := Getenv env (str "ENABLE_LEADER_ELECTION") in
  match (if bool_decide (leaderElectionEnv <> []) then strconv.ParseBool leaderElectionEnv
         else (true, None)) with
  | (_, Some err) => inl (FatalLeaderElection err)
  | (leaderElection, None) =>
      inr (mkLaunch clientset provisionerName
                    (mkProvisioner true server_ path_ mode uid gid)
                    gitVersion leaderElection)
  end end end end end end end.

(** ** The calls of a run *)

Section TraceSpec.

(** The calls to the file system in a run, in order. *)
Definition oscalls (tr : list entry) : list oscall :=
  omap (fun e => match e with EOS c _ => Some c | _ => None end) tr.

(** The storage classes asked for in a run. *)
Definition lookups (tr : list entry) : list gostring :=
  omap (fun e => match e with ELookup n _ => Some n | _ => None end) tr.

(** The calls to the file system that failed. *)
Definition failures (tr : list entry) : list oscall :=
  omap (fun e => match e with EOS c (Some _) => Some c | _ => None end) tr.

(** The values of a mode and of an id. *)
Definition mode_ok (m : Z) : Prop := (0 <= m <= 511)%Z.
Definition id_ok (i : Z) : Prop := (0 <= i <= 65535)%Z.

(** The arguments of a call are within bounds. *)
Definition call_ok (c : oscall) : Prop :=
  match c with
  | MkdirAll _ perm => mode_ok perm
  | Chmod _ mode => mode_ok mode
  | Chown _ uid gid => id_ok uid /\ id_ok gid
  | _ => True
  end.

(** An element [Clean] drops: the empty one and [.]. *)
Definition skippedb (e : gostring) : bool :=
  bool_decide (e = []) || bool_decide (e = str ".").

(** A path none of whose elements is [..]. *)
Definition no_dotdot (s : gostring) : bool :=
  forallb (fun e => negb (bool_decide (e = str ".."))) (filepath.elements s).

End TraceSpec.

(** ** More of the paths *)

Section PathKinds.

(** An element [Clean] writes or drops where it stands: any but [..]. *)
Definition keptb (e : gostring) : bool := normalb e || skippedb e.

(** The tail a suffix without [..] elements leaves behind a root: nothing,
    or a separator and its plain elements. *)
Definition tailOf (suffix : gostring) : gostring :=
  match filter normalb (filepath.elements suffix) with
  | [] => []
  | es => str "/" ++ strings.Join es (str "/")
  end.

End PathKinds.

(** The failures of [main] that come from the environment alone, before
    the cluster is asked anything. *)
Definition env_fatal (f : fatal) : bool :=
  match f with
  | FatalServerNotSet | FatalPathNotSet | FatalProvisionerNameNotSet
  | FatalDefaultMode _ | FatalDefaultUid _ | FatalDefaultGid _ => true
  | _ => false
  end.

(** ** More samples *)

Section StartUpSamples.

(** A cluster that answers every call, and one that cannot be reached. *)
Definition kube_up : kube :=
  mkKube (fun _ => inl (str "config")) (inl (str "config"))
         (fun _ => inl (str "clientset")) (fun _ => inl (str "v1.29.0")).

Definition kube_down : kube :=
  mkKube (fun _ => inr (str "no such file")) (inr (str "not in a cluster"))
         (fun _ => inr (str "no client")) (fun _ => inr (str "connection refused")).

(** The environment of the deployment: the three required variables. *)
Definition env_required : gmap gostring gostring :=
  {[ str "NFS_SERVER" := str "nfs.example.com";
     str "NFS_PATH" := str "/export";
     str "PROVISIONER_NAME" := str "k8s-sigs.io/nfs-subdir-external-provisioner" ]}.

(** The same with a default mode beyond 0777. *)
Definition env_bad_mode : gmap gostring gostring :=
  <[ str "NFS_DEFAULT_MODE" := str "1777" ]> env_required.

(** A provisioner whose export base path ends in a separator. *)
Definition provisioner_trailing : nfsProvisioner :=
  mkProvisioner true (str "nfs.example.com") (str "/export/") 511 0 0.

(** A cluster that has the directories and no storage class. *)
Definition world_without_class : world :=
  mkWorld (dirs (world_with ∅)) ∅ [].

End StartUpSamples.

(* ================================================================== *)
(** * Properties *)
(* ================================================================== *)

(** ** The validators *)

Section StrconvFacts.
Import strconv.
Local Open Scope Z_scope.

Lemma byteval_range c : 0 <= byteval c < 256.
Proof.
  unfold byteval. pose proof (N_ascii_bounded c). lia.
Qed.

(** In a base of at most ten, the digits [ParseUint] accepts are the
    characters ['0'] to ['0' + base - 1]. *)
Lemma digitVal_small_base base c :
  2 <= base <= 10 ->
  match digitVal c with
  | Some d => if d >=? base then None else Some d
  | None => None
  end = digit_of base c.
Proof.
  intros Hb. unfold digitVal, digit_of.
  generalize (lower (byteval c)). intros l.
  pose proof (byteval_range c).
  repeat case_match; simplify_eq; try reflexivity; try (f_equal; lia); exfalso; lia.
Qed.

Lemma digit_of_range base c d : digit_of base c = Some d -> 0 <= d < base.
Proof.
  unfold digit_of. case_match; [|discriminate]. intros [= <-]. lia.
Qed.

Lemma digits_value_ge base s : 1 <= base ->
  forall acc v, 0 <= acc -> digits_value base s acc = Some v -> acc <= v.
Proof.
  intros Hb. induction s as [|c s IH]; intros acc v Hacc; simpl.
  - intros [= <-]. lia.
  - destruct (digit_of base c) as [d|] eqn:Hd; [|discriminate].
    apply digit_of_range in Hd. intros Hv. apply IH in Hv; nia.
Qed.

(** The loop of [ParseUint] computes the value of a digit string, and
    reports a range error exactly when the value exceeds [maxVal]. *)
Lemma parseUintLoop_digits base maxVal s :
  2 <= base <= 10 -> 0 <= maxVal <= maxUint64 ->
  forall n v, 0 <= n <= maxVal -> digits_value base s n = Some v ->
  parseUintLoop base (maxUint64 / base + 1) maxVal s n =
    if v <=? maxVal then (v, None) else (maxVal, Some ErrRange).
Proof.
  intros Hb Hm. induction s as [|c s IH]; intros n v Hn; simpl.
  - intros [= <-]. case_match; [reflexivity|lia].
  - pose proof (digitVal_small_base base c Hb) as Hdv.
    destruct (digit_of base c) as [d|] eqn:Hd; [|discriminate].
    intros Hv.
    destruct (digitVal c) as [d'|]; [|discriminate].
    destruct (d' >=? base); [discriminate|]. injection Hdv as ->.
    apply digit_of_range in Hd.
    assert (Hnn : 0 <= n * base + d) by nia.
    pose proof (digits_value_ge base s ltac:(lia) _ _ Hnn Hv) as Hge.
    unfold maxUint64 in *.
    pose proof (Z.mul_succ_div_gt (2 ^ 64 - 1) base ltac:(lia)) as Hq1.
    pose proof (Z.mul_div_le (2 ^ 64 - 1) base ltac:(lia)) as Hq2.
    set (q := (2 ^ 64 - 1) / base) in *.
    destruct (n >=? q + 1) eqn:Hcut.
    + apply Z.geb_le in Hcut.
      assert (2 ^ 64 - 1 < n * base) by nia.
      case_match; [lia|reflexivity].
    + rewrite Z.geb_leb in Hcut. apply Z.leb_gt in Hcut.
      assert (n * base <= 2 ^ 64 - 1) by nia.
      unfold wrapU64. rewrite (Z.mod_small (n * base)) by nia.
      destruct (Z_lt_ge_dec (n * base + d) (2 ^ 64)) as [Hs|Hs].
      * rewrite (Z.mod_small (n * base + d)) by nia.
        destruct (n * base + d >? maxVal) eqn:Hgt.
        -- rewrite orb_true_r. case_match; [lia|reflexivity].
        -- replace (n * base + d <? n * base) with false by lia. simpl.
           apply IH; [lia|assumption].
      * assert (Hw : (n * base + d) mod 2 ^ 64 = n * base + d - 2 ^ 64).
        { symmetry. apply Z.mod_unique with (q := 1); lia. }
        rewrite Hw. replace (n * base + d - 2 ^ 64 <? n * base) with true by lia.
        simpl. case_match; [lia|reflexivity].
Qed.

Lemma digits_value_None base s :
  forall n m, digits_value base s n = None -> digits_value base s m = None.
Proof.
  induction s as [|c s IH]; intros n m; simpl; [discriminate|].
  destruct (digit_of base c); [apply IH|reflexivity].
Qed.

(** On anything else the loop reports an error. *)
Lemma parseUintLoop_not_digits base maxVal s :
  2 <= base <= 10 ->
  forall n, digits_value base s n = None ->
  exists x e, parseUintLoop base (maxUint64 / base + 1) maxVal s n = (x, Some e)
              /\ (e = ErrSyntax \/ (e = ErrRange /\ x = maxVal)).
Proof.
  intros Hb. induction s as [|c s IH]; intros n; simpl; [discriminate|].
  pose proof (digitVal_small_base base c Hb) as Hdv.
  destruct (digit_of base c) as [d|] eqn:Hd.
  - intros Hv. destruct (digitVal c) as [d'|]; [|discriminate].
    destruct (d' >=? base); [discriminate|]. injection Hdv as ->.
    repeat case_match; eauto 6.
    eapply IH, digits_value_None, Hv.
  - intros _. destruct (digitVal c) as [d'|]; [|eauto].
    destruct (d' >=? base); [eauto|discriminate].
Qed.

Lemma wrapI64_small z : - 2 ^ 63 <= z < 2 ^ 63 -> wrapI64 z = z.
Proof.
  intros Hz. unfold wrapI64. rewrite Z.mod_small; lia.
Qed.

(** [ParseUint] at 64 bits in a base of at most ten. *)
Lemma ParseUint_spec base bitSize s :
  2 <= base <= 10 -> bitSize = 0 \/ bitSize = 64 -> s <> [] ->
  match digits_value base s 0 with
  | Some v =>
      ParseUint s base bitSize =
        if v <=? maxUint64 then (v, None)
        else (maxUint64, Some (rangeError (str "ParseUint") s))
  | None =>
      exists x e, ParseUint s base bitSize = (x, Some (mkNumError (str "ParseUint") s e))
                  /\ (e = ErrSyntax \/ (e = ErrRange /\ x = maxUint64))
  end.
Proof.
  intros Hb Hbits Hs. unfold ParseUint.
  destruct s as [|c s]; [congruence|].
  replace ((2 <=? base) && (base <=? 36)) with true by lia. cbn [negb].
  assert (Hbs : (if bitSize =? 0 then intSize else bitSize) = 64)
    by (destruct Hbits as [-> | ->]; reflexivity).
  rewrite Hbs. cbn [Z.ltb Z.gtb Z.compare Pos.compare Pos.compare_cont orb].
  change (wrapU64 (Z.shiftl 1 64 - 1)) with maxUint64.
  destruct (digits_value base (c :: s) 0) as [v|] eqn:Hv.
  - rewrite (parseUintLoop_digits base maxUint64 (c :: s) Hb ltac:(unfold maxUint64; lia)
               0 v ltac:(unfold maxUint64; lia) Hv).
    destruct (v <=? maxUint64); reflexivity.
  - destruct (parseUintLoop_not_digits base maxUint64 (c :: s) Hb 0 Hv)
      as (x & e & -> & He). eauto.
Qed.

(** [ParseInt] at 64 bits in a base of at most ten: the value of the numeral
    when it fits, an error otherwise. *)
Lemma ParseInt_spec base bitSize s :
  2 <= base <= 10 -> bitSize = 0 \/ bitSize = 64 ->
  match numeral base s with
  | Some v =>
      if in_int64 v then ParseInt s base bitSize = (v, None)
      else exists x e, ParseInt s base bitSize = (x, Some e)
  | None => exists x e, ParseInt s base bitSize = (x, Some e)
  end.
Proof.
  intros Hb Hbits.
  assert (Hbs : (if bitSize =? 0 then intSize else bitSize) = 64)
    by (destruct Hbits as [-> | ->]; reflexivity).
  pose (finish := fun (neg : bool) (s0 : gostring) (r : Z * option NumError) =>
    let '(un, err) := r in
    match err with
    | Some (mkNumError _ _ ErrSyntax) => (0, Some (syntaxError (str "ParseInt") s0))
    | Some (mkNumError _ _ (ErrBase b)) => (0, Some (mkNumError (str "ParseInt") s0 (ErrBase b)))
    | Some (mkNumError _ _ (ErrBitSize b)) => (0, Some (mkNumError (str "ParseInt") s0 (ErrBitSize b)))
    | _ =>
        let bitSize := if bitSize =? 0 then intSize else bitSize in
        let cutoff := wrapU64 (Z.shiftl 1 (bitSize - 1)) in
        if negb neg && (un >=? cutoff) then (wrapI64 (cutoff - 1), Some (rangeError (str "ParseInt") s0))
        else if neg && (un >? cutoff) then (wrapI64 (- wrapI64 cutoff), Some (rangeError (str "ParseInt") s0))
        else let n := wrapI64 un in (if neg then wrapI64 (- n) else n, None)
    end).
  assert (Hfin : forall (neg : bool) (s0 t : gostring),
    match (if neg then Z.opp <$> unsigned_numeral base t else unsigned_numeral base t) with
    | Some v =>
        if in_int64 v then finish neg s0 (ParseUint t base bitSize) = (v, None)
        else exists x e, finish neg s0 (ParseUint t base bitSize) = (x, Some e)
    | None => exists x e, finish neg s0 (ParseUint t base bitSize) = (x, Some e)
    end).
  { intros neg s0 t.
    destruct t as [|c t].
    { destruct neg; cbn; eauto. }
    pose proof (ParseUint_spec base bitSize (c :: t) Hb Hbits ltac:(discriminate)) as HU.
    unfold unsigned_numeral.
    destruct (digits_value base (c :: t) 0) as [v|] eqn:Hv.
    - rewrite HU. clear HU.
      assert (0 <= v) by (eapply (digits_value_ge base (c :: t)); [lia| |exact Hv]; lia).
      unfold finish. rewrite Hbs.
      change (wrapU64 (Z.shiftl 1 (64 - 1))) with (2 ^ 63).
      unfold maxUint64, in_int64.
      destruct neg; cbn [fmap option_fmap option_map negb andb].
      + destruct (v <=? 2 ^ 64 - 1) eqn:Hle.
        * destruct (v >? 2 ^ 63) eqn:Hgt.
          -- replace ((- 2 ^ 63 <=? - v) && (- v <? 2 ^ 63)) with false by lia. eauto.
          -- replace ((- 2 ^ 63 <=? - v) && (- v <? 2 ^ 63)) with true by lia.
             f_equal. unfold wrapI64.
             destruct (Z.eq_dec v (2 ^ 63)) as [->|]; [reflexivity|].
             rewrite (Z.mod_small (v + 2 ^ 63)) by lia.
             rewrite Z.mod_small; lia.
        * replace ((- 2 ^ 63 <=? - v) && (- v <? 2 ^ 63)) with false by lia.
          cbn. eauto.
      + destruct (v <=? 2 ^ 64 - 1) eqn:Hle.
        * destruct (v >=? 2 ^ 63) eqn:Hge.
          -- replace ((- 2 ^ 63 <=? v) && (v <? 2 ^ 63)) with false by lia. eauto.
          -- replace ((- 2 ^ 63 <=? v) && (v <? 2 ^ 63)) with true by lia.
             f_equal. apply wrapI64_small. lia.
        * replace ((- 2 ^ 63 <=? v) && (v <? 2 ^ 63)) with false by lia.
          cbn. eauto.
    - destruct HU as (x & e & -> & He).
      assert (exists x' e', finish neg s0 (x, Some (mkNumError (str "ParseUint") (c :: t) e)) = (x', Some e')).
      { unfold finish. destruct He as [-> | [-> ->]]; [eauto|].
        rewrite Hbs. destruct neg; cbn; eauto. }
      destruct neg; exact H. }
  unfold numeral, ParseInt.
  destruct s as [|c0 s1]; [eauto|].
  destruct (Ascii.eqb c0 "+") eqn:Hplus; [exact (Hfin false _ s1)|].
  destruct (Ascii.eqb c0 "-") eqn:Hminus; [exact (Hfin true _ s1)|].
  exact (Hfin false _ (c0 :: s1)).
Qed.

(** The fast path of [Atoi] on at most eighteen characters: no overflow. *)
Lemma atoiLoop_spec s :
  forall (k : nat) n,
    0 <= n < 10 ^ Z.of_nat k -> (k + length s <= 18)%nat ->
    atoiLoop s n = digits_value 10 s n /\
    (forall v, digits_value 10 s n = Some v -> 0 <= v < 10 ^ 18).
Proof.
  induction s as [|c s IH]; intros k n Hn Hk; simpl.
  - split; [reflexivity|]. intros v [= <-].
    pose proof (Z.pow_le_mono_r 10 (Z.of_nat k) 18 ltac:(lia) ltac:(simpl in Hk; lia)). lia.
  - simpl in Hk. unfold digit_of.
    pose proof (byteval_range c) as Hc.
    pose proof (Z.pow_le_mono_r 10 (Z.of_nat (S k)) 18 ltac:(lia) ltac:(lia)) as Hp.
    rewrite Nat2Z.inj_succ, Z.pow_succ_r in Hp by lia.
    destruct (Z_lt_ge_dec (byteval c) 48) as [Hlo|Hlo].
    + replace ((byteval c - 48) mod 256) with (byteval c - 48 + 256)
        by (apply Z.mod_unique with (q := -1); lia).
      replace (byteval c - 48 + 256 >? 9) with true by lia.
      replace ((0 <=? byteval c - 48) && (byteval c - 48 <? 10)) with false by lia.
      split; [reflexivity|discriminate].
    + rewrite Z.mod_small by lia.
      destruct (byteval c - 48 >? 9) eqn:Hhi.
      * replace ((0 <=? byteval c - 48) && (byteval c - 48 <? 10)) with false by lia.
        split; [reflexivity|discriminate].
      * replace ((0 <=? byteval c - 48) && (byteval c - 48 <? 10)) with true by lia.
        rewrite wrapI64_small by lia.
        apply (IH (S k)); [|lia].
        rewrite Nat2Z.inj_succ, Z.pow_succ_r by lia. lia.
Qed.

(** [Atoi]: the value of the decimal numeral when it fits an [int], an error
    otherwise. *)
Lemma Atoi_spec s :
  match numeral 10 s with
  | Some v =>
      if in_int64 v then Atoi s = (v, None)
      else exists x e, Atoi s = (x, Some e)
  | None => exists x e, Atoi s = (x, Some e)
  end.
Proof.
  unfold Atoi.
  change (intSize =? 32) with false. change (intSize =? 64) with true. cbn [andb orb].
  destruct ((0 <? Z.of_nat (length s)) && (Z.of_nat (length s) <? 19)) eqn:Hlen.
  - destruct s as [|c s]; [discriminate|].
    assert (Hl : (length s <= 17)%nat).
    { change (length (c :: s)) with (S (length s)) in Hlen. apply andb_true_iff in Hlen as [_ H2]. apply Z.ltb_lt in H2. lia. }
    unfold numeral.
    destruct (Ascii.eqb c "+") eqn:Hplus.
    { apply Ascii.eqb_eq in Hplus as ->. cbn [Ascii.eqb Bool.eqb orb andb tl].
      destruct s as [|c s]; [cbn; eauto|].
      rewrite (proj2 (Z.ltb_ge (Z.of_nat (length (c :: s))) 1))
        by (change (length (c :: s)) with (S (length s)); lia).
      destruct (atoiLoop_spec (c :: s) 0 0 ltac:(simpl; lia) ltac:(simpl in *; lia)) as [-> Hb].
      unfold unsigned_numeral.
      destruct (digits_value 10 (c :: s) 0) as [v|]; [|eauto].
      specialize (Hb v eq_refl). unfold in_int64.
      replace ((- 2 ^ 63 <=? v) && (v <? 2 ^ 63)) with true by lia. reflexivity. }
    destruct (Ascii.eqb c "-") eqn:Hminus.
    { apply Ascii.eqb_eq in Hminus as ->. cbn [Ascii.eqb Bool.eqb orb andb tl].
      destruct s as [|c s]; [cbn; eauto|].
      rewrite (proj2 (Z.ltb_ge (Z.of_nat (length (c :: s))) 1))
        by (change (length (c :: s)) with (S (length s)); lia).
      destruct (atoiLoop_spec (c :: s) 0 0 ltac:(simpl; lia) ltac:(simpl in *; lia)) as [-> Hb].
      unfold unsigned_numeral.
      destruct (digits_value 10 (c :: s) 0) as [v|]; [|cbn; eauto].
      specialize (Hb v eq_refl). unfold in_int64. cbn [fmap option_fmap option_map].
      replace ((- 2 ^ 63 <=? - v) && (- v <? 2 ^ 63)) with true by lia.
      rewrite wrapI64_small by lia. reflexivity. }
    cbn [orb andb].
    destruct (atoiLoop_spec (c :: s) 0 0 ltac:(simpl; lia) ltac:(simpl in *; lia)) as [-> Hb].
    unfold unsigned_numeral.
    destruct (digits_value 10 (c :: s) 0) as [v|]; [|eauto].
    specialize (Hb v eq_refl). unfold in_int64.
    replace ((- 2 ^ 63 <=? v) && (v <? 2 ^ 63)) with true by lia. reflexivity.
  - pose proof (ParseInt_spec 10 0 s ltac:(lia) ltac:(auto)) as HP.
    destruct (numeral 10 s) as [v|].
    + destruct (in_int64 v).
      * rewrite HP. reflexivity.
      * destruct HP as (x & e & ->). cbn. eauto.
    + destruct HP as (x & e & ->). cbn. eauto.
Qed.

End StrconvFacts.

Section ValidatorFacts.
Local Open Scope Z_scope.

Lemma getModeFromString_refines s : outcome (getModeFromString s) = mode_spec s.
Proof.
  unfold getModeFromString, mode_spec.
  destruct s as [|c s]; [reflexivity|].
  rewrite bool_decide_eq_false_2 by discriminate.
  pose proof (ParseInt_spec 8 64 (c :: s) ltac:(lia) ltac:(auto)) as HP.
  destruct (numeral 8 (c :: s)) as [v|].
  - unfold in_int64 in HP.
    destruct ((- 2 ^ 63 <=? v) && (v <? 2 ^ 63)) eqn:Hr.
    + rewrite HP.
      destruct ((0 <=? v) && (v <=? 511)) eqn:Hv.
      * replace ((v <? 0) || (v >? 511)) with false by lia.
        cbn. rewrite Z.mod_small by lia. reflexivity.
      * replace ((v <? 0) || (v >? 511)) with true by lia. reflexivity.
    + destruct HP as (x & e & ->).
      replace ((0 <=? v) && (v <=? 511)) with false by lia. reflexivity.
  - destruct HP as (x & e & ->). reflexivity.
Qed.

Lemma getIdFromString_refines s : outcome (getIdFromString s) = id_spec s.
Proof.
  unfold getIdFromString, id_spec.
  destruct s as [|c s]; [reflexivity|].
  rewrite bool_decide_eq_false_2 by discriminate.
  pose proof (Atoi_spec (c :: s)) as HP.
  destruct (numeral 10 (c :: s)) as [v|].
  - unfold in_int64 in HP.
    destruct ((- 2 ^ 63 <=? v) && (v <? 2 ^ 63)) eqn:Hr.
    + rewrite HP.
      destruct ((0 <=? v) && (v <=? 65535)) eqn:Hv.
      * replace ((v <? 0) || (v >? 65535)) with false by lia. reflexivity.
      * replace ((v <? 0) || (v >? 65535)) with true by lia. reflexivity.
    + destruct HP as (x & e & ->).
      replace ((0 <=? v) && (v <=? 65535)) with false by lia. reflexivity.
  - destruct HP as (x & e & ->). reflexivity.
Qed.

End ValidatorFacts.

(** C6. The mode parser maps the empty string to 0777; a non-empty input is
    read as a base-8 numeral and accepted exactly when its value lies in
    [0, 0o777], and then that value is returned; every other input is an
    InvalidParameter error, among them "1000" and "abc". *)
Theorem mode_parser_contract :
  getModeFromString [] = (511%Z, None) /\
  (forall s, outcome (getModeFromString s) = mode_spec s) /\
  (forall c s v, getModeFromString (c :: s) = (v, None) <->
                 numeral 8 (c :: s) = Some v /\ (0 <= v <= 511)%Z) /\
  getModeFromString (str "0755") = (493%Z, None) /\
  getModeFromString (str "777") = (511%Z, None) /\
  outcome (getModeFromString (str "1000")) = inr InvalidParameter /\
  outcome (getModeFromString (str "abc")) = inr InvalidParameter.
Proof.
  split; [reflexivity|].
  split; [exact getModeFromString_refines|].
  split.
  - intros c s v. pose proof (getModeFromString_refines (c :: s)) as Hr.
    unfold mode_spec in Hr. split.
    + intros Heq. rewrite Heq in Hr. cbn [outcome] in Hr.
      destruct (numeral 8 (c :: s)) as [n|]; [|discriminate].
      destruct ((0 <=? n)%Z && (n <=? 511)%Z) eqn:Hn; [|discriminate].
      injection Hr as ->. split; [reflexivity|lia].
    + intros [Hn Hv]. rewrite Hn in Hr.
      replace ((0 <=? v)%Z && (v <=? 511)%Z) with true in Hr by lia.
      destruct (getModeFromString (c :: s)) as [x [e|]]; [discriminate|].
      injection Hr as ->. reflexivity.
  - repeat split; vm_compute; reflexivity.
Qed.

(** C7. The id parser maps the empty string to 0; a non-empty input is read
    as a decimal numeral and accepted exactly when its value lies in
    [0, 65535], and then that value is returned; every other input is an
    InvalidParameter error, among them "70000" and "-1". *)
Theorem id_parser_contract :
  getIdFromString [] = (0%Z, None) /\
  (forall s, outcome (getIdFromString s) = id_spec s) /\
  (forall c s v, getIdFromString (c :: s) = (v, None) <->
                 numeral 10 (c :: s) = Some v /\ (0 <= v <= 65535)%Z) /\
  getIdFromString (str "1000") = (1000%Z, None) /\
  getIdFromString (str "65535") = (65535%Z, None) /\
  outcome (getIdFromString (str "70000")) = inr InvalidParameter /\
  outcome (getIdFromString (str "-1")) = inr InvalidParameter /\
  outcome (getIdFromString (str "1e3")) = inr InvalidParameter.
Proof.
  split; [reflexivity|].
  split; [exact getIdFromString_refines|].
  split.
  - intros c s v. pose proof (getIdFromString_refines (c :: s)) as Hr.
    unfold id_spec in Hr. split.
    + intros Heq. rewrite Heq in Hr. cbn [outcome] in Hr.
      destruct (numeral 10 (c :: s)) as [n|]; [|discriminate].
      destruct ((0 <=? n)%Z && (n <=? 65535)%Z) eqn:Hn; [|discriminate].
      injection Hr as ->. split; [reflexivity|lia].
    + intros [Hn Hv]. rewrite Hn in Hr.
      replace ((0 <=? v)%Z && (v <=? 65535)%Z) with true in Hr by lia.
      destruct (getIdFromString (c :: s)) as [x [e|]]; [discriminate|].
      injection Hr as ->. reflexivity.
  - repeat split; vm_compute; reflexivity.
Qed.

(** ** Package strings *)

Section StringsFacts.
Import strings.

Lemma HasPrefix_app p rest : HasPrefix (p ++ rest) p = true.
Proof.
  induction p as [|c p IH]; [reflexivity|]. simpl.
  rewrite Ascii.eqb_refl. exact IH.
Qed.

Lemma HasPrefix_true s p : HasPrefix s p = true -> s = p ++ drop (length p) s.
Proof.
  revert s. induction p as [|c p IH]; intros s; [reflexivity|].
  destruct s as [|d s]; simpl; [discriminate|].
  intros [Hc Hp]%andb_true_iff. apply Ascii.eqb_eq in Hc as ->.
  f_equal. apply IH, Hp.
Qed.

Lemma HasPrefix_nil p : p <> [] -> HasPrefix [] p = false.
Proof. destruct p; [congruence|reflexivity]. Qed.

Lemma Index_nil p : p <> [] -> Index [] p = None.
Proof. destruct p; [congruence|reflexivity]. Qed.

Lemma Index_cons c s p :
  Index (c :: s) p = if HasPrefix (c :: s) p then Some 0%nat else S <$> Index s p.
Proof. reflexivity. Qed.

Lemma Index_bound s p i : p <> [] -> Index s p = Some i -> i + length p <= length s.
Proof.
  intros Hp. revert i. induction s as [|c s IH]; intros i.
  - rewrite Index_nil by assumption. discriminate.
  - rewrite Index_cons. destruct (HasPrefix (c :: s) p) eqn:Hpre.
    + intros [= <-]. apply HasPrefix_true in Hpre.
      apply (f_equal length) in Hpre. rewrite length_app in Hpre. simpl in *. lia.
    + destruct (Index s p) as [j|]; [|discriminate].
      intros [= <-]. specialize (IH j eq_refl). simpl. lia.
Qed.

Lemma countLoop_nil f p : p <> [] -> countLoop f [] p = 0.
Proof.
  intros Hp. destruct f; [reflexivity|].
  cbn [countLoop]. rewrite Index_nil by assumption. reflexivity.
Qed.

Lemma Index_Some s p : forall j,
  Index s p = Some j -> s = take j s ++ p ++ drop (j + length p) s.
Proof.
  induction s as [|c s IH]; intros j.
  - destruct p; [|discriminate]. intros [= <-]. reflexivity.
  - rewrite Index_cons. destruct (HasPrefix (c :: s) p) eqn:Hpre.
    + intros [= <-]. apply HasPrefix_true in Hpre. exact Hpre.
    + destruct (Index s p) as [i|]; [|discriminate].
      intros [= <-]. cbn [take drop Nat.add app]. f_equal. apply IH. reflexivity.
Qed.

Lemma ReplaceAll_same s old : ReplaceAll s old old = s.
Proof.
  unfold ReplaceAll, Replace. rewrite bool_decide_eq_true_2 by reflexivity. reflexivity.
Qed.

(** With a non-empty [substr], [Count] does not depend on the fuel. *)
Lemma countLoop_fuel p : p <> [] ->
  forall f1 f2 s, length s <= f1 -> length s <= f2 ->
  countLoop f1 s p = countLoop f2 s p.
Proof.
  intros Hp. induction f1 as [|f1 IH]; intros f2 s H1 H2.
  - destruct s; [|simpl in H1; lia].
    rewrite !countLoop_nil by assumption. reflexivity.
  - destruct f2 as [|f2].
    + destruct s; [|simpl in H2; lia].
      rewrite !countLoop_nil by assumption. reflexivity.
    + cbn [countLoop]. destruct (Index s p) as [i|] eqn:Hi; [|reflexivity].
      f_equal. apply Index_bound in Hi; [|assumption].
      assert (0 < length p) by (destruct p; [congruence|simpl; lia]).
      apply IH; rewrite length_drop; lia.
Qed.

Lemma Count_unfold s p : p <> [] ->
  Count s p = match Index s p with
              | None => 0
              | Some i => S (Count (drop (i + length p) s) p)
              end.
Proof.
  intros Hp. unfold Count. destruct p as [|c p]; [congruence|].
  destruct s as [|d s].
  - reflexivity.
  - cbn [length countLoop]. destruct (Index (d :: s) (c :: p)) as [i|] eqn:Hi; [|reflexivity].
    f_equal. apply Index_bound in Hi; [|discriminate].
    apply countLoop_fuel; [discriminate| |lia].
    rewrite length_drop. simpl in *. lia.
Qed.

Lemma replaceLoop_index n s old new :
  old <> [] -> forall i j, replaceLoop n i s old new = replaceLoop n j s old new.
Proof.
  intros Hold. revert s. induction n as [|n IH]; intros s i j; [reflexivity|].
  destruct old as [|c old]; [congruence|].
  cbn [replaceLoop]. do 2 f_equal. apply IH.
Qed.

(** [ReplaceAll] with a non-empty [old]: the leftmost instance is replaced,
    and the rest of the string is treated the same way. *)
Lemma ReplaceAll_unfold s old new :
  old <> [] ->
  ReplaceAll s old new =
    match Index s old with
    | None => s
    | Some j => take j s ++ new ++ ReplaceAll (drop (j + length old) s) old new
    end.
Proof.
  intros Hold. destruct (decide (old = new)) as [<-|Hne].
  - rewrite !ReplaceAll_same.
    destruct (Index s old) as [j|] eqn:Hj; [|reflexivity].
    rewrite ReplaceAll_same. apply Index_Some, Hj.
  - unfold ReplaceAll, Replace.
    rewrite bool_decide_eq_false_2 by assumption.
    cbn [Z.eqb orb Z.ltb Z.compare].
    rewrite (Count_unfold s old Hold).
    destruct (Index s old) as [j|] eqn:Hj; [|reflexivity].
    cbn [Nat.eqb replaceLoop].
    destruct old as [|c old]; [congruence|].
    rewrite Hj. cbn [default]. do 2 f_equal.
    destruct (Count (drop (j + length (c :: old)) s) (c :: old)) eqn:Hc; [reflexivity|].
    cbn [Nat.eqb]. apply replaceLoop_index. discriminate.
Qed.

(** A byte at which [old] does not begin is copied. *)
Lemma ReplaceAll_cons_skip c s old new :
  old <> [] -> HasPrefix (c :: s) old = false ->
  ReplaceAll (c :: s) old new = c :: ReplaceAll s old new.
Proof.
  intros Hold Hpre.
  rewrite (ReplaceAll_unfold (c :: s)), (ReplaceAll_unfold s) by assumption.
  rewrite Index_cons, Hpre.
  destruct (Index s old) as [j|]; reflexivity.
Qed.

(** An instance of [old] at the front is replaced. *)
Lemma ReplaceAll_hit s old new :
  old <> [] -> ReplaceAll (old ++ s) old new = new ++ ReplaceAll s old new.
Proof.
  intros Hold. rewrite (ReplaceAll_unfold (old ++ s)) by assumption.
  destruct old as [|c old]; [congruence|].
  cbn [app]. rewrite Index_cons.
  change (c :: old ++ s) with ((c :: old) ++ s). rewrite HasPrefix_app.
  cbn [take Nat.add]. rewrite drop_app_length. reflexivity.
Qed.

End StringsFacts.

(** ** The placeholder pattern and the resolver *)

Section RegexpFacts.
Import regexp.

Lemma literal_Some lit s t : literal lit s = Some t -> s = lit ++ t.
Proof.
  unfold literal. destruct (strings.HasPrefix s lit) eqn:Hp; [|discriminate].
  intros [= <-]. apply HasPrefix_true, Hp.
Qed.

Lemma literal_app lit t : literal lit (lit ++ t) = Some t.
Proof.
  unfold literal. rewrite HasPrefix_app, drop_app_length. reflexivity.
Qed.

(** The run [.*?] takes holds neither a closing brace nor a line feed. *)
Lemma lazyUntilBrace_Some s : forall run rest,
  lazyUntilBrace s = Some (run, rest) ->
  s = run ++ str "}" ++ rest /\ ("}"%char ∉ run) /\ ("010"%char ∉ run).
Proof.
  induction s as [|c s IH]; intros run rest; simpl; [discriminate|].
  destruct (Ascii.eqb c "}") eqn:Hb.
  - apply Ascii.eqb_eq in Hb as ->. intros [= <- <-].
    repeat split; apply not_elem_of_nil.
  - destruct (Ascii.eqb c "010") eqn:Hn; [discriminate|].
    destruct (lazyUntilBrace s) as [[run' rest']|]; [|discriminate].
    intros [= <- <-]. destruct (IH _ _ eq_refl) as (-> & H1 & H2).
    apply Ascii.eqb_neq in Hb, Hn.
    repeat split; apply not_elem_of_cons; auto.
Qed.

(** Bytes that are neither a brace nor a line feed join the run. *)
Lemma lazyUntilBrace_app w s :
  "}"%char ∉ w -> "010"%char ∉ w ->
  lazyUntilBrace (w ++ s) = (fun '(run, rest) => (w ++ run, rest)) <$> lazyUntilBrace s.
Proof.
  induction w as [|c w IH]; intros Hb Hn.
  - cbn [app]. destruct (lazyUntilBrace s) as [[? ?]|]; reflexivity.
  - apply not_elem_of_cons in Hb as [Hb1 Hb], Hn as [Hn1 Hn].
    cbn [app lazyUntilBrace].
    rewrite (proj2 (Ascii.eqb_neq c "}")) by congruence.
    rewrite (proj2 (Ascii.eqb_neq c "010")) by congruence.
    rewrite IH by assumption.
    destruct (lazyUntilBrace s) as [[? ?]|]; reflexivity.
Qed.

Lemma keyed_Some word s m rest :
  "}"%char ∉ word -> "010"%char ∉ word ->
  keyed word s = Some (m, rest) ->
  exists key, m = mkSubmatch (str "${.PVC." ++ word ++ str "." ++ key ++ str "}")
                        (word ++ str "." ++ key) word key
         /\ lazyUntilBrace s = Some (word ++ str "." ++ key, rest).
Proof.
  intros Hb Hn. unfold keyed.
  destruct (literal word s) as [s2|] eqn:H2; [|discriminate]. cbn [mbind option_bind].
  destruct (literal (str ".") s2) as [s3|] eqn:H3; [|discriminate]. cbn [mbind option_bind].
  destruct (lazyUntilBrace s3) as [[key rest']|] eqn:H4; [|discriminate].
  cbn [mbind option_bind]. intros [= <- <-].
  exists key. split; [reflexivity|].
  apply literal_Some in H2 as ->. apply literal_Some in H3 as ->.
  rewrite lazyUntilBrace_app by assumption.
  change (str "." ++ s3) with ("."%char :: s3). cbn [lazyUntilBrace Ascii.eqb Bool.eqb].
  rewrite H4. reflexivity.
Qed.

Lemma keyed_None word s field rest :
  "}"%char ∉ word -> "010"%char ∉ word ->
  keyed word s = None -> lazyUntilBrace s = Some (field, rest) ->
  literal (word ++ str ".") field = None.
Proof.
  intros Hb Hn Hk Hl.
  destruct (literal (word ++ str ".") field) as [key|] eqn:Hf; [|reflexivity].
  exfalso. apply literal_Some in Hf as ->.
  apply lazyUntilBrace_Some in Hl as (-> & Hnb & Hnn).
  revert Hk. unfold keyed.
  rewrite <- !app_assoc, literal_app. cbn [mbind option_bind].
  change (str "." ++ key ++ str "}" ++ rest) with (str "." ++ (key ++ str "}" ++ rest)).
  rewrite literal_app. cbn [mbind option_bind].
  rewrite lazyUntilBrace_app.
  - cbn. discriminate.
  - intros H. apply Hnb. rewrite !elem_of_app. auto.
  - intros H. apply Hnn. rewrite !elem_of_app. auto.
Qed.

Lemma matchAt_Some s m rest :
  matchAt s = Some (m, rest) ->
  exists field, m = groups_of field /\ s = r0 m ++ rest
                /\ ("}"%char ∉ field) /\ ("010"%char ∉ field).
Proof.
  unfold matchAt.
  destruct (literal (str "${.PVC.") s) as [s1|] eqn:H1; [|discriminate].
  cbn [mbind option_bind]. apply literal_Some in H1 as ->.
  assert (Hw1 : ("}"%char ∉ str "labels") /\ ("010"%char ∉ str "labels"))
    by (split; compute_done).
  assert (Hw2 : ("}"%char ∉ str "annotations") /\ ("010"%char ∉ str "annotations"))
    by (split; compute_done).
  destruct Hw1 as [Hb1 Hn1], Hw2 as [Hb2 Hn2].
  destruct (keyed (str "labels") s1) as [[m1 rest1]|] eqn:Hk1.
  { cbn [orelse]. intros [= <- <-].
    apply (keyed_Some _ _ _ _ Hb1 Hn1) in Hk1 as (key & -> & Hl).
    apply lazyUntilBrace_Some in Hl as (-> & Hnb & Hnn).
    exists (str "labels" ++ str "." ++ key). repeat split; try assumption.
    cbn. rewrite <- !app_assoc. reflexivity. }
  destruct (keyed (str "annotations") s1) as [[m2 rest2]|] eqn:Hk2.
  { cbn [orelse]. intros [= <- <-].
    apply (keyed_Some _ _ _ _ Hb2 Hn2) in Hk2 as (key & -> & Hl).
    apply lazyUntilBrace_Some in Hl as (-> & Hnb & Hnn).
    exists (str "annotations" ++ str "." ++ key). repeat split; try assumption.
    cbn. rewrite <- !app_assoc. reflexivity. }
  cbn [orelse]. unfold plain.
  destruct (lazyUntilBrace s1) as [[field rest']|] eqn:Hl; [|discriminate].
  cbn [mbind option_bind]. intros [= <- <-].
  pose proof (keyed_None _ _ _ _ Hb1 Hn1 Hk1 Hl) as HL.
  pose proof (keyed_None _ _ _ _ Hb2 Hn2 Hk2 Hl) as HA.
  apply lazyUntilBrace_Some in Hl as (-> & Hnb & Hnn).
  exists field. repeat split; try assumption.
  - unfold groups_of.
    change (str "labels.") with (str "labels" ++ str ".").
    change (str "annotations.") with (str "annotations" ++ str ".").
    rewrite HL, HA. reflexivity.
  - cbn. rewrite <- !app_assoc. reflexivity.
Qed.

Lemma r0_groups_of field : r0 (groups_of field) = str "${.PVC." ++ field ++ str "}".
Proof. unfold groups_of. repeat case_match; reflexivity. Qed.

Lemma r1_groups_of field : r1 (groups_of field) = field.
Proof. unfold groups_of. repeat case_match; reflexivity. Qed.

End RegexpFacts.

Section ResolverFacts.
Import regexp.
Variable meta : pvcMetadata.

(** The switch of [stringParser] picks the value the field names. *)
Lemma substitute_groups_of s field :
  substitute meta s (groups_of field) =
  strings.ReplaceAll s (str "${.PVC." ++ field ++ str "}") (placeholder_value meta field).
Proof.
  unfold substitute, groups_of, placeholder_value.
  destruct (literal (str "labels.") field) as [key|]; [reflexivity|].
  destruct (literal (str "annotations.") field) as [key|]; reflexivity.
Qed.

Lemma hits_Hit m l : hits (Hit m :: l) = m :: hits l.
Proof. reflexivity. Qed.

Lemma hits_Lit c l : hits (Lit c :: l) = hits l.
Proof. reflexivity. Qed.

(** The segments spell the template, their placeholders are the matches
    [FindAllStringSubmatch] returns, and each has the shape of a match. *)
Lemma segmentsOf_spec f : forall s, length s <= f ->
  concat (map seg_text (segmentsOf f s)) = s /\
  hits (segmentsOf f s) = findAll f s /\
  Forall shaped (segmentsOf f s).
Proof.
  induction f as [|f IH]; intros s Hlen.
  - destruct s; [|simpl in Hlen; lia]. repeat split. constructor.
  - destruct s as [|c s]; [repeat split; constructor|].
    cbn [segmentsOf findAll].
    destruct (matchAt (c :: s)) as [[m rest]|] eqn:Hm.
    + destruct (matchAt_Some _ _ _ Hm) as (field & Hg & Hs & Hb & _).
      assert (Hr : length rest <= f).
      { apply (f_equal length) in Hs. rewrite length_app in Hs.
        rewrite Hg, r0_groups_of in Hs. cbn in Hs, Hlen. lia. }
      destruct (IH rest Hr) as (H1 & H2 & H3).
      rewrite hits_Hit. cbn [map concat seg_text].
      rewrite H1, H2. repeat split; [symmetry; exact Hs|].
      constructor; [|exact H3]. exists field. auto.
    + destruct (IH s ltac:(simpl in Hlen; lia)) as (H1 & H2 & H3).
      rewrite hits_Lit. cbn [map concat seg_text].
      rewrite H1, H2. repeat split. constructor; [exact I|exact H3].
Qed.

Lemma no_dollar_spec s : no_dollar s = true <-> "$"%char ∉ s.
Proof.
  unfold no_dollar. induction s as [|c s IH]; cbn [forallb].
  - split; [intros _; apply not_elem_of_nil|reflexivity].
  - rewrite andb_true_iff, IH, not_elem_of_cons, negb_true_iff, Ascii.eqb_neq.
    split; intros [H1 H2]; split; congruence.
Qed.

(** Bytes other than the dollar sign are copied when a placeholder is
    replaced. *)
Lemma ReplaceAll_no_dollar l s field v :
  "$"%char ∉ l ->
  strings.ReplaceAll (l ++ s) (str "${.PVC." ++ field ++ str "}") v =
  l ++ strings.ReplaceAll s (str "${.PVC." ++ field ++ str "}") v.
Proof.
  induction l as [|c l IH]; intros Hl; [reflexivity|].
  apply not_elem_of_cons in Hl as [Hc Hl].
  cbn [app]. rewrite ReplaceAll_cons_skip, IH; [reflexivity|assumption|discriminate|].
  cbn. rewrite (proj2 (Ascii.eqb_neq c "$")) by congruence. reflexivity.
Qed.

(** Two strings cut at their first closing brace. *)
Lemma first_brace_unique f1 f2 x1 x2 :
  "}"%char ∉ f1 -> "}"%char ∉ f2 ->
  f1 ++ str "}" ++ x1 = f2 ++ str "}" ++ x2 -> f1 = f2.
Proof.
  revert f2. induction f1 as [|c f1 IH]; intros f2 H1 H2 Heq.
  - destruct f2 as [|d f2]; [reflexivity|].
    injection Heq as <- _. exfalso. apply H2. left.
  - apply not_elem_of_cons in H1 as [Hc H1].
    destruct f2 as [|d f2].
    + injection Heq as -> _. congruence.
    + apply not_elem_of_cons in H2 as [Hd H2].
      injection Heq as <- Heq. f_equal. eapply IH; eassumption.
Qed.

(** In front of a placeholder only that placeholder begins. *)
Lemma HasPrefix_placeholder f1 f2 x :
  "}"%char ∉ f1 -> "}"%char ∉ f2 ->
  strings.HasPrefix ((str "${.PVC." ++ f1 ++ str "}") ++ x) (str "${.PVC." ++ f2 ++ str "}") = true ->
  f1 = f2.
Proof.
  intros H1 H2 Hp. apply HasPrefix_true in Hp.
  rewrite <- !app_assoc in Hp. apply app_inv_head in Hp.
  eapply first_brace_unique; eassumption.
Qed.

(** One round of the loop on a well delimited template replaces the
    placeholders of one text, and nothing else. *)
Lemma render_step segs done field :
  Forall (seg_ok meta) segs -> "}"%char ∉ field ->
  strings.ReplaceAll (concat (map (render meta done) segs))
    (str "${.PVC." ++ field ++ str "}") (placeholder_value meta field) =
  concat (map (render meta ((str "${.PVC." ++ field ++ str "}") :: done)) segs).
Proof.
  intros Hok Hf. induction Hok as [|seg segs Hseg Hsegs IH].
  { cbn [map concat]. rewrite ReplaceAll_unfold by discriminate. reflexivity. }
  cbn [map concat]. destruct seg as [c|m].
  - cbn [render]. rewrite ReplaceAll_no_dollar, IH; [reflexivity|].
    apply not_elem_of_cons. split; [congruence|apply not_elem_of_nil].
  - destruct Hseg as (fm & -> & Hb & Hd & Hv).
    cbn [render]. rewrite r0_groups_of, r1_groups_of.
    destruct (bool_decide (str "${.PVC." ++ fm ++ str "}" ∈ done)) eqn:Hin.
    + apply bool_decide_eq_true in Hin.
      rewrite bool_decide_eq_true_2 by (right; exact Hin).
      rewrite ReplaceAll_no_dollar, IH by assumption. reflexivity.
    + apply bool_decide_eq_false in Hin.
      destruct (decide (fm = field)) as [->|Hne].
      * rewrite bool_decide_eq_true_2 by left.
        rewrite ReplaceAll_hit, IH by discriminate. reflexivity.
      * rewrite bool_decide_eq_false_2.
        2:{ intros [Heq|Hd']%elem_of_cons; [|exact (Hin Hd')].
            apply app_inv_head, app_inv_tail in Heq. congruence. }
        destruct (strings.HasPrefix
                    ((str "${.PVC." ++ fm ++ str "}") ++ concat (map (render meta done) segs))
                    (str "${.PVC." ++ field ++ str "}")) eqn:Hp.
        { exfalso. apply Hne. eapply HasPrefix_placeholder; eassumption. }
        rewrite <- IH.
        remember (str "${.PVC." ++ field ++ str "}") as t eqn:Ht.
        change (str "${.PVC." ++ fm ++ str "}")
          with ("$"%char :: (str "{.PVC." ++ fm ++ str "}")) in Hp |- *.
        cbn [app] in Hp |- *. rewrite ReplaceAll_cons_skip.
        -- subst t. rewrite ReplaceAll_no_dollar; [reflexivity|].
           rewrite !not_elem_of_app. repeat split; [compute_done|assumption|compute_done].
        -- subst t. discriminate.
        -- exact Hp.
Qed.

Lemma fold_substitute segs rs : forall done,
  Forall (seg_ok meta) segs ->
  Forall (fun r => exists field, r = groups_of field /\ ("}"%char ∉ field)) rs ->
  fold_left (substitute meta) rs (concat (map (render meta done) segs)) =
  concat (map (render meta (rev (map r0 rs) ++ done)) segs).
Proof.
  induction rs as [|r rs IH]; intros done Hok Hrs; [reflexivity|].
  apply Forall_cons in Hrs as [(field & -> & Hf) Hrs].
  cbn [fold_left map rev]. rewrite substitute_groups_of, render_step by assumption.
  rewrite IH by assumption. rewrite r0_groups_of, <- app_assoc. reflexivity.
Qed.

Lemma well_delimited_ok s : well_delimited meta s = true -> Forall (seg_ok meta) (segments s).
Proof.
  unfold well_delimited. intros Hw.
  destruct (segmentsOf_spec (length s) s (le_n _)) as (_ & _ & Hshape).
  fold (segments s) in Hshape.
  rewrite forallb_forall in Hw. apply Forall_forall. intros seg Hin.
  rewrite Forall_forall in Hshape.
  specialize (Hw seg ltac:(apply list_elem_of_In; exact Hin)).
  specialize (Hshape seg Hin).
  destruct seg as [c|m]; cbn in *.
  - apply negb_true_iff, Ascii.eqb_neq in Hw. exact Hw.
  - destruct Hshape as (field & -> & Hb). exists field.
    rewrite r1_groups_of in Hw.
    apply andb_true_iff in Hw as [H1 H2].
    apply no_dollar_spec in H1, H2. auto.
Qed.

End ResolverFacts.

Example resolve_gold : stringParser meta_gold tpl_gold = str "gold/data".
Proof. vm_compute. reflexivity. Qed.

Example resolve_absent_key :
  stringParser meta_gold (str "${.PVC.namespace}/${.PVC.labels.none}${.PVC.uid}.d")
  = str "default/.d".
Proof. vm_compute. reflexivity. Qed.

(** C5, as the document states it, fails: with a label whose value is the
    text of a placeholder that stands later in the template, the resolver
    does not return the template with every placeholder replaced by its
    value. *)
Lemma resolver_contract_counterexample :
  stringParser meta_label_injected tpl_label_then_name = str "data-data" /\
  expand meta_label_injected tpl_label_then_name = str "${.PVC.name}-data" /\
  stringParser meta_label_injected tpl_label_then_name
    <> expand meta_label_injected tpl_label_then_name.
Proof.
  split; [vm_compute; reflexivity|].
  split; [vm_compute; reflexivity|].
  vm_compute. discriminate.
Qed.

(** C5, amended. For every template in which each dollar sign opens a
    placeholder, and every metadata snapshot whose values for these
    placeholders hold no dollar sign, the resolver returns the template with
    every placeholder replaced by the corresponding value, or by the empty
    string when the field or key is absent. The resolver is a function of
    the metadata and the template alone. *)
Theorem resolver_contract_delimited meta s :
  well_delimited meta s = true -> stringParser meta s = expand meta s.
Proof.
  intros Hw. pose proof (well_delimited_ok meta s Hw) as Hok.
  destruct (segmentsOf_spec (length s) s (le_n _)) as (Htext & Hhits & Hshape).
  fold (segments s) in Htext, Hhits, Hshape.
  unfold stringParser, regexp.FindAllStringSubmatch, expand. cbv zeta.
  rewrite <- Hhits.
  assert (Hstart : concat (map (render meta []) (segments s)) = s).
  { rewrite <- Htext at 2. f_equal. }
  rewrite <- Hstart at 2.
  rewrite fold_substitute.
  - f_equal. apply map_ext_in. intros [c|m] Hin; [reflexivity|].
    cbn [render expand_segment]. rewrite bool_decide_eq_true_2; [reflexivity|].
    rewrite app_nil_r. apply list_elem_of_In. rewrite <- in_rev.
    apply in_map, list_elem_of_In.
    unfold hits. apply list_elem_of_omap. exists (Hit m).
    split; [apply list_elem_of_In; exact Hin|reflexivity].
  - exact Hok.
  - apply Forall_forall. intros r Hr.
    unfold hits in Hr. apply list_elem_of_omap in Hr as ([c|m] & Hin & Heq); [discriminate|].
    injection Heq as ->. rewrite Forall_forall in Hshape. exact (Hshape _ Hin).
Qed.

Lemma resolver_contract_delimited_witness :
  well_delimited meta_gold tpl_gold = true /\
  stringParser meta_gold tpl_gold = expand meta_gold tpl_gold.
Proof.
  split; [reflexivity|].
  apply (resolver_contract_delimited meta_gold tpl_gold). reflexivity.
Defined.

Lemma fold_left_ext_Forall {A B} (f g : A -> B -> A) l :
  Forall (fun r => forall acc, f acc r = g acc r) l ->
  forall a, fold_left f l a = fold_left g l a.
Proof.
  induction 1 as [|r l Hr Hl IH]; intros a; [reflexivity|].
  cbn [fold_left]. rewrite Hr. apply IH.
Qed.

(** C10. The substitution is not one pass: the matches are those of the
    template as it was given, and each in turn is replaced wherever its text
    stands in the string reached so far. So with an annotation whose value
    holds the text of a placeholder matched later, that text is replaced as
    well, and the result is not the template with each placeholder replaced
    once by its value. *)
Theorem resolver_not_single_pass :
  (forall meta s,
     stringParser meta s =
     fold_left (fun acc r => strings.ReplaceAll acc (regexp.r0 r)
                               (placeholder_value meta (regexp.r1 r)))
               (regexp.FindAllStringSubmatch s) s) /\
  regexp.FindAllStringSubmatch tpl_annotation_then_namespace
    = [groups_of (str "annotations.dir"); groups_of (str "namespace")] /\
  placeholder_value meta_annotation_injected (str "annotations.dir")
    = str "x/" ++ regexp.r0 (groups_of (str "namespace")) /\
  stringParser meta_annotation_injected tpl_annotation_then_namespace
    = str "x/default/default" /\
  expand meta_annotation_injected tpl_annotation_then_namespace
    = str "x/${.PVC.namespace}/default".
Proof.
  split.
  - intros meta s. unfold stringParser. cbv zeta.
    apply fold_left_ext_Forall.
    destruct (segmentsOf_spec (length s) s (le_n _)) as (_ & Hhits & Hshape).
    unfold regexp.FindAllStringSubmatch. rewrite <- Hhits.
    apply Forall_forall. intros r Hr.
    unfold hits in Hr. apply list_elem_of_omap in Hr as ([c|m] & Hin & Heq); [discriminate|].
    injection Heq as ->. rewrite Forall_forall in Hshape.
    destruct (Hshape _ Hin) as (field & -> & _). intros acc.
    rewrite substitute_groups_of, r0_groups_of, r1_groups_of. reflexivity.
  - repeat split; vm_compute; reflexivity.
Qed.

(** ** Package path/filepath *)

Section FilepathFacts.
Import filepath.

Lemma elements_nonempty s : elements s <> [].
Proof.
  induction s as [|c s IH]; cbn [elements]; [discriminate|].
  destruct (Ascii.eqb c "/"); [discriminate|].
  destruct (elements s); discriminate.
Qed.

Lemma elements_no_slash s : "/"%char ∉ s -> elements s = [s].
Proof.
  induction s as [|c s IH]; intros Hs; [reflexivity|].
  apply not_elem_of_cons in Hs as [Hc Hs]. cbn [elements].
  rewrite (proj2 (Ascii.eqb_neq c "/")) by congruence.
  rewrite IH by assumption. reflexivity.
Qed.

Lemma elements_app a b : elements (a ++ "/"%char :: b) = elements a ++ elements b.
Proof.
  induction a as [|c a IH]; [reflexivity|].
  cbn [app elements]. rewrite IH.
  destruct (Ascii.eqb c "/"); [reflexivity|].
  pose proof (elements_nonempty a).
  destruct (elements a); [congruence|reflexivity].
Qed.

Lemma Join_cons e es sep :
  es <> [] -> strings.Join (e :: es) sep = e ++ sep ++ strings.Join es sep.
Proof. destruct es; [congruence|reflexivity]. Qed.

Lemma Join_snoc es e sep :
  es <> [] -> strings.Join (es ++ [e]) sep = strings.Join es sep ++ sep ++ e.
Proof.
  induction es as [|x es IH]; [congruence|]. intros _.
  destruct es as [|y es]; [reflexivity|].
  change ((x :: y :: es) ++ [e]) with (x :: ((y :: es) ++ [e])).
  rewrite Join_cons by (destruct es; discriminate).
  rewrite IH by discriminate.
  rewrite (Join_cons x (y :: es)) by discriminate.
  rewrite <- !app_assoc. reflexivity.
Qed.

Lemma Join_app es1 es2 sep :
  es1 <> [] -> es2 <> [] ->
  strings.Join (es1 ++ es2) sep = strings.Join es1 sep ++ sep ++ strings.Join es2 sep.
Proof.
  intros H1 H2. induction es1 as [|x es1 IH]; [congruence|].
  destruct es1 as [|y es1].
  - cbn [app]. apply Join_cons, H2.
  - change ((x :: y :: es1) ++ es2) with (x :: ((y :: es1) ++ es2)).
    rewrite Join_cons by discriminate. rewrite IH by discriminate.
    rewrite (Join_cons x (y :: es1)) by discriminate.
    rewrite <- !app_assoc. reflexivity.
Qed.

(** Joining the elements of a path gives the path back. *)
Lemma Join_elements s : strings.Join (elements s) (str "/") = s.
Proof.
  induction s as [|c s IH]; [reflexivity|].
  cbn [elements]. pose proof (elements_nonempty s) as Hne.
  destruct (Ascii.eqb c "/") eqn:Hc.
  - apply Ascii.eqb_eq in Hc as ->.
    rewrite Join_cons by assumption. rewrite IH. reflexivity.
  - destruct (elements s) as [|e es]; [congruence|].
    destruct es as [|e' es].
    + cbn in IH |- *. rewrite IH. reflexivity.
    + rewrite Join_cons in IH |- * by discriminate.
      cbn [app]. rewrite IH. reflexivity.
Qed.

Lemma normalb_spec e :
  normalb e = true <->
  e <> [] /\ e <> str "." /\ e <> str ".." /\ "/"%char ∉ e.
Proof.
  unfold normalb. rewrite !andb_true_iff, !negb_true_iff, !bool_decide_eq_false. tauto.
Qed.

Lemma cleanStep_normal rooted out e :
  normalb e = true -> cleanStep rooted out e = e :: out.
Proof.
  intros (H1 & H2 & H3 & _)%normalb_spec. unfold cleanStep.
  rewrite !bool_decide_eq_false_2 by assumption. reflexivity.
Qed.

Lemma fold_cleanStep_normal rooted es : forall out,
  forallb normalb es = true ->
  fold_left (cleanStep rooted) es out = rev es ++ out.
Proof.
  induction es as [|e es IH]; intros out; [reflexivity|].
  cbn [forallb fold_left rev]. intros [He Hes]%andb_true_iff.
  rewrite cleanStep_normal, IH by assumption.
  rewrite <- app_assoc. reflexivity.
Qed.

(** A rooted path of plain elements is clean. *)
Lemma Clean_plain_rooted s : plain_rooted s = true -> Clean s = s.
Proof.
  destruct s as [|c s]; [discriminate|]. cbn [plain_rooted].
  intros [Hc Hs]%andb_true_iff. apply Ascii.eqb_eq in Hc as ->.
  unfold Clean. cbn [Ascii.eqb Bool.eqb elements fold_left].
  change (cleanStep true [] []) with (@nil gostring).
  unfold plain_relative in Hs.
  rewrite fold_cleanStep_normal by assumption.
  rewrite app_nil_r, rev_involutive, Join_elements. reflexivity.
Qed.

Lemma plain_relative_app a b :
  plain_relative a = true -> plain_relative b = true ->
  plain_relative (a ++ str "/" ++ b) = true.
Proof.
  unfold plain_relative. intros Ha Hb.
  change (a ++ str "/" ++ b) with (a ++ "/"%char :: b).
  rewrite elements_app, forallb_app, Ha, Hb. reflexivity.
Qed.

(** Joining a rooted plain path and a relative plain path puts one
    separator between them. *)
Lemma Join_plain base suffix :
  plain_rooted base = true -> plain_relative suffix = true ->
  Join [base; suffix] = base ++ str "/" ++ suffix.
Proof.
  intros Hb Hs. destruct base as [|c base]; [discriminate|].
  cbn [Join]. rewrite bool_decide_eq_false_2 by discriminate.
  cbn [strings.Join]. apply Clean_plain_rooted.
  cbn [plain_rooted] in Hb. apply andb_true_iff in Hb as [Hc Hb].
  cbn [app plain_rooted]. rewrite Hc. cbn [andb].
  apply plain_relative_app; assumption.
Qed.

Lemma elements_Forall_no_slash s : Forall (fun e => "/"%char ∉ e) (elements s).
Proof.
  induction s as [|c s IH]; cbn [elements].
  - constructor; [apply not_elem_of_nil|constructor].
  - destruct (Ascii.eqb c "/") eqn:Hc.
    + constructor; [apply not_elem_of_nil|exact IH].
    + destruct (elements s) as [|e es]; [repeat constructor|].
      * apply not_elem_of_cons. split; [|apply not_elem_of_nil].
        apply Ascii.eqb_neq in Hc. congruence.
      * apply Forall_cons in IH as [He Hes]. constructor; [|exact Hes].
        apply not_elem_of_cons. split; [|exact He].
        apply Ascii.eqb_neq in Hc. congruence.
Qed.

(** The base of a path holds no separator, unless the path is made of
    separators only. *)
Lemma Base_no_slash s : Base s <> str "/" -> "/"%char ∉ Base s.
Proof.
  unfold Base. destruct s as [|c s]; [intros _; compute_done|].
  destruct (stripTrailingSlashes (c :: s)) as [|d t]; [congruence|]. intros _.
  pose proof (elements_Forall_no_slash (d :: t)) as HF.
  destruct (last (elements (d :: t))) as [e|] eqn:Hl; [|apply not_elem_of_nil].
  cbn [default]. rewrite Forall_forall in HF. apply HF.
  apply last_Some_elem_of in Hl. exact Hl.
Qed.

End FilepathFacts.

Section PathFacts.

Lemma archivePathOf_literal vol :
  filepath.Base (nfsPath (pvNFS vol)) <> str "/" ->
  archivePathOf vol =
    mountPath ++ str "/" ++ str "archived-" ++ filepath.Base (nfsPath (pvNFS vol)).
Proof.
  intros Hb. apply Base_no_slash in Hb. unfold archivePathOf. cbv zeta.
  apply Join_plain; [reflexivity|].
  unfold plain_relative. rewrite elements_no_slash.
  - cbn [forallb]. rewrite andb_true_r. apply normalb_spec.
    repeat split; try discriminate.
    rewrite not_elem_of_app. split; [compute_done|exact Hb].
  - rewrite not_elem_of_app. split; [compute_done|exact Hb].
Qed.

(** The two paths of a provision call are the export base path and the
    mount root, each joined with the same suffix. *)
Lemma provisionPaths_Join p options :
  provisionPaths p options =
    (filepath.Join [path p; suffixOf options], filepath.Join [mountPath; suffixOf options]).
Proof.
  unfold provisionPaths, suffixOf. cbv zeta.
  rewrite insert_empty.
  change (strings.Join [pvcNamespace (optPVC options); pvcName (optPVC options);
                        optPVName options] (str "-"))
    with (pvcNamespace (optPVC options) ++ str "-" ++ pvcName (optPVC options)
            ++ str "-" ++ optPVName options).
  destruct (scParameters (optStorageClass options) !! str "pathPattern") as [pat|];
    [|reflexivity].
  destruct (stringParser _ pat) as [|c custom]; reflexivity.
Qed.

End PathFacts.

(** ** Runs of the provisioner *)

Section RunFacts.
Context {W : Type} (h : handler W).

Lemma run_bind {A B} (m : prog A) (f : A -> prog B) w :
  run h (m ≫= f) w =
    let '(tr1, a, w1) := run h m w in
    let '(tr2, b, w2) := run h (f a) w1 in
    (tr1 ++ tr2, b, w2).
Proof.
  revert w. induction m as [a|sev msg k IH|c k IH|n k IH]; intros w.
  - cbn. destruct (run h (f a) w) as [[tr2 b] w2]. reflexivity.
  - cbn. change (bind k f) with (k ≫= f). rewrite IH.
    destruct (run h k (hLog h sev msg w)) as [[tr1 a] w1].
    destruct (run h (f a) w1) as [[tr2 b] w2]. reflexivity.
  - cbn. destruct (hOS h c w) as [x w1].
    change (bind (k x) f) with (k x ≫= f). rewrite IH.
    destruct (run h (k x) w1) as [[tr1 a] w1'].
    destruct (run h (f a) w1') as [[tr2 b] w2]. reflexivity.
  - cbn. destruct (hLookup h n w) as [x w1].
    change (bind (k x) f) with (k x ≫= f). rewrite IH.
    destruct (run h (k x) w1) as [[tr1 a] w1'].
    destruct (run h (f a) w1') as [[tr2 b] w2]. reflexivity.
Qed.

Lemma run_os c w : run h (os c) w = let '(x, w') := hOS h c w in ([EOS c x], x, w').
Proof. cbn. destruct (hOS h c w). reflexivity. Qed.

Lemma run_glog sev msg w : run h (glog sev msg) w = ([ELog sev msg], tt, hLog h sev msg w).
Proof. reflexivity. Qed.

(** The lookup of the storage class, when the client is set and the volume
    names its class. *)
Lemma run_getClassForVolume p vol w :
  client p = true -> GetPersistentVolumeClass vol <> [] ->
  run h (getClassForVolume p vol) w =
    let '(r, w') := hLookup h (GetPersistentVolumeClass vol) w in
    ([ELookup (GetPersistentVolumeClass vol) r],
     match r with inl class => inl class | inr err => inr (ErrAPI err) end, w').
Proof.
  intros Hc Hn. unfold getClassForVolume. rewrite Hc. cbn [negb].
  rewrite bool_decide_eq_false_2 by assumption.
  cbn. destruct (hLookup h _ w) as [[class|err] w']; reflexivity.
Qed.

(** The switch on [onDelete] and [archiveOnDelete] is the precedence of the
    document. *)
Lemma Delete_existing p vol w r1 w1 class w2 :
  hOS h (Stat (localPath p vol)) w = (r1, w1) ->
  IsNotExist r1 = false ->
  client p = true ->
  GetPersistentVolumeClass vol <> [] ->
  hLookup h (GetPersistentVolumeClass vol) w1 = (inl class, w2) ->
  run h (Delete p vol) w =
    let '(tr, r, w') :=
      performDeletion h (deletionAction (scParameters class))
                      (localPath p vol) (archivePathOf vol) w2 in
    (EOS (Stat (localPath p vol)) r1
       :: ELookup (GetPersistentVolumeClass vol) (inl class) :: tr, r, w').
Proof.
  intros Hstat Hex Hc Hn Hlook. unfold Delete. cbv zeta.
  rewrite run_bind, run_os, Hstat, Hex.
  rewrite run_bind, run_getClassForVolume, Hlook by assumption.
  unfold deletionAction, index_map.
  set (old := localPath p vol). set (arch := archivePathOf vol).
  set (archive := (glog Info4 (MsgArchiving old arch);;
                   err ← os (Rename old arch); Ret (oserr err)) : prog (option error)).
  assert (Harch : run h archive w2 = performDeletion h ArchiveTree old arch w2).
  { subst archive. rewrite run_bind, run_glog. cbn [performDeletion].
    rewrite run_bind, run_os.
    destruct (hOS h (Rename old arch) _) as [e w3]. reflexivity. }
  assert (Hrem : run h (err ← os (RemoveAll old); Ret (oserr err)) w2
                 = performDeletion h RemoveTree old arch w2).
  { cbn [performDeletion]. rewrite run_bind, run_os.
    destruct (hOS h (RemoveAll old) w2) as [e w3]. reflexivity. }
  assert (Htail :
    run h (match scParameters class !! str "archiveOnDelete" with
           | Some archiveOnDelete =>
               match strconv.ParseBool archiveOnDelete with
               | (_, Some err) => Ret (Some (ErrNum err))
               | (archiveBool, None) =>
                   if negb archiveBool then err ← os (RemoveAll old); Ret (oserr err)
                   else archive
               end
           | None => archive
           end) w2
    = performDeletion h
        (match scParameters class !! str "archiveOnDelete" with
         | None => ArchiveTree
         | Some v =>
             match strconv.ParseBool v with
             | (_, Some e) => RejectParameter e
             | (true, None) => ArchiveTree
             | (false, None) => RemoveTree
             end
         end) old arch w2).
  { destruct (scParameters class !! str "archiveOnDelete") as [v|]; [|exact Harch].
    destruct (strconv.ParseBool v) as [[|] [e|]]; cbn [negb];
      [reflexivity|exact Harch|reflexivity|exact Hrem]. }
  destruct (scParameters class !! str "onDelete") as [onDelete|] eqn:Hon; cbn [default].
  - destruct (decide (onDelete = str "delete")) as [->|Hd].
    { rewrite !bool_decide_eq_true_2 by reflexivity.
      rewrite Hrem. clear Harch Hrem Htail.
      destruct (performDeletion _ _ _ _ _) as [[tr r] w3]. reflexivity. }
    rewrite !(bool_decide_eq_false_2 (onDelete = _)) by assumption.
    rewrite (bool_decide_eq_false_2 (Some onDelete = Some (str "delete"))) by congruence.
    destruct (decide (onDelete = str "retain")) as [->|Hr].
    { rewrite !bool_decide_eq_true_2 by reflexivity. reflexivity. }
    rewrite !(bool_decide_eq_false_2 (onDelete = _)) by assumption.
    rewrite (bool_decide_eq_false_2 (Some onDelete = Some (str "retain"))) by congruence.
    rewrite Htail. clear Harch Hrem Htail.
      destruct (performDeletion _ _ _ _ _) as [[tr r] w3]. reflexivity.
  - rewrite !bool_decide_eq_false_2 by discriminate.
    rewrite Htail. clear Harch Hrem Htail.
      destruct (performDeletion _ _ _ _ _) as [[tr r] w3]. reflexivity.
Qed.

(** A directory that is not there: success, with nothing looked up and
    nothing changed. *)
Lemma Delete_absent p vol w r1 w1 :
  hOS h (Stat (localPath p vol)) w = (r1, w1) ->
  IsNotExist r1 = true ->
  run h (Delete p vol) w =
    ([EOS (Stat (localPath p vol)) r1; ELog Warning (MsgPathNotExist (localPath p vol))],
     None, hLog h Warning (MsgPathNotExist (localPath p vol)) w1).
Proof.
  intros Hstat Hex. unfold Delete. cbv zeta.
  rewrite run_bind, run_os, Hstat, Hex. reflexivity.
Qed.

(** A call of [Delete] that returns no error after a change to the file
    system has removed the directory or moved it away as its last call. *)
Lemma Delete_changed p vol w tr w1 :
  run h (Delete p vol) w = (tr, None, w1) ->
  (exists c, mutates c = true /\ EOS c None ∈ tr) ->
  exists w0,
    hOS h (RemoveAll (localPath p vol)) w0 = (None, w1) \/
    hOS h (Rename (localPath p vol) (archivePathOf vol)) w0 = (None, w1).
Proof.
  unfold Delete. cbv zeta. rewrite run_bind, run_os.
  destruct (hOS h (Stat (localPath p vol)) w) as [r1 w'] eqn:Hstat.
  destruct (IsNotExist r1).
  { cbn. intros [= <- <-] (c & Hm & Hin).
    apply elem_of_cons in Hin as [Heq|Hin].
    - injection Heq as -> _. discriminate.
    - apply elem_of_cons in Hin as [Heq|Hin]; [discriminate|].
      apply elem_of_nil in Hin. contradiction. }
  rewrite run_bind. unfold getClassForVolume.
  destruct (client p); cbn [negb]; [|cbn; discriminate].
  destruct (bool_decide (GetPersistentVolumeClass vol = [])); [cbn; discriminate|].
  rewrite run_bind. cbn [getStorageClass run].
  destruct (hLookup h (GetPersistentVolumeClass vol) w') as [[class|err] w2];
    [|cbn; discriminate].
  cbn [run app].
  set (old := localPath p vol). set (arch := archivePathOf vol).
  assert (Hrem : forall tr',
    run h (err ← os (RemoveAll old); Ret (oserr err)) w2 = (tr', None, w1) ->
    hOS h (RemoveAll old) w2 = (None, w1)).
  { intros tr'. rewrite run_bind, run_os.
    destruct (hOS h (RemoveAll old) w2) as [[e|] w3]; cbn; [discriminate|].
    intros [= _ <-]. reflexivity. }
  assert (Harch : forall tr',
    run h (glog Info4 (MsgArchiving old arch);;
           err ← os (Rename old arch); Ret (oserr err)) w2 = (tr', None, w1) ->
    hOS h (Rename old arch) (hLog h Info4 (MsgArchiving old arch) w2) = (None, w1)).
  { intros tr'. rewrite run_bind, run_glog, run_bind, run_os.
    destruct (hOS h (Rename old arch) _) as [[e|] w3]; cbn; [discriminate|].
    intros [= _ <-]. reflexivity. }
  destruct (bool_decide (index_map (scParameters class) (str "onDelete") = str "delete")).
  { match goal with |- context [run h ?m w2] =>
        destruct (run h m w2) as [[tr' r'] w3] eqn:Hrun end.
    intros Heq _. inversion Heq; subst. eexists. left. first [eapply Hrem, Hrun|eapply Hrem; reflexivity]. }
  destruct (bool_decide (index_map (scParameters class) (str "onDelete") = str "retain")).
  { cbn. intros [= <- <-] (c & Hm & Hin).
    apply elem_of_cons in Hin as [Heq|Hin].
    - injection Heq as -> _. discriminate.
    - apply elem_of_cons in Hin as [Heq|Hin]; [discriminate|].
      apply elem_of_nil in Hin. contradiction. }
  destruct (scParameters class !! str "archiveOnDelete") as [v|].
  - destruct (strconv.ParseBool v) as [[|] [e|]]; cbn [negb]; try (cbn; discriminate).
    + match goal with |- context [run h ?m w2] =>
        destruct (run h m w2) as [[tr' r'] w3] eqn:Hrun end.
      intros Heq _. inversion Heq; subst. eexists. right. first [eapply Harch, Hrun|eapply Harch; reflexivity].
    + match goal with |- context [run h ?m w2] =>
        destruct (run h m w2) as [[tr' r'] w3] eqn:Hrun end.
      intros Heq _. inversion Heq; subst. eexists. left. first [eapply Hrem, Hrun|eapply Hrem; reflexivity].
  - match goal with |- context [run h ?m w2] =>
        destruct (run h m w2) as [[tr' r'] w3] eqn:Hrun end.
    intros Heq _. inversion Heq; subst. eexists. right. first [eapply Harch, Hrun|eapply Harch; reflexivity].
Qed.

End RunFacts.

Section ProvisionFacts.
Context {W : Type} (h : handler W).

Lemma replay_app l1 l2 w : replay h (l1 ++ l2) w = replay h l2 (replay h l1 w).
Proof.
  revert w. induction l1 as [|e l1 IH]; intros w; [reflexivity|].
  destruct e; cbn [app replay]; apply IH.
Qed.

(** An id annotation never fails the call: an invalid one leaves a line in
    the log and the default in its place. *)
Lemma run_idOrDefault default_ pvcId msg w :
  run h (idOrDefault default_ pvcId msg) w =
    (idLog pvcId msg, idPolicy default_ pvcId, replay h (idLog pvcId msg) w).
Proof.
  unfold idOrDefault, idLog, idPolicy.
  destruct pvcId as [|c s]; [reflexivity|].
  rewrite bool_decide_eq_true_2 by discriminate.
  pose proof (getIdFromString_refines (c :: s)) as Hr.
  destruct (getIdFromString (c :: s)) as [v [err|]]; cbn [outcome] in Hr; rewrite <- Hr.
  - reflexivity.
  - reflexivity.
Qed.

Lemma mode_resolution default_ pvcMode :
  outcome (if bool_decide (pvcMode <> []) then getModeFromString pvcMode
           else (default_, None)) = modePolicy default_ pvcMode.
Proof.
  unfold modePolicy. destruct pvcMode as [|c s]; [reflexivity|].
  rewrite bool_decide_eq_true_2 by discriminate. apply getModeFromString_refines.
Qed.

(** A mode annotation that is not a valid mode fails the call before any
    call to the file system. *)
Lemma Provision_bad_mode p options w k :
  pvcSelector (optPVC options) = None ->
  modePolicy (defaultMode p) (modeAnnotation options) = inr k ->
  exists err,
    run h (Provision p options) w =
      ([ELog Info4 (MsgVolumeOptions options)],
       (None, ProvisioningFinished,
        Some (ErrInvalidDirectoryMode (modeAnnotation options) err)),
       hLog h Info4 (MsgVolumeOptions options) w).
Proof.
  intros Hsel Hmode. unfold Provision. rewrite Hsel.
  rewrite run_bind, run_glog. cbv zeta.
  destruct (provisionPaths p options) as [path_ fullPath].
  pose proof (mode_resolution (defaultMode p) (modeAnnotation options)) as Hr.
  rewrite Hmode in Hr. fold (modeAnnotation options).
  destruct (if bool_decide (modeAnnotation options <> []) then _ else _) as [mode [err|]];
    [|discriminate].
  exists err. reflexivity.
Qed.

(** With a valid mode the call goes through the three steps, with the
    owner the id annotations select. *)
Lemma Provision_accepted p options w mode :
  pvcSelector (optPVC options) = None ->
  modePolicy (defaultMode p) (modeAnnotation options) = inl mode ->
  run h (Provision p options) w =
    let '(tr, r, w') :=
      performProvision h (provisionPaths p options).2 mode
        (idPolicy (defaultUid p) (uidAnnotation options))
        (idPolicy (defaultGid p) (gidAnnotation options))
        (idLog (uidAnnotation options) MsgInvalidUid
           ++ idLog (gidAnnotation options) MsgInvalidGid)
        (provisionedVolume p options (provisionPaths p options).1)
        (hLog h Info4 (MsgVolumeOptions options) w) in
    (ELog Info4 (MsgVolumeOptions options) :: tr, r, w').
Proof.
  intros Hsel Hmode. unfold Provision. rewrite Hsel.
  rewrite run_bind, run_glog. cbv zeta.
  destruct (provisionPaths p options) as [path_ fullPath]. cbn [fst snd].
  pose proof (mode_resolution (defaultMode p) (modeAnnotation options)) as Hr.
  rewrite Hmode in Hr. fold (modeAnnotation options).
  destruct (if bool_decide (modeAnnotation options <> []) then _ else _) as [mode' [err|]];
    [discriminate|].
  injection Hr as ->.
  fold (uidAnnotation options). fold (gidAnnotation options).
  set (w0 := hLog h Info4 (MsgVolumeOptions options) w).
  unfold performProvision.
  rewrite run_bind, run_glog, run_bind, run_os.
  destruct (hOS h (MkdirAll fullPath mode) _) as [[e1|] w2]; [reflexivity|].
  rewrite run_bind, run_os.
  destruct (hOS h (Chmod fullPath mode) w2) as [[e2|] w3]; [reflexivity|].
  rewrite run_bind, run_idOrDefault, run_bind, run_idOrDefault, run_bind, run_os.
  rewrite replay_app.
  destruct (hOS h (Chown fullPath _ _) _) as [[e3|] w5]; cbn; rewrite <- ?app_assoc; reflexivity.
Qed.

End ProvisionFacts.

(** ** Provision *)

(** C8. A claim with a selector is refused with an UnsupportedSelector
    error and nothing else happens: the call is over at once, whatever the
    parameters and annotations are, with no call to the file system, to the
    cluster or to the log. *)
Theorem provision_rejects_selector p options sel :
  pvcSelector (optPVC options) = Some sel ->
  Provision p options = Ret (None, ProvisioningFinished, Some ErrSelectorNotSupported) /\
  kind ErrSelectorNotSupported = UnsupportedSelector /\
  (forall W (h : handler W) w,
     run h (Provision p options) w
       = ([], (None, ProvisioningFinished, Some ErrSelectorNotSupported), w)).
Proof.
  intros Hsel. unfold Provision. rewrite Hsel. repeat split.
Qed.

Lemma provision_rejects_selector_witness :
  pvcSelector (optPVC options_selector) = Some (mkSelector {[ str "tier" := str "gold" ]}) /\
  Provision provisioner options_selector
    = Ret (None, ProvisioningFinished, Some ErrSelectorNotSupported).
Proof.
  split; [reflexivity|].
  apply (provision_rejects_selector provisioner options_selector
           (mkSelector {[ str "tier" := str "gold" ]})).
  reflexivity.
Defined.

Lemma idPolicy_invalid default_ pvcId msg :
  pvcId <> [] -> id_spec pvcId = inr InvalidParameter ->
  idPolicy default_ pvcId = default_ /\
  exists err, kind err = InvalidParameter /\ idLog pvcId msg = [ELog Error (msg pvcId err)].
Proof.
  intros Hne Hspec. unfold idPolicy, idLog.
  destruct pvcId as [|c s]; [congruence|]. rewrite Hspec. split; [reflexivity|].
  pose proof (getIdFromString_refines (c :: s)) as Hr. rewrite Hspec in Hr.
  destruct (getIdFromString (c :: s)) as [v [err|]]; [|discriminate].
  cbn in Hr. exists err. split; [congruence|reflexivity].
Qed.

Lemma performProvision_error {W} (h : handler W) fullPath mode uid gid idlog pv w e :
  (performProvision h fullPath mode uid gid idlog pv w).1.2.2 = Some e ->
  kind e = IOError /\
  exists c x, mutates c = true /\
    EOS c (Some x) ∈ (performProvision h fullPath mode uid gid idlog pv w).1.1.
Proof.
  unfold performProvision.
  destruct (hOS h (MkdirAll fullPath mode) _) as [[e1|] w2].
  { cbn. intros [= <-]. split; [reflexivity|].
    exists (MkdirAll fullPath mode), e1. split; [reflexivity|]. set_solver. }
  destruct (hOS h (Chmod fullPath mode) w2) as [[e2|] w3].
  { cbn. intros [= <-]. split; [reflexivity|].
    exists (Chmod fullPath mode), e2. split; [reflexivity|]. set_solver. }
  destruct (hOS h (Chown fullPath uid gid) _) as [[e3|] w5]; [|discriminate].
  cbn. intros [= <-]. split; [reflexivity|].
  exists (Chown fullPath uid gid), e3. split; [reflexivity|].
  set_solver.
Qed.

(** C2. A directory-mode annotation that is unparsable or out of range
    fails the call with an InvalidParameter error before any call to the
    file system. With a valid mode the directory is created and its mode
    set, and only then are the uid and gid annotations read: one that is
    unparsable or out of range leaves an error line in the log and the
    default of the process in its place, and the only errors the call can
    then return are those of the file system calls. *)
Theorem provision_parameter_asymmetry {W} (h : handler W) p options w :
  pvcSelector (optPVC options) = None ->
  match modePolicy (defaultMode p) (modeAnnotation options) with
  | inr k =>
      k = InvalidParameter /\
      exists err,
        run h (Provision p options) w =
          ([ELog Info4 (MsgVolumeOptions options)],
           (None, ProvisioningFinished,
            Some (ErrInvalidDirectoryMode (modeAnnotation options) err)),
           hLog h Info4 (MsgVolumeOptions options) w) /\
        kind (ErrInvalidDirectoryMode (modeAnnotation options) err) = InvalidParameter
  | inl mode =>
      run h (Provision p options) w =
        (let '(tr, r, w') :=
           performProvision h (provisionPaths p options).2 mode
             (idPolicy (defaultUid p) (uidAnnotation options))
             (idPolicy (defaultGid p) (gidAnnotation options))
             (idLog (uidAnnotation options) MsgInvalidUid
                ++ idLog (gidAnnotation options) MsgInvalidGid)
             (provisionedVolume p options (provisionPaths p options).1)
             (hLog h Info4 (MsgVolumeOptions options) w) in
         (ELog Info4 (MsgVolumeOptions options) :: tr, r, w')) /\
      (forall e, (run h (Provision p options) w).1.2.2 = Some e ->
                 kind e = IOError /\
                 exists c x, mutates c = true /\
                             EOS c (Some x) ∈ (run h (Provision p options) w).1.1)
  end /\
  (forall default_ pvcId msg,
     pvcId <> [] -> id_spec pvcId = inr InvalidParameter ->
     idPolicy default_ pvcId = default_ /\
     exists err, kind err = InvalidParameter /\
                 idLog pvcId msg = [ELog Error (msg pvcId err)]).
Proof.
  intros Hsel. split; [|apply idPolicy_invalid].
  destruct (modePolicy (defaultMode p) (modeAnnotation options)) as [mode|k] eqn:Hmode.
  - pose proof (Provision_accepted h p options w mode Hsel Hmode) as Hrun.
    split; [exact Hrun|]. rewrite Hrun. intros e.
    pose proof (performProvision_error h (provisionPaths p options).2 mode
      (idPolicy (defaultUid p) (uidAnnotation options))
      (idPolicy (defaultGid p) (gidAnnotation options))
      (idLog (uidAnnotation options) MsgInvalidUid
         ++ idLog (gidAnnotation options) MsgInvalidGid)
      (provisionedVolume p options (provisionPaths p options).1)
      (hLog h Info4 (MsgVolumeOptions options) w) e) as Herr.
    destruct (performProvision _ _ _ _ _ _ _ _) as [[tr r] w'].
    cbn [fst snd] in Herr |- *. intros He.
    destruct (Herr He) as (Hk & c & x & Hm & Hin).
    split; [exact Hk|]. exists c, x. split; [exact Hm|]. right. exact Hin.
  - split.
    + unfold modePolicy in Hmode. destruct (modeAnnotation options); [discriminate|].
      unfold mode_spec in Hmode. repeat case_match; congruence.
    + destruct (Provision_bad_mode h p options w k Hsel Hmode) as [err Hrun].
      exists err. split; [exact Hrun|reflexivity].
Qed.

Lemma provision_parameter_asymmetry_witness :
  pvcSelector (optPVC options_bad_ids) = None /\
  (run cluster (Provision provisioner options_bad_ids) (world_with ∅)).1.2.2 = None /\
  dirs (run cluster (Provision provisioner options_bad_ids) (world_with ∅)).2
    !! str "/persistentvolumes/default-data-pvc-1" = Some (mkInode 448 0 0).
Proof.
  split; [reflexivity|].
  pose proof (provision_parameter_asymmetry cluster provisioner options_bad_ids
                (world_with ∅) eq_refl) as [[Hrun _] _].
  rewrite Hrun. split; vm_compute; reflexivity.
Defined.

(** ** Delete *)

(** C1. For a call of [Delete] on a local path that exists, with the storage
    class found: [onDelete=delete] removes the directory tree;
    [onDelete=retain] leaves it and succeeds; with any other [onDelete], or
    none, [archiveOnDelete] decides: present and false removes the tree,
    present and true or absent renames the directory to
    [archived-<basename>] under the mount root, and a value that is not a
    boolean fails with an InvalidParameter error. *)
Theorem delete_dispatch_precedence {W} (h : handler W) p vol w r1 w1 class w2 :
  hOS h (Stat (localPath p vol)) w = (r1, w1) ->
  IsNotExist r1 = false ->
  client p = true ->
  GetPersistentVolumeClass vol <> [] ->
  hLookup h (GetPersistentVolumeClass vol) w1 = (inl class, w2) ->
  run h (Delete p vol) w =
    (let '(tr, r, w') :=
       performDeletion h (deletionAction (scParameters class))
                       (localPath p vol) (archivePathOf vol) w2 in
     (EOS (Stat (localPath p vol)) r1
        :: ELookup (GetPersistentVolumeClass vol) (inl class) :: tr, r, w')) /\
  (forall e, kind (ErrNum e) = InvalidParameter) /\
  (filepath.Base (nfsPath (pvNFS vol)) <> str "/" ->
   archivePathOf vol =
     mountPath ++ str "/" ++ str "archived-" ++ filepath.Base (nfsPath (pvNFS vol))) /\
  deletionAction {[ str "onDelete" := str "retain"; str "archiveOnDelete" := str "false" ]}
    = LeaveUntouched /\
  deletionAction {[ str "onDelete" := str "delete"; str "archiveOnDelete" := str "true" ]}
    = RemoveTree /\
  deletionAction {[ str "archiveOnDelete" := str "false" ]} = RemoveTree /\
  deletionAction {[ str "onDelete" := str "keep"; str "archiveOnDelete" := str "true" ]}
    = ArchiveTree /\
  deletionAction ∅ = ArchiveTree /\
  deletionAction {[ str "archiveOnDelete" := str "maybe" ]}
    = RejectParameter (strconv.syntaxError (str "ParseBool") (str "maybe")).
Proof.
  intros Hstat Hex Hc Hn Hlook.
  split; [exact (Delete_existing h p vol w r1 w1 class w2 Hstat Hex Hc Hn Hlook)|].
  split; [reflexivity|].
  split; [apply archivePathOf_literal|].
  repeat split; vm_compute; reflexivity.
Qed.

Lemma delete_dispatch_precedence_witness :
  let w := world_with {[ str "onDelete" := str "retain"; str "archiveOnDelete" := str "false" ]} in
  hOS cluster (Stat (localPath provisioner volume_1)) w = (None, w) /\
  IsNotExist None = false /\
  client provisioner = true /\
  GetPersistentVolumeClass volume_1 <> [] /\
  hLookup cluster (GetPersistentVolumeClass volume_1) w
    = (inl (class_with {[ str "onDelete" := str "retain";
                          str "archiveOnDelete" := str "false" ]}), w) /\
  run cluster (Delete provisioner volume_1) w
    = ([EOS (Stat (str "/persistentvolumes/default-data-pvc-1")) None;
        ELookup (str "standard")
          (inl (class_with {[ str "onDelete" := str "retain";
                              str "archiveOnDelete" := str "false" ]}))],
       None, w).
Proof.
  intros w.
  assert (H1 : hOS cluster (Stat (localPath provisioner volume_1)) w = (None, w))
    by (vm_compute; reflexivity).
  assert (H4 : GetPersistentVolumeClass volume_1 <> []) by (vm_compute; discriminate).
  assert (H5 : hLookup cluster (GetPersistentVolumeClass volume_1) w
    = (inl (class_with {[ str "onDelete" := str "retain";
                          str "archiveOnDelete" := str "false" ]}), w))
    by (vm_compute; reflexivity).
  repeat (split; [first [assumption|reflexivity]|]).
  rewrite (proj1 (delete_dispatch_precedence cluster provisioner volume_1 w None w _ w
                    H1 eq_refl eq_refl H4 H5)).
  vm_compute. reflexivity.
Defined.

(** C3, as the document states it, fails in its second half: a first call
    that fails on the storage-class parameters leaves the directory where
    it is, and the second call fails the same way. *)
Lemma delete_twice_counterexample :
  let w := world_with {[ str "archiveOnDelete" := str "maybe" ]} in
  let first := run cluster (Delete provisioner volume_1) w in
  let second := run cluster (Delete provisioner volume_1) first.2 in
  first.2 = w /\
  second.1.2 = Some (ErrNum (strconv.syntaxError (str "ParseBool") (str "maybe"))) /\
  second.1.2 <> None.
Proof.
  cbv zeta. split; [vm_compute; reflexivity|].
  split; [vm_compute; reflexivity|].
  vm_compute. discriminate.
Qed.

(** C3, amended. If the derived local path does not exist, [Delete] returns
    success with no storage-class lookup and no change to the file system.
    Consequently, in a file system where a path that was removed or
    renamed away no longer exists, a second call of [Delete] on the same
    volume does not fail when the first one returned success after
    removing or archiving the directory. *)
Theorem delete_absent_is_success {W} (h : handler W) p vol :
  (forall w r1 w1,
     hOS h (Stat (localPath p vol)) w = (r1, w1) -> IsNotExist r1 = true ->
     run h (Delete p vol) w =
       ([EOS (Stat (localPath p vol)) r1;
         ELog Warning (MsgPathNotExist (localPath p vol))],
        None, hLog h Warning (MsgPathNotExist (localPath p vol)) w1)) /\
  ((forall w w', hOS h (RemoveAll (localPath p vol)) w = (None, w') ->
                 IsNotExist (hOS h (Stat (localPath p vol)) w').1 = true) ->
   (forall w w', hOS h (Rename (localPath p vol) (archivePathOf vol)) w = (None, w') ->
                 IsNotExist (hOS h (Stat (localPath p vol)) w').1 = true) ->
   forall w tr w1,
     run h (Delete p vol) w = (tr, None, w1) ->
     (exists c, mutates c = true /\ EOS c None ∈ tr) ->
     (run h (Delete p vol) w1).1.2 = None).
Proof.
  split; [intros w r1 w1; apply Delete_absent|].
  intros Hrm Hmv w tr w1 Hrun Hchanged.
  destruct (Delete_changed h p vol w tr w1 Hrun Hchanged) as (w0 & [H0|H0]).
  - pose proof (Hrm _ _ H0) as Hgone.
    destruct (hOS h (Stat (localPath p vol)) w1) as [r1 w1'] eqn:Hstat.
    rewrite (Delete_absent h p vol w1 r1 w1' Hstat Hgone). reflexivity.
  - pose proof (Hmv _ _ H0) as Hgone.
    destruct (hOS h (Stat (localPath p vol)) w1) as [r1 w1'] eqn:Hstat.
    rewrite (Delete_absent h p vol w1 r1 w1' Hstat Hgone). reflexivity.
Qed.

Section ClusterFacts.

Lemma within_refl dir : within dir dir = true.
Proof. unfold within. rewrite bool_decide_eq_true_2 by reflexivity. reflexivity. Qed.

Lemma filter_out_gone (d : gmap gostring inode) dir :
  filter (fun kv => within dir kv.1 = false) d !! dir = None.
Proof.
  apply map_lookup_filter_None. right. intros x _. cbn. rewrite within_refl. discriminate.
Qed.

(** In the model a tree that was removed is no longer there. *)
Lemma cluster_RemoveAll_gone name w w' :
  hOS cluster (RemoveAll name) w = (None, w') ->
  IsNotExist (hOS cluster (Stat name) w').1 = true.
Proof.
  cbn. intros [= <-]. cbn. rewrite filter_out_gone. reflexivity.
Qed.

(** Nor is a directory that was renamed to another name. *)
Lemma cluster_Rename_gone oldpath newpath w w' :
  filepath.Clean oldpath <> filepath.Clean newpath ->
  hOS cluster (Rename oldpath newpath) w = (None, w') ->
  IsNotExist (hOS cluster (Stat oldpath) w').1 = true.
Proof.
  intros Hne. cbn.
  destruct (dirs w !! filepath.Clean oldpath); [|discriminate].
  rewrite bool_decide_eq_false_2 by assumption.
  destruct (within _ _); [discriminate|].
  destruct (bool_decide _); [discriminate|].
  intros [= <-]. cbn. rewrite filter_out_gone. reflexivity.
Qed.

End ClusterFacts.

Lemma delete_absent_is_success_witness :
  let first := run cluster (Delete provisioner volume_1) (world_with ∅) in
  first.1.2 = None /\
  (exists c, mutates c = true /\ EOS c None ∈ first.1.1) /\
  (run cluster (Delete provisioner volume_1) first.2).1.2 = None.
Proof.
  cbv zeta.
  destruct (run cluster (Delete provisioner volume_1) (world_with ∅))
    as [[tr r] w1] eqn:Hrun.
  assert (Hr : r = None) by (vm_compute in Hrun; congruence).
  assert (Hc : exists c, mutates c = true /\ EOS c None ∈ tr).
  { exists (Rename (str "/persistentvolumes/default-data-pvc-1")
                   (str "/persistentvolumes/archived-default-data-pvc-1")).
    split; [reflexivity|]. vm_compute in Hrun.
    injection Hrun as <- _ _. set_solver. }
  subst r. cbn [fst snd]. split; [reflexivity|]. split; [exact Hc|].
  apply (proj2 (delete_absent_is_success cluster provisioner volume_1)) with (world_with ∅) tr.
  - intros w w'. apply cluster_RemoveAll_gone.
  - intros w w'. apply cluster_Rename_gone. vm_compute. discriminate.
  - exact Hrun.
  - exact Hc.
Defined.

Section ReplaceFirst.
Import strings.

Lemma Index_empty s : Index s [] = Some 0%nat.
Proof. destruct s; reflexivity. Qed.

(** [Replace] with a limit of one replaces the leftmost instance of [old],
    wherever it stands. *)
Lemma Replace_first s old new :
  Replace s old new 1 =
    match Index s old with
    | None => s
    | Some j => take j s ++ new ++ drop (j + length old) s
    end.
Proof.
  unfold Replace. destruct (decide (old = new)) as [<-|Hne].
  - rewrite bool_decide_eq_true_2 by reflexivity. cbn [orb].
    destruct (Index s old) as [j|] eqn:Hj; [|reflexivity]. apply Index_Some, Hj.
  - rewrite bool_decide_eq_false_2 by assumption. cbn [orb Z.eqb].
    destruct old as [|c old].
    + unfold Count. rewrite Nat.add_1_r. cbn [Nat.eqb].
      rewrite Index_empty.
      replace ((1 <? 0)%Z || (Z.of_nat (S (runeCount (length s) s)) <? 1)%Z) with false
        by (symmetry; apply orb_false_intro; [reflexivity|apply Z.ltb_ge; lia]).
      reflexivity.
    + rewrite (Count_unfold s (c :: old)) by discriminate.
      destruct (Index s (c :: old)) as [j|] eqn:Hj; [|reflexivity].
      cbn [Nat.eqb].
      replace ((1 <? 0)%Z || (Z.of_nat (S (Count (drop (j + length (c :: old)) s) (c :: old))) <? 1)%Z)
        with false
        by (symmetry; apply orb_false_intro; [reflexivity|apply Z.ltb_ge; lia]).
      change (Z.to_nat 1) with 1%nat. cbn [replaceLoop]. rewrite Hj. reflexivity.
Qed.

Lemma Index_prefix p rest : Index (p ++ rest) p = Some 0%nat.
Proof.
  destruct p as [|c p]; [apply Index_empty|].
  cbn [app]. rewrite Index_cons.
  change (c :: p ++ rest) with ((c :: p) ++ rest). rewrite HasPrefix_app. reflexivity.
Qed.

End ReplaceFirst.

(** C9, as the document states it, fails: the export base path is replaced
    where it first occurs in the server-visible path, and that need not be
    in front. *)
Lemma local_path_counterexample :
  localPath provisioner volume_elsewhere = str "/srv/persistentvolumes/default-data-pvc-1" /\
  ~ (exists rest, nfsPath (pvNFS volume_elsewhere) = path provisioner ++ rest /\
                  localPath provisioner volume_elsewhere = mountPath ++ rest).
Proof.
  split; [vm_compute; reflexivity|].
  intros (rest & Hpre & _). vm_compute in Hpre. discriminate.
Qed.

(** C9, amended. The local path is the server-visible path with the
    leftmost occurrence of the export base path replaced by the mount root,
    and the server-visible path itself when the export base path does not
    occur in it. For every volume whose server-visible path begins with the
    export base path, that is the mount root followed by the unchanged
    remainder of the path. *)
Theorem local_path_first_occurrence p vol :
  localPath p vol =
    match strings.Index (nfsPath (pvNFS vol)) (path p) with
    | None => nfsPath (pvNFS vol)
    | Some j => take j (nfsPath (pvNFS vol)) ++ mountPath
                  ++ drop (j + length (path p)) (nfsPath (pvNFS vol))
    end /\
  (forall rest, nfsPath (pvNFS vol) = path p ++ rest -> localPath p vol = mountPath ++ rest).
Proof.
  unfold localPath. split; [apply Replace_first|].
  intros rest ->. rewrite Replace_first, Index_prefix.
  cbn [take Nat.add]. rewrite drop_app_length. reflexivity.
Qed.

Lemma local_path_first_occurrence_witness :
  nfsPath (pvNFS volume_1) = path provisioner ++ str "/default-data-pvc-1" /\
  localPath provisioner volume_1 = mountPath ++ str "/default-data-pvc-1".
Proof.
  split; [reflexivity|].
  apply (proj2 (local_path_first_occurrence provisioner volume_1)). reflexivity.
Defined.

(** ** The paths of a provision call *)

(** C4, as the document states it, fails: both paths are cleaned after the
    suffix is joined on, so a suffix that climbs out of its root gives a
    local path that is not under the mount root, and paths that do not end
    in the suffix; and a suffix with an empty element, as a pattern with an
    absent label in the middle gives, is not the suffix of the paths
    either. *)
Lemma provision_paths_counterexample :
  suffixOf options_absent_label = str "default//data" /\
  provisionPaths provisioner options_absent_label
    = (str "/export/default/data", str "/persistentvolumes/default/data") /\
  suffixOf options_traversal = str "../shared" /\
  provisionPaths provisioner options_traversal = (str "/shared", str "/shared") /\
  provisionPaths provisioner options_traversal
    <> (path provisioner ++ str "/" ++ suffixOf options_traversal,
        mountPath ++ str "/" ++ suffixOf options_traversal) /\
  ~ (exists suffix, (provisionPaths provisioner options_traversal).2 = mountPath ++ suffix).
Proof.
  split; [vm_compute; reflexivity|].
  split; [vm_compute; reflexivity|].
  split; [vm_compute; reflexivity|].
  split; [vm_compute; reflexivity|].
  split; [vm_compute; discriminate|].
  intros (suffix & H). vm_compute in H. discriminate.
Qed.

Lemma Provision_success {W} (h : handler W) p options w tr pv st err w' :
  run h (Provision p options) w = (tr, (Some pv, st, err), w') ->
  nfsPath (pvNFS pv) = (provisionPaths p options).1 /\
  exists mode, EOS (MkdirAll (provisionPaths p options).2 mode) None ∈ tr.
Proof.
  destruct (pvcSelector (optPVC options)) as [sel|] eqn:Hsel.
  { unfold Provision. rewrite Hsel. cbn. discriminate. }
  destruct (modePolicy (defaultMode p) (modeAnnotation options)) as [mode|k] eqn:Hmode.
  - rewrite (Provision_accepted h p options w mode Hsel Hmode).
    unfold performProvision.
    destruct (hOS h (MkdirAll _ mode) _) as [[e1|] w2]; [discriminate|].
    destruct (hOS h (Chmod _ mode) w2) as [[e2|] w3]; [discriminate|].
    destruct (hOS h (Chown _ _ _) _) as [[e3|] w5]; [discriminate|].
    intros Heq. inversion Heq; subst. split; [reflexivity|].
    exists mode. set_solver.
  - destruct (Provision_bad_mode h p options w k Hsel Hmode) as [e ->]. discriminate.
Qed.

(** C4, amended. The local path and the server-visible path of a provision
    call are the mount root and the export base path, each joined with the
    same suffix and cleaned; the suffix is the expanded [pathPattern] when
    the pattern is present and expands to a non-empty string, and the
    default [{namespace}-{claimName}-{generatedVolumeName}] otherwise. When
    the export base path is a rooted path of plain elements and the suffix
    a relative path of plain elements (none empty, [.] or [..]), the two
    paths are the root, a separator and the suffix, character for
    character. These are the path of the directory that is created and the
    path the resulting volume reports. *)
Theorem provision_paths_share_suffix p options :
  provisionPaths p options =
    (filepath.Join [path p; suffixOf options], filepath.Join [mountPath; suffixOf options]) /\
  (plain_rooted (path p) = true -> plain_relative (suffixOf options) = true ->
   provisionPaths p options =
     (path p ++ str "/" ++ suffixOf options, mountPath ++ str "/" ++ suffixOf options)) /\
  (forall W (h : handler W) w tr pv st err w',
     run h (Provision p options) w = (tr, (Some pv, st, err), w') ->
     nfsPath (pvNFS pv) = (provisionPaths p options).1 /\
     exists mode, EOS (MkdirAll (provisionPaths p options).2 mode) None ∈ tr).
Proof.
  split; [apply provisionPaths_Join|].
  split.
  - intros Hp Hs. rewrite provisionPaths_Join.
    rewrite !Join_plain by (assumption || reflexivity). reflexivity.
  - intros W h w tr pv st err w'. apply Provision_success.
Qed.

Lemma provision_paths_share_suffix_witness :
  plain_rooted (path provisioner) = true /\
  plain_relative (suffixOf options_plain) = true /\
  provisionPaths provisioner options_plain =
    (str "/export/default-data-pvc-1", str "/persistentvolumes/default-data-pvc-1").
Proof.
  split; [reflexivity|]. split; [reflexivity|].
  rewrite (proj1 (proj2 (provision_paths_share_suffix provisioner options_plain)))
    by reflexivity.
  reflexivity.
Defined.

(* ------------------------------------------------------------------ *)
(** ** More on Delete *)

Section DeleteRuns.
Context {W : Type} (h : handler W).

(** Every run of [Delete], case by case. *)
Lemma Delete_run p vol w :
  run h (Delete p vol) w =
    let old := localPath p vol in
    let cn := GetPersistentVolumeClass vol in
    let '(r1, w1) := hOS h (Stat old) w in
    if IsNotExist r1 then
      ([EOS (Stat old) r1; ELog Warning (MsgPathNotExist old)], None,
       hLog h Warning (MsgPathNotExist old) w1)
    else if negb (client p) then ([EOS (Stat old) r1], Some ErrCannotGetKubeClient, w1)
    else if bool_decide (cn = []) then
      ([EOS (Stat old) r1], Some ErrVolumeHasNoStorageClass, w1)
    else
      let '(r2, w2) := hLookup h cn w1 in
      match r2 with
      | inr err => ([EOS (Stat old) r1; ELookup cn (inr err)], Some (ErrAPI err), w2)
      | inl class =>
          let '(tr, r, w') :=
            performDeletion h (deletionAction (scParameters class)) old
                            (archivePathOf vol) w2 in
          (EOS (Stat old) r1 :: ELookup cn (inl class) :: tr, r, w')
      end.
Proof.
  cbv zeta.
  destruct (hOS h (Stat (localPath p vol)) w) as [r1 w1] eqn:Hstat.
  destruct (IsNotExist r1) eqn:Hex.
  { apply Delete_absent; assumption. }
  destruct (client p) eqn:Hc; cbn [negb].
  2:{ unfold Delete. cbv zeta. rewrite run_bind, run_os, Hstat, Hex.
      unfold getClassForVolume. rewrite Hc. reflexivity. }
  destruct (bool_decide (GetPersistentVolumeClass vol = [])) eqn:Hn.
  { unfold Delete. cbv zeta. rewrite run_bind, run_os, Hstat, Hex.
    unfold getClassForVolume. rewrite Hc, Hn. reflexivity. }
  apply bool_decide_eq_false in Hn.
  destruct (hLookup h (GetPersistentVolumeClass vol) w1) as [[class|err] w2] eqn:Hl.
  - exact (Delete_existing h p vol w r1 w1 class w2 Hstat Hex Hc Hn Hl).
  - unfold Delete. cbv zeta. rewrite run_bind, run_os, Hstat, Hex.
    rewrite run_bind, run_getClassForVolume, Hl by assumption. reflexivity.
Qed.

End DeleteRuns.

(** X1. When the directory exists but the storage class cannot be obtained
    (no client, a volume that names no class, or a failed lookup), [Delete]
    returns a ClassLookupError and changes nothing in the file system: its
    only call there is the [Stat]. *)
Theorem delete_lookup_failure_is_fatal {W} (h : handler W) p vol w :
  IsNotExist (hOS h (Stat (localPath p vol)) w).1 = false ->
  (client p = false \/ GetPersistentVolumeClass vol = [] \/
   exists err, (hLookup h (GetPersistentVolumeClass vol)
                  (hOS h (Stat (localPath p vol)) w).2).1 = inr err) ->
  (exists e, (run h (Delete p vol) w).1.2 = Some e /\ kind e = ClassLookupError) /\
  oscalls (run h (Delete p vol) w).1.1 = [Stat (localPath p vol)].
Proof.
  intros Hex Hfail. rewrite Delete_run. cbv zeta.
  destruct (hOS h (Stat (localPath p vol)) w) as [r1 w1]. cbn [fst snd] in Hex, Hfail.
  rewrite Hex.
  destruct (client p); cbn [negb].
  2:{ cbn. eauto. }
  destruct (bool_decide (GetPersistentVolumeClass vol = [])) eqn:Hn.
  { cbn. eauto. }
  apply bool_decide_eq_false in Hn.
  destruct Hfail as [Hf|[Hf|[err Hf]]]; [discriminate|contradiction|].
  destruct (hLookup h (GetPersistentVolumeClass vol) w1) as [r2 w2].
  cbn [fst] in Hf. subst r2. cbn. eauto.
Qed.

Lemma delete_lookup_failure_is_fatal_witness :
  IsNotExist (hOS cluster (Stat (localPath provisioner volume_1))
                world_without_class).1 = false /\
  (run cluster (Delete provisioner volume_1) world_without_class).1.2
    = Some (ErrAPI NotFound) /\
  oscalls (run cluster (Delete provisioner volume_1) world_without_class).1.1
    = [Stat (localPath provisioner volume_1)].
Proof.
  set (w := world_without_class).
  assert (Hex : IsNotExist (hOS cluster (Stat (localPath provisioner volume_1)) w).1 = false)
    by (vm_compute; reflexivity).
  assert (Hfail : client provisioner = false \/ GetPersistentVolumeClass volume_1 = [] \/
            exists err, (hLookup cluster (GetPersistentVolumeClass volume_1)
                           (hOS cluster (Stat (localPath provisioner volume_1)) w).2).1
                        = inr err)
    by (right; right; exists NotFound; vm_compute; reflexivity).
  split; [exact Hex|].
  split; [vm_compute; reflexivity|].
  exact (proj2 (delete_lookup_failure_is_fatal cluster provisioner volume_1 w Hex Hfail)).
Defined.

(** X2. Whatever the outside answers, a run of [Delete] begins with the
    [Stat] of the local path, asks for at most one storage class, and
    changes the file system at most once and as its last call: by removing
    the local path or by renaming it to the archive path. It touches no
    other path. *)
Theorem delete_footprint {W} (h : handler W) p vol w :
  let tr := (run h (Delete p vol) w).1.1 in
  (lookups tr = [] \/ lookups tr = [GetPersistentVolumeClass vol]) /\
  (oscalls tr = [Stat (localPath p vol)]
   \/ oscalls tr = [Stat (localPath p vol); RemoveAll (localPath p vol)]
   \/ oscalls tr = [Stat (localPath p vol);
                    Rename (localPath p vol) (archivePathOf vol)]) /\
  (forall c r, mutates c = true -> EOS c r ∈ tr -> last tr = Some (EOS c r)).
Proof.
  cbv zeta. rewrite Delete_run. cbv zeta.
  destruct (hOS h (Stat (localPath p vol)) w) as [r1 w1].
  destruct (IsNotExist r1).
  { cbn. repeat split; auto. intros c r Hm Hin.
    apply elem_of_cons in Hin as [Heq|Hin]; [injection Heq as -> _; discriminate|].
    apply elem_of_cons in Hin as [Heq|Hin]; [discriminate|].
    apply elem_of_nil in Hin. contradiction. }
  assert (Hstat : forall c r, mutates c = true ->
            EOS c r ∈ [EOS (Stat (localPath p vol)) r1] -> False).
  { intros c r Hm Hin.
    apply elem_of_cons in Hin as [Heq|Hin]; [injection Heq as -> _; discriminate|].
    apply elem_of_nil in Hin. contradiction. }
  destruct (client p); cbn [negb].
  2:{ cbn. repeat split; auto. intros c r Hm Hin. destruct (Hstat c r Hm Hin). }
  destruct (bool_decide (GetPersistentVolumeClass vol = [])).
  { cbn. repeat split; auto. intros c r Hm Hin. destruct (Hstat c r Hm Hin). }
  destruct (hLookup h (GetPersistentVolumeClass vol) w1) as [[class|err] w2].
  2:{ cbn. repeat split; auto. intros c r Hm Hin.
      apply elem_of_cons in Hin as [Heq|Hin]; [injection Heq as -> _; discriminate|].
      apply elem_of_cons in Hin as [Heq|Hin]; [discriminate|].
      apply elem_of_nil in Hin. contradiction. }
  destruct (deletionAction (scParameters class)); cbn [performDeletion].
  - destruct (hOS h (RemoveAll _) w2) as [e w3]. cbn. repeat split; auto.
    intros c r Hm Hin.
    apply elem_of_cons in Hin as [Heq|Hin]; [injection Heq as -> _; discriminate|].
    apply elem_of_cons in Hin as [Heq|Hin]; [discriminate|].
    apply elem_of_cons in Hin as [Heq|Hin]; [rewrite Heq; reflexivity|].
    apply elem_of_nil in Hin. contradiction.
  - cbn. repeat split; auto. intros c r Hm Hin.
    apply elem_of_cons in Hin as [Heq|Hin]; [injection Heq as -> _; discriminate|].
    apply elem_of_cons in Hin as [Heq|Hin]; [discriminate|].
    apply elem_of_nil in Hin. contradiction.
  - destruct (hOS h (Rename _ _) _) as [e w3]. cbn. repeat split; auto.
    intros c r Hm Hin.
    apply elem_of_cons in Hin as [Heq|Hin]; [injection Heq as -> _; discriminate|].
    apply elem_of_cons in Hin as [Heq|Hin]; [discriminate|].
    apply elem_of_cons in Hin as [Heq|Hin]; [discriminate|].
    apply elem_of_cons in Hin as [Heq|Hin]; [rewrite Heq; reflexivity|].
    apply elem_of_nil in Hin. contradiction.
  - cbn. repeat split; auto. intros c r Hm Hin.
    apply elem_of_cons in Hin as [Heq|Hin]; [injection Heq as -> _; discriminate|].
    apply elem_of_cons in Hin as [Heq|Hin]; [discriminate|].
    apply elem_of_nil in Hin. contradiction.
Qed.

(** ** More on Provision *)

Section ProvisionRuns.
Context {W : Type} (h : handler W).

Lemma oscalls_app l1 l2 : oscalls (l1 ++ l2) = oscalls l1 ++ oscalls l2.
Proof. apply omap_app. Qed.

Lemma lookups_app l1 l2 : lookups (l1 ++ l2) = lookups l1 ++ lookups l2.
Proof. apply omap_app. Qed.

Lemma failures_app l1 l2 : failures (l1 ++ l2) = failures l1 ++ failures l2.
Proof. apply omap_app. Qed.

(** The log lines of an id annotation are log lines. *)
Lemma idLog_only_log pvcId msg :
  oscalls (idLog pvcId msg) = [] /\ lookups (idLog pvcId msg) = [] /\
  failures (idLog pvcId msg) = [] /\
  (forall c x, EOS c x ∉ idLog pvcId msg).
Proof.
  unfold idLog. destruct pvcId as [|ch s].
  { repeat split. intros c x. apply not_elem_of_nil. }
  destruct (getIdFromString (ch :: s)) as [v [err|]].
  - repeat split. intros c x Hin.
    apply elem_of_cons in Hin as [Heq|Hin]; [discriminate|].
    apply elem_of_nil in Hin. contradiction.
  - repeat split. intros c x. apply not_elem_of_nil.
Qed.

(** The calls of an accepted request: the three steps in order, on one
    path, up to the first that fails. *)
Lemma performProvision_calls fullPath mode uid gid l1 l2 m1 m2 pv w :
  let run_ := performProvision h fullPath mode uid gid
                (idLog l1 m1 ++ idLog l2 m2) pv w in
  lookups run_.1.1 = [] /\
  (match run_.1.2.1.1 with
   | Some pv' =>
       pv' = pv /\ run_.1.2.1.2 = ProvisioningFinished /\ run_.1.2.2 = None /\
       failures run_.1.1 = [] /\
       oscalls run_.1.1 = [MkdirAll fullPath mode; Chmod fullPath mode;
                           Chown fullPath uid gid]
   | None =>
       exists c e, run_.1.2.2 = Some e /\ kind e = IOError /\
                   failures run_.1.1 = [c] /\
                   exists rest, [MkdirAll fullPath mode; Chmod fullPath mode;
                                 Chown fullPath uid gid] = oscalls run_.1.1 ++ rest
                                /\ last (oscalls run_.1.1) = Some c
   end).
Proof.
  cbv zeta. unfold performProvision.
  destruct (idLog_only_log l1 m1) as (Ho1 & Hl1 & Hf1 & _).
  destruct (idLog_only_log l2 m2) as (Ho2 & Hl2 & Hf2 & _).
  destruct (hOS h (MkdirAll fullPath mode) _) as [[e1|] w2].
  { cbn. split; [reflexivity|].
    exists (MkdirAll fullPath mode), (ErrUnableToCreateDirectory e1).
    repeat split. eexists. split; reflexivity. }
  destruct (hOS h (Chmod fullPath mode) w2) as [[e2|] w3].
  { cbn. split; [reflexivity|].
    exists (Chmod fullPath mode), (ErrOS e2).
    repeat split. eexists. split; reflexivity. }
  destruct (hOS h (Chown fullPath uid gid) _) as [[e3|] w5]; cbn [fst snd].
  - rewrite !lookups_app, !oscalls_app, !failures_app, Ho1, Ho2, Hl1, Hl2, Hf1, Hf2.
    cbn. split; [reflexivity|].
    exists (Chown fullPath uid gid), (ErrOS e3).
    repeat split. exists []. split; reflexivity.
  - rewrite !lookups_app, !oscalls_app, !failures_app, Ho1, Ho2, Hl1, Hl2, Hf1, Hf2.
    cbn. repeat split.
Qed.

Lemma modePolicy_ok default_ pvcMode mode :
  mode_ok default_ -> modePolicy default_ pvcMode = inl mode -> mode_ok mode.
Proof.
  intros Hd. unfold modePolicy, mode_spec.
  destruct pvcMode as [|c s]; [congruence|].
  destruct (numeral 8 (c :: s)) as [v|]; [|discriminate].
  destruct ((0 <=? v)%Z && (v <=? 511)%Z) eqn:Hv; [|discriminate].
  intros [= <-]. unfold mode_ok. lia.
Qed.

Lemma idPolicy_ok default_ pvcId : id_ok default_ -> id_ok (idPolicy default_ pvcId).
Proof.
  intros Hd. unfold idPolicy, id_spec.
  destruct pvcId as [|c s]; [assumption|].
  destruct (numeral 10 (c :: s)) as [v|]; [|assumption].
  destruct ((0 <=? v)%Z && (v <=? 65535)%Z) eqn:Hv; [|assumption].
  unfold id_ok. lia.
Qed.

End ProvisionRuns.

(** X3. Whatever the claim and whatever the outside answers, [Provision]
    never asks the cluster for anything and never removes or renames a
    path: its calls to the file system are [MkdirAll], [Chmod] and [Chown]
    in this order, all on the local path and with one mode, up to the first
    one that fails. Nothing is undone after a failure. *)
Theorem provision_footprint {W} (h : handler W) p options w :
  let tr := (run h (Provision p options) w).1.1 in
  let fullPath := (provisionPaths p options).2 in
  lookups tr = [] /\
  (exists mode uid gid rest,
     [MkdirAll fullPath mode; Chmod fullPath mode; Chown fullPath uid gid]
       = oscalls tr ++ rest) /\
  (failures tr = [] \/ exists c, failures tr = [c] /\ last (oscalls tr) = Some c).
Proof.
  cbv zeta.
  destruct (pvcSelector (optPVC options)) as [sel|] eqn:Hsel.
  { unfold Provision. rewrite Hsel. cbn. split; [reflexivity|].
    split; [|auto]. exists 0%Z, 0%Z, 0%Z. eexists. reflexivity. }
  destruct (modePolicy (defaultMode p) (modeAnnotation options)) as [mode|k] eqn:Hmode.
  - rewrite (Provision_accepted h p options w mode Hsel Hmode).
    pose proof (performProvision_calls h (provisionPaths p options).2 mode
      (idPolicy (defaultUid p) (uidAnnotation options))
      (idPolicy (defaultGid p) (gidAnnotation options))
      (uidAnnotation options) (gidAnnotation options) MsgInvalidUid MsgInvalidGid
      (provisionedVolume p options (provisionPaths p options).1)
      (hLog h Info4 (MsgVolumeOptions options) w)) as Hcalls.
    cbv zeta in Hcalls.
    destruct (performProvision _ _ _ _ _ _ _ _) as [[tr [[pv st] err]] w'].
    cbn [fst snd] in Hcalls |- *. destruct Hcalls as [Hl Hres].
    change (lookups (ELog Info4 (MsgVolumeOptions options) :: tr)) with (lookups tr).
    change (oscalls (ELog Info4 (MsgVolumeOptions options) :: tr)) with (oscalls tr).
    change (failures (ELog Info4 (MsgVolumeOptions options) :: tr)) with (failures tr).
    split; [exact Hl|].
    destruct pv as [pv|].
    + destruct Hres as (_ & _ & _ & Hf & Ho). split; [|auto].
      eexists _, _, _, []. rewrite Ho, app_nil_r. reflexivity.
    + destruct Hres as (c & e & _ & _ & Hf & rest & Hrest & Hlast). split.
      * eexists _, _, _, rest. exact Hrest.
      * right. exists c. auto.
  - destruct (Provision_bad_mode h p options w k Hsel Hmode) as [err ->].
    cbn. split; [reflexivity|]. split; [|auto].
    exists 0%Z, 0%Z, 0%Z. eexists. reflexivity.
Qed.

(** X4. With a provisioner whose default mode is at most 0777 and whose
    default uid and gid are at most 65535, every mode [Provision] passes to
    [MkdirAll] and [Chmod] lies in [0, 0777] and every uid and gid it
    passes to [Chown] lies in [0, 65535], whatever the annotations of the
    claim are. *)
Theorem provision_arguments_in_bounds {W} (h : handler W) p options w :
  mode_ok (defaultMode p) -> id_ok (defaultUid p) -> id_ok (defaultGid p) ->
  Forall call_ok (oscalls (run h (Provision p options) w).1.1).
Proof.
  intros Hm Hu Hg.
  destruct (pvcSelector (optPVC options)) as [sel|] eqn:Hsel.
  { unfold Provision. rewrite Hsel. constructor. }
  destruct (modePolicy (defaultMode p) (modeAnnotation options)) as [mode|k] eqn:Hmode.
  - pose proof (modePolicy_ok _ _ _ Hm Hmode) as Hmode_ok.
    pose proof (idPolicy_ok (defaultUid p) (uidAnnotation options) Hu) as Huid.
    pose proof (idPolicy_ok (defaultGid p) (gidAnnotation options) Hg) as Hgid.
    rewrite (Provision_accepted h p options w mode Hsel Hmode).
    pose proof (performProvision_calls h (provisionPaths p options).2 mode
      (idPolicy (defaultUid p) (uidAnnotation options))
      (idPolicy (defaultGid p) (gidAnnotation options))
      (uidAnnotation options) (gidAnnotation options) MsgInvalidUid MsgInvalidGid
      (provisionedVolume p options (provisionPaths p options).1)
      (hLog h Info4 (MsgVolumeOptions options) w)) as Hcalls.
    cbv zeta in Hcalls.
    destruct (performProvision _ _ _ _ _ _ _ _) as [[tr [[pv st] err]] w'].
    cbn [fst snd] in Hcalls |- *. destruct Hcalls as [_ Hres].
    change (oscalls (ELog Info4 (MsgVolumeOptions options) :: tr)) with (oscalls tr).
    assert (Hall : Forall call_ok
              [MkdirAll (provisionPaths p options).2 mode;
               Chmod (provisionPaths p options).2 mode;
               Chown (provisionPaths p options).2
                     (idPolicy (defaultUid p) (uidAnnotation options))
                     (idPolicy (defaultGid p) (gidAnnotation options))]).
    { apply Forall_cons_2; [exact Hmode_ok|].
      apply Forall_cons_2; [exact Hmode_ok|].
      apply Forall_cons_2; [split; assumption|]. apply Forall_nil_2. }
    destruct pv as [pv|].
    + destruct Hres as (_ & _ & _ & _ & ->). exact Hall.
    + destruct Hres as (c & e & _ & _ & _ & rest & Hrest & _).
      rewrite Hrest in Hall. apply Forall_app in Hall as [Hall _]. exact Hall.
  - destruct (Provision_bad_mode h p options w k Hsel Hmode) as [err ->]. constructor.
Qed.

Lemma provision_arguments_in_bounds_witness :
  mode_ok (defaultMode provisioner) /\ id_ok (defaultUid provisioner) /\
  id_ok (defaultGid provisioner) /\
  Forall call_ok (oscalls (run cluster (Provision provisioner options_bad_ids)
                             (world_with ∅)).1.1).
Proof.
  assert (Hm : mode_ok (defaultMode provisioner)) by (vm_compute; split; discriminate).
  assert (Hu : id_ok (defaultUid provisioner)) by (vm_compute; split; discriminate).
  assert (Hg : id_ok (defaultGid provisioner)) by (vm_compute; split; discriminate).
  repeat (split; [assumption|]).
  exact (provision_arguments_in_bounds cluster provisioner options_bad_ids
           (world_with ∅) Hm Hu Hg).
Defined.

(** X5. For a storage class that carries its reclaim policy, [Provision]
    returns a volume exactly when it returns no error, and then all three
    calls to the file system were made and succeeded, the state is
    [Finished] and the volume carries the requested name, the server, the
    server path, the reclaim policy and mount options of the class and the
    access modes and requested capacity of the claim. When it returns no
    volume it returns an error, which is never a ClassLookupError. *)
Theorem provision_result {W} (h : handler W) p options w :
  let r := run h (Provision p options) w in
  match r.1.2.1.1 with
  | Some pv =>
      r.1.2.2 = None /\ r.1.2.1.2 = ProvisioningFinished /\
      pv = provisionedVolume p options (provisionPaths p options).1 /\
      failures r.1.1 = [] /\
      exists mode uid gid,
        oscalls r.1.1 = [MkdirAll (provisionPaths p options).2 mode;
                         Chmod (provisionPaths p options).2 mode;
                         Chown (provisionPaths p options).2 uid gid]
  | None => exists e, r.1.2.2 = Some e /\ kind e <> ClassLookupError
  end.
Proof.
  cbv zeta.
  destruct (pvcSelector (optPVC options)) as [sel|] eqn:Hsel.
  { unfold Provision. rewrite Hsel. cbn. eexists. split; [reflexivity|discriminate]. }
  destruct (modePolicy (defaultMode p) (modeAnnotation options)) as [mode|k] eqn:Hmode.
  - rewrite (Provision_accepted h p options w mode Hsel Hmode).
    pose proof (performProvision_calls h (provisionPaths p options).2 mode
      (idPolicy (defaultUid p) (uidAnnotation options))
      (idPolicy (defaultGid p) (gidAnnotation options))
      (uidAnnotation options) (gidAnnotation options) MsgInvalidUid MsgInvalidGid
      (provisionedVolume p options (provisionPaths p options).1)
      (hLog h Info4 (MsgVolumeOptions options) w)) as Hcalls.
    cbv zeta in Hcalls.
    destruct (performProvision _ _ _ _ _ _ _ _) as [[tr [[pv st] err]] w'].
    cbn [fst snd] in Hcalls |- *. destruct Hcalls as [_ Hres].
    change (oscalls (ELog Info4 (MsgVolumeOptions options) :: tr)) with (oscalls tr).
    change (failures (ELog Info4 (MsgVolumeOptions options) :: tr)) with (failures tr).
    destruct pv as [pv|].
    + destruct Hres as (-> & -> & -> & Hf & Ho). repeat split; [exact Hf|]. eauto.
    + destruct Hres as (c & e & -> & Hk & _). exists e. split; [reflexivity|].
      rewrite Hk. discriminate.
  - destruct (Provision_bad_mode h p options w k Hsel Hmode) as [err ->].
    cbn. eexists. split; [reflexivity|discriminate].
Qed.

(** ** More on the paths *)

Section CleanFacts.
Import filepath.

Lemma cleanStep_skipped rooted out e : skippedb e = true -> cleanStep rooted out e = out.
Proof.
  unfold skippedb, cleanStep. intros [H|H]%orb_true_iff.
  - rewrite H. reflexivity.
  - destruct (bool_decide (e = [])); [reflexivity|]. rewrite H. reflexivity.
Qed.

Lemma fold_cleanStep_kept rooted es : forall out,
  forallb keptb es = true ->
  fold_left (cleanStep rooted) es out = rev (filter normalb es) ++ out.
Proof.
  induction es as [|e es IH]; intros out; [reflexivity|].
  cbn [forallb fold_left]. intros [He Hes]%andb_true_iff.
  rewrite filter_cons. destruct (decide (normalb e)) as [Hn|Hn].
  - apply Is_true_true in Hn. rewrite cleanStep_normal, IH by assumption.
    cbn [rev]. rewrite <- app_assoc. reflexivity.
  - apply Is_true_false in Hn. unfold keptb in He. rewrite Hn in He. cbn [orb] in He.
    rewrite cleanStep_skipped, IH by assumption. reflexivity.
Qed.

(** An element is empty, [.], [..] or plain. *)
Lemma element_kinds e : "/"%char ∉ e -> e <> str ".." -> keptb e = true.
Proof.
  intros Hs Hd. unfold keptb, normalb, skippedb.
  rewrite (bool_decide_eq_false_2 (e = str "..")) by assumption.
  rewrite (bool_decide_eq_false_2 ("/"%char ∈ e)) by assumption.
  destruct (bool_decide (e = [])); [reflexivity|].
  destruct (bool_decide (e = str ".")); reflexivity.
Qed.

Lemma no_dotdot_kept s : no_dotdot s = true -> forallb keptb (elements s) = true.
Proof.
  unfold no_dotdot. intros H. apply forallb_forall. intros e He.
  rewrite forallb_forall in H. specialize (H e He).
  apply negb_true_iff, bool_decide_eq_false in H.
  apply element_kinds; [|assumption].
  pose proof (elements_Forall_no_slash s) as HF. rewrite Forall_forall in HF.
  apply HF, list_elem_of_In, He.
Qed.

Lemma normal_kept es : forallb normalb es = true -> forallb keptb es = true.
Proof.
  intros H. apply forallb_forall. intros e He. rewrite forallb_forall in H.
  unfold keptb. rewrite (H e He). reflexivity.
Qed.

Lemma filter_normal_all es : forallb normalb es = true -> filter normalb es = es.
Proof.
  induction es as [|e es IH]; [reflexivity|]. cbn [forallb].
  intros [He Hes]%andb_true_iff. rewrite filter_cons.
  rewrite decide_True by (apply Is_true_true; exact He). rewrite IH by assumption.
  reflexivity.
Qed.

(** Cleaning a rooted path without [..] elements keeps its plain elements
    and nothing else. *)
Lemma Clean_rooted_kept s :
  forallb keptb (elements s) = true ->
  Clean ("/"%char :: s) = str "/" ++ strings.Join (filter normalb (elements s)) (str "/").
Proof.
  intros Hs. unfold Clean. cbn [Ascii.eqb Bool.eqb elements fold_left].
  change (cleanStep true [] []) with (@nil gostring).
  rewrite fold_cleanStep_kept by assumption.
  rewrite app_nil_r, rev_involutive. reflexivity.
Qed.

Lemma Join_two base suffix :
  base <> [] -> Join [base; suffix] = Clean (base ++ "/"%char :: suffix).
Proof.
  intros Hb. destruct base as [|c b]; [congruence|].
  cbn [Join]. rewrite bool_decide_eq_false_2 by discriminate. reflexivity.
Qed.

Lemma Join_root_tail base suffix :
  plain_rooted base = true -> no_dotdot suffix = true ->
  Join [base; suffix] = base ++ tailOf suffix.
Proof.
  intros Hb Hs. destruct base as [|c b]; [discriminate|].
  cbn [plain_rooted] in Hb. apply andb_true_iff in Hb as [Hc Hb].
  apply Ascii.eqb_eq in Hc as ->. unfold plain_relative in Hb.
  cbn [Join]. rewrite bool_decide_eq_false_2 by discriminate.
  cbn [strings.Join].
  change (("/"%char :: b) ++ str "/" ++ suffix) with ("/"%char :: (b ++ "/"%char :: suffix)).
  rewrite Clean_rooted_kept.
  2:{ rewrite elements_app, forallb_app, (normal_kept _ Hb), (no_dotdot_kept _ Hs).
      reflexivity. }
  rewrite elements_app, filter_app, (filter_normal_all _ Hb).
  unfold tailOf. destruct (filter normalb (elements suffix)) as [|e es] eqn:Hf.
  - rewrite !app_nil_r, Join_elements. reflexivity.
  - rewrite Join_app by (first [apply elements_nonempty|discriminate]).
    rewrite Join_elements. reflexivity.
Qed.

Lemma within_tail base suffix : within base (base ++ tailOf suffix) = true.
Proof.
  unfold within, tailOf. destruct (filter normalb (elements suffix)) as [|e es].
  - rewrite app_nil_r, bool_decide_eq_true_2 by reflexivity. reflexivity.
  - rewrite app_assoc, HasPrefix_app. apply orb_true_r.
Qed.

End CleanFacts.

(** X6. When the expanded suffix has no [..] element, the directory
    [Provision] creates is the mount root or lies beneath it; and when the
    export base path is moreover a rooted path of plain elements, the
    server path is the export base path or lies beneath it, and the two
    paths continue their roots by the same tail. *)
Theorem provision_paths_contained p options :
  no_dotdot (suffixOf options) = true ->
  (provisionPaths p options).2 = mountPath ++ tailOf (suffixOf options) /\
  within mountPath (provisionPaths p options).2 = true /\
  (plain_rooted (path p) = true ->
   (provisionPaths p options).1 = path p ++ tailOf (suffixOf options) /\
   within (path p) (provisionPaths p options).1 = true).
Proof.
  intros Hs. rewrite provisionPaths_Join. cbn [fst snd].
  rewrite (Join_root_tail mountPath) by (reflexivity || assumption).
  split; [reflexivity|]. split; [apply within_tail|].
  intros Hp. rewrite (Join_root_tail (path p)) by assumption.
  split; [reflexivity|apply within_tail].
Qed.

Lemma provision_paths_contained_witness :
  no_dotdot (suffixOf options_absent_label) = true /\
  (provisionPaths provisioner options_absent_label).2
    = mountPath ++ tailOf (suffixOf options_absent_label) /\
  tailOf (suffixOf options_absent_label) = str "/default/data".
Proof.
  split; [reflexivity|]. split; [|reflexivity].
  exact (proj1 (provision_paths_contained provisioner options_absent_label eq_refl)).
Defined.

(** X7. Round trip. When the export base path is a rooted path of plain
    elements and the expanded suffix has no [..] element, the local path
    [Delete] derives from the volume [Provision] returns is the directory
    [Provision] created. *)
Theorem delete_finds_provisioned_directory p options :
  plain_rooted (path p) = true -> no_dotdot (suffixOf options) = true ->
  localPath p (provisionedVolume p options (provisionPaths p options).1)
    = (provisionPaths p options).2 /\
  (forall W (h : handler W) w tr pv st err w',
     run h (Provision p options) w = (tr, (Some pv, st, err), w') ->
     exists mode, EOS (MkdirAll (localPath p pv) mode) None ∈ tr).
Proof.
  intros Hp Hs.
  assert (Heq : forall pv, nfsPath (pvNFS pv) = (provisionPaths p options).1 ->
                  localPath p pv = (provisionPaths p options).2).
  { intros pv Hpv. unfold localPath. rewrite Hpv, provisionPaths_Join. cbn [fst snd].
    rewrite (Join_root_tail (path p)), (Join_root_tail mountPath)
      by (reflexivity || assumption).
    rewrite Replace_first, Index_prefix. cbn [take Nat.add].
    rewrite drop_app_length. reflexivity. }
  split; [apply Heq; reflexivity|].
  intros W h w tr pv st err w' Hrun.
  destruct (Provision_success h p options w tr pv st err w' Hrun) as (Hpath & mode & Hin).
  exists mode. rewrite (Heq pv Hpath). exact Hin.
Qed.

Lemma delete_finds_provisioned_directory_witness :
  plain_rooted (path provisioner) = true /\
  no_dotdot (suffixOf options_gold) = true /\
  localPath provisioner
    (provisionedVolume provisioner options_gold (provisionPaths provisioner options_gold).1)
    = str "/persistentvolumes/gold/data".
Proof.
  split; [reflexivity|]. split; [reflexivity|].
  rewrite (proj1 (delete_finds_provisioned_directory provisioner options_gold
                    eq_refl eq_refl)).
  vm_compute. reflexivity.
Defined.

Lemma app_neq_cons {A} (l : list A) x : l <> x :: l.
Proof.
  intros H. apply (f_equal length) in H. cbn in H. lia.
Qed.

(** X8. When the export base path ends in a separator (a rooted path of
    plain elements followed by [/], or [/] alone), the round trip is
    broken: for every claim whose suffix has a plain element and no [..],
    [Provision] creates the mount root, a separator and the cleaned
    suffix, but [Delete] derives for the returned volume the mount root
    and the cleaned suffix with no separator between them. *)
Theorem trailing_separator_breaks_round_trip p options base :
  path p = base ++ str "/" ->
  base = [] \/ plain_rooted base = true ->
  no_dotdot (suffixOf options) = true ->
  tailOf (suffixOf options) <> [] ->
  exists t,
    tailOf (suffixOf options) = str "/" ++ t /\
    (provisionPaths p options).1 = path p ++ t /\
    (provisionPaths p options).2 = mountPath ++ str "/" ++ t /\
    localPath p (provisionedVolume p options (provisionPaths p options).1)
      = mountPath ++ t /\
    localPath p (provisionedVolume p options (provisionPaths p options).1)
      <> (provisionPaths p options).2.
Proof.
  intros Hpath Hbase Hs Htail.
  assert (Ht : exists t, tailOf (suffixOf options) = str "/" ++ t).
  { unfold tailOf in Htail |- *.
    destruct (filter normalb (filepath.elements (suffixOf options))); [congruence|].
    eexists. reflexivity. }
  destruct Ht as [t Ht]. exists t. split; [exact Ht|].
  assert (H1 : (provisionPaths p options).1 = path p ++ t).
  { rewrite provisionPaths_Join. cbn [fst]. rewrite Hpath.
    rewrite Join_two by (destruct base; discriminate).
    unfold tailOf in Ht.
    destruct (filter normalb (filepath.elements (suffixOf options))) as [|e es] eqn:Hf;
      [discriminate|].
    apply app_inv_head in Ht.
    destruct Hbase as [->|Hb].
    - (* the export base path is the root *)
      change (([] ++ str "/") ++ "/"%char :: suffixOf options)
        with ("/"%char :: ([] ++ "/"%char :: suffixOf options)).
      rewrite Clean_rooted_kept.
      2:{ rewrite elements_app, forallb_app, (no_dotdot_kept _ Hs). reflexivity. }
      rewrite elements_app, filter_app, Hf. cbn [filepath.elements].
      change (filter normalb [[]]) with (@nil gostring). cbn [app].
      rewrite Ht. reflexivity.
    - destruct base as [|c b]; [discriminate|].
      cbn [plain_rooted] in Hb. apply andb_true_iff in Hb as [Hc Hb].
      apply Ascii.eqb_eq in Hc as ->. unfold plain_relative in Hb.
      replace ((("/"%char :: b) ++ str "/") ++ "/"%char :: suffixOf options)
        with ("/"%char :: (b ++ "/"%char :: ([] ++ "/"%char :: suffixOf options)))
        by (cbn [app]; rewrite <- app_assoc; reflexivity).
      rewrite Clean_rooted_kept.
      2:{ rewrite !elements_app, !forallb_app, (normal_kept _ Hb), (no_dotdot_kept _ Hs).
          reflexivity. }
      rewrite !elements_app, !filter_app, (filter_normal_all _ Hb), Hf.
      cbn [filepath.elements]. change (filter normalb [[]]) with (@nil gostring).
      cbn [app].
      rewrite Join_app by (first [apply elements_nonempty|discriminate]).
      rewrite Join_elements, Ht, <- app_assoc. reflexivity. }
  assert (H2 : (provisionPaths p options).2 = mountPath ++ str "/" ++ t).
  { rewrite provisionPaths_Join. cbn [snd].
    rewrite (Join_root_tail mountPath) by (reflexivity || assumption).
    rewrite Ht. reflexivity. }
  assert (H3 : localPath p (provisionedVolume p options (provisionPaths p options).1)
               = mountPath ++ t).
  { unfold localPath. cbn [provisionedVolume pvNFS nfsPath]. rewrite H1.
    rewrite Replace_first, Index_prefix. cbn [take Nat.add].
    rewrite drop_app_length. reflexivity. }
  repeat split; try assumption.
  rewrite H2, H3. intros Heq. apply app_inv_head in Heq.
  exact (app_neq_cons t "/"%char Heq).
Qed.

Lemma trailing_separator_breaks_round_trip_witness :
  path provisioner_trailing = str "/export" ++ str "/" /\
  plain_rooted (str "/export") = true /\
  no_dotdot (suffixOf options_plain) = true /\
  tailOf (suffixOf options_plain) <> [] /\
  (provisionPaths provisioner_trailing options_plain).2
    = str "/persistentvolumes/default-data-pvc-1" /\
  localPath provisioner_trailing
    (provisionedVolume provisioner_trailing options_plain
       (provisionPaths provisioner_trailing options_plain).1)
    = str "/persistentvolumesdefault-data-pvc-1".
Proof.
  set (p := provisioner_trailing).
  assert (Ht : tailOf (suffixOf options_plain) <> []) by (vm_compute; discriminate).
  split; [reflexivity|]. split; [reflexivity|]. split; [reflexivity|].
  split; [exact Ht|].
  destruct (trailing_separator_breaks_round_trip p options_plain (str "/export")
              eq_refl (or_intror eq_refl) eq_refl Ht) as (t & Htail & _ & H2 & H3 & _).
  assert (t = str "default-data-pvc-1") as ->.
  { vm_compute in Htail. injection Htail as <-. reflexivity. }
  split; [exact H2|exact H3].
Defined.

Section StartUp.
Local Open Scope Z_scope.

Lemma mode_spec_ok s v : mode_spec s = inl v -> mode_ok v.
Proof.
  unfold mode_spec, mode_ok. destruct s as [|c s]; [intros [= <-]; lia|].
  destruct (numeral 8 (c :: s)) as [x|]; [|discriminate].
  destruct ((0 <=? x) && (x <=? 511)) eqn:Hx; [|discriminate].
  intros [= <-]. lia.
Qed.

Lemma id_spec_ok s v : id_spec s = inl v -> id_ok v.
Proof.
  unfold id_spec, id_ok. destruct s as [|c s]; [intros [= <-]; lia|].
  destruct (numeral 10 (c :: s)) as [x|]; [|discriminate].
  destruct ((0 <=? x) && (x <=? 65535)) eqn:Hx; [|discriminate].
  intros [= <-]. lia.
Qed.

Lemma validator_error (r : Z * option error) k :
  outcome r = inr k -> exists v e, r = (v, Some e) /\ kind e = k.
Proof.
  destruct r as [v [e|]]; cbn; [|discriminate]. intros [= <-]. eauto.
Qed.

Lemma validator_value (r : Z * option error) v :
  outcome r = inl v -> r = (v, None).
Proof.
  destruct r as [x [e|]]; cbn; [discriminate|]. intros [= <-]. reflexivity.
Qed.

End StartUp.

(** X9. When [main] reaches the start of the controller, the provisioner
    it hands over carries the server, the export path and the name of the
    environment, none of them empty, and a client; its default mode, uid
    and gid are what the validators make of NFS_DEFAULT_MODE,
    NFS_DEFAULT_UID and NFS_DEFAULT_GID, so the mode is at most 0777 and
    the ids at most 65535; and leader election is on when
    ENABLE_LEADER_ELECTION is not set. *)
Theorem main_launch_is_validated env k l :
  main env k = inr l ->
  let p := lProvisioner l in
  (server p = Getenv env (str "NFS_SERVER") /\ server p <> []) /\
  (path p = Getenv env (str "NFS_PATH") /\ path p <> []) /\
  (lProvisionerName l = Getenv env provisionerNameKey /\ lProvisionerName l <> []) /\
  client p = true /\
  (mode_spec (Getenv env (str "NFS_DEFAULT_MODE")) = inl (defaultMode p) /\
   id_spec (Getenv env (str "NFS_DEFAULT_UID")) = inl (defaultUid p) /\
   id_spec (Getenv env (str "NFS_DEFAULT_GID")) = inl (defaultGid p)) /\
  (mode_ok (defaultMode p) /\ id_ok (defaultUid p) /\ id_ok (defaultGid p)) /\
  (Getenv env (str "ENABLE_LEADER_ELECTION") = [] -> lLeaderElection l = true).
Proof.
  unfold main. intros H.
  destruct (bool_decide (Getenv env (str "NFS_SERVER") = [])) eqn:Hs; [discriminate|].
  destruct (bool_decide (Getenv env (str "NFS_PATH") = [])) eqn:Hp; [discriminate|].
  destruct (bool_decide (Getenv env provisionerNameKey = [])) eqn:Hn; [discriminate|].
  apply bool_decide_eq_false in Hs, Hp, Hn.
  pose proof (getModeFromString_refines (Getenv env (str "NFS_DEFAULT_MODE"))) as Hm.
  pose proof (getIdFromString_refines (Getenv env (str "NFS_DEFAULT_UID"))) as Hu.
  pose proof (getIdFromString_refines (Getenv env (str "NFS_DEFAULT_GID"))) as Hg.
  destruct (getModeFromString _) as [mode [e|]]; [discriminate|].
  destruct (getIdFromString (Getenv env (str "NFS_DEFAULT_UID"))) as [uid [e|]];
    [discriminate|].
  destruct (getIdFromString (Getenv env (str "NFS_DEFAULT_GID"))) as [gid [e|]];
    [discriminate|].
  cbn [outcome] in Hm, Hu, Hg. symmetry in Hm, Hu, Hg.
  pose proof (mode_spec_ok _ _ Hm) as Hmo.
  pose proof (id_spec_ok _ _ Hu) as Huo.
  pose proof (id_spec_ok _ _ Hg) as Hgo.
  match type of H with
  | match ?c with inl _ => _ | inr _ => _ end = _ =>
      destruct c as [f|config]; [discriminate|]
  end.
  destruct (NewForConfig k config) as [clientset|e]; [|discriminate].
  destruct (ServerVersion k clientset) as [gitVersion|e]; [|discriminate].
  destruct (bool_decide (Getenv env (str "ENABLE_LEADER_ELECTION") <> [])) eqn:Hl.
  - destruct (strconv.ParseBool _) as [b [e|]]; [discriminate|].
    injection H as <-. cbn. apply bool_decide_eq_true in Hl.
    repeat (split; [auto; fail|]). intros He. contradiction.
  - injection H as <-. cbn.
    repeat (split; [auto; fail|]). reflexivity.
Qed.

Lemma main_launch_is_validated_witness :
  main env_required kube_up
    = inr (mkLaunch (str "clientset") (str "k8s-sigs.io/nfs-subdir-external-provisioner")
                    provisioner (str "v1.29.0") true) /\
  mode_ok (defaultMode provisioner) /\ id_ok (defaultUid provisioner) /\
  id_ok (defaultGid provisioner).
Proof.
  assert (H : main env_required kube_up
    = inr (mkLaunch (str "clientset") (str "k8s-sigs.io/nfs-subdir-external-provisioner")
                    provisioner (str "v1.29.0") true)) by (vm_compute; reflexivity).
  split; [exact H|].
  exact (proj1 (proj2 (proj2 (proj2 (proj2 (proj2
           (main_launch_is_validated env_required kube_up _ H))))))).
Defined.

(** X10. [main] settles the environment before it turns to the cluster:
    when NFS_SERVER, NFS_PATH or PROVISIONER_NAME is empty or not set, or
    NFS_DEFAULT_MODE, NFS_DEFAULT_UID or NFS_DEFAULT_GID is not a valid
    mode or id, the process ends with the message of one of these six
    checks, the same whatever the cluster would have answered. *)
Theorem main_checks_environment_first env :
  Getenv env (str "NFS_SERVER") = [] \/ Getenv env (str "NFS_PATH") = [] \/
  Getenv env provisionerNameKey = [] \/
  mode_spec (Getenv env (str "NFS_DEFAULT_MODE")) = inr InvalidParameter \/
  id_spec (Getenv env (str "NFS_DEFAULT_UID")) = inr InvalidParameter \/
  id_spec (Getenv env (str "NFS_DEFAULT_GID")) = inr InvalidParameter ->
  exists f, env_fatal f = true /\ forall k, main env k = inl f.
Proof.
  intros H. unfold main.
  destruct (bool_decide (Getenv env (str "NFS_SERVER") = [])) eqn:Hs;
    [eexists; split; [|reflexivity]; reflexivity|].
  destruct (bool_decide (Getenv env (str "NFS_PATH") = [])) eqn:Hp;
    [eexists; split; [|reflexivity]; reflexivity|].
  destruct (bool_decide (Getenv env provisionerNameKey = [])) eqn:Hn;
    [eexists; split; [|reflexivity]; reflexivity|].
  apply bool_decide_eq_false in Hs, Hp, Hn.
  pose proof (getModeFromString_refines (Getenv env (str "NFS_DEFAULT_MODE"))) as Hm.
  pose proof (getIdFromString_refines (Getenv env (str "NFS_DEFAULT_UID"))) as Hu.
  pose proof (getIdFromString_refines (Getenv env (str "NFS_DEFAULT_GID"))) as Hg.
  destruct (getModeFromString _) as [mode [e|]];
    [eexists; split; [|reflexivity]; reflexivity|].
  destruct (getIdFromString (Getenv env (str "NFS_DEFAULT_UID"))) as [uid [e|]];
    [eexists; split; [|reflexivity]; reflexivity|].
  destruct (getIdFromString (Getenv env (str "NFS_DEFAULT_GID"))) as [gid [e|]];
    [eexists; split; [|reflexivity]; reflexivity|].
  cbn [outcome] in Hm, Hu, Hg. exfalso.
  destruct H as [H|[H|[H|[H|[H|H]]]]]; congruence.
Qed.

Lemma main_checks_environment_first_witness :
  mode_spec (Getenv env_bad_mode (str "NFS_DEFAULT_MODE")) = inr InvalidParameter /\
  exists f, env_fatal f = true /\
            main env_bad_mode kube_up = inl f /\ main env_bad_mode kube_down = inl f.
Proof.
  set (env := env_bad_mode).
  assert (H : mode_spec (Getenv env (str "NFS_DEFAULT_MODE")) = inr InvalidParameter)
    by (vm_compute; reflexivity).
  split; [exact H|].
  destruct (main_checks_environment_first env
              (or_intror (or_intror (or_intror (or_introl H))))) as (f & Hf & Hk).
  exists f. split; [exact Hf|]. split; apply Hk.
Defined.

Section ResolverFacts.
Import regexp.

Lemma lazyUntilBrace_None s : "}"%char ∉ s -> lazyUntilBrace s = None.
Proof.
  induction s as [|c s IH]; intros Hs; [reflexivity|].
  cbn [lazyUntilBrace].
  destruct (Ascii.eqb c "}") eqn:Hc.
  - apply Ascii.eqb_eq in Hc as ->. exfalso. apply Hs. left.
  - rewrite IH by (intros Hin; apply Hs; right; exact Hin).
    destruct (Ascii.eqb c "010"); reflexivity.
Qed.

Lemma literal_suffix lit s t : literal lit s = Some t -> forall c, c ∈ t -> c ∈ s.
Proof.
  intros H c Hc. apply literal_Some in H as ->. apply elem_of_app. right. exact Hc.
Qed.

Lemma matchAt_no_brace s : "}"%char ∉ s -> matchAt s = None.
Proof.
  intros Hs. unfold matchAt.
  destruct (literal (str "${.PVC.") s) as [s1|] eqn:H1; [|reflexivity].
  assert (Hs1 : "}"%char ∉ s1) by (intros Hin; exact (Hs (literal_suffix _ _ _ H1 _ Hin))).
  cbn [mbind option_bind].
  assert (Hk : forall word, keyed word s1 = None).
  { intros word. unfold keyed.
    destruct (literal word s1) as [s2|] eqn:H2; [|reflexivity].
    cbn [mbind option_bind].
    destruct (literal (str ".") s2) as [s3|] eqn:H3; [|reflexivity].
    cbn [mbind option_bind].
    rewrite lazyUntilBrace_None; [reflexivity|].
    intros Hin. apply Hs1. eapply literal_suffix; [exact H2|].
    eapply literal_suffix; [exact H3|exact Hin]. }
  rewrite !Hk. unfold plain. rewrite lazyUntilBrace_None by exact Hs1. reflexivity.
Qed.

Lemma matchAt_no_opening s :
  strings.Index s (str "${.PVC.") = None -> matchAt s = None.
Proof.
  intros H. unfold matchAt, literal.
  destruct s as [|c s]; [reflexivity|].
  rewrite Index_cons in H.
  destruct (strings.HasPrefix (c :: s) (str "${.PVC.")); [discriminate|reflexivity].
Qed.

Lemma findAll_no_match fuel : forall s,
  (forall i, matchAt (drop i s) = None) -> findAll fuel s = [].
Proof.
  induction fuel as [|fuel IH]; intros s H; [reflexivity|].
  destruct s as [|c s]; [reflexivity|].
  cbn [findAll]. rewrite (H 0%nat : matchAt (c :: s) = None).
  apply IH. intros i. exact (H (S i)).
Qed.

Lemma Index_drop_None s p i : p <> [] ->
  strings.Index s p = None -> strings.Index (drop i s) p = None.
Proof.
  intros Hp. revert s. induction i as [|i IH]; intros s H; [exact H|].
  destruct s as [|c s]; [exact H|].
  cbn [drop]. apply IH. rewrite Index_cons in H.
  destruct (strings.HasPrefix (c :: s) p); [discriminate|].
  destruct (strings.Index s p); [discriminate|reflexivity].
Qed.

End ResolverFacts.

(** X11. A template that holds no [${.PVC.] or no closing brace has no
    placeholder, and the resolver returns it as it is, whatever the
    metadata: a dollar sign or braces of another kind are left alone. *)
Theorem template_without_placeholder_unchanged meta s :
  strings.Index s (str "${.PVC.") = None \/ "}"%char ∉ s ->
  stringParser meta s = s.
Proof.
  intros H. unfold stringParser, regexp.FindAllStringSubmatch.
  rewrite findAll_no_match; [reflexivity|].
  intros i. destruct H as [H|H].
  - apply matchAt_no_opening, Index_drop_None; [discriminate|exact H].
  - apply matchAt_no_brace. intros Hin. apply H.
    rewrite <- (take_drop i s). apply elem_of_app. right. exact Hin.
Qed.

Lemma template_without_placeholder_unchanged_witness :
  strings.Index (str "$HOME/${USER}") (str "${.PVC.") = None /\
  stringParser (mkMeta {[ str "name" := str "data" ]} ∅ ∅) (str "$HOME/${USER}")
    = str "$HOME/${USER}".
Proof.
  assert (H : strings.Index (str "$HOME/${USER}") (str "${.PVC.") = None)
    by (vm_compute; reflexivity).
  split; [exact H|].
  exact (template_without_placeholder_unchanged _ _ (or_introl H)).
Defined.

Section BaseFacts.
Import filepath.

Lemma stripTrailingSlashes_plain e :
  e <> [] -> "/"%char ∉ e -> stripTrailingSlashes e = e.
Proof.
  induction e as [|c e IH]; [congruence|]. intros _ Hs.
  apply not_elem_of_cons in Hs as [Hc Hs]. cbn [stripTrailingSlashes].
  destruct e as [|d e].
  - cbn. rewrite (proj2 (Ascii.eqb_neq c "/")) by congruence. reflexivity.
  - rewrite IH by (discriminate || assumption). reflexivity.
Qed.

Lemma stripTrailingSlashes_app a t :
  stripTrailingSlashes t <> [] ->
  stripTrailingSlashes (a ++ t) = a ++ stripTrailingSlashes t.
Proof.
  intros Ht. induction a as [|c a IH]; [reflexivity|].
  cbn [app stripTrailingSlashes]. rewrite IH.
  destruct (a ++ stripTrailingSlashes t) eqn:Heq; [|reflexivity].
  apply app_eq_nil in Heq as [_ Heq]. congruence.
Qed.

(** The base of a path that ends in a separator and a plain element is
    that element. *)
Lemma Base_last dir e :
  e <> [] -> "/"%char ∉ e -> Base (dir ++ "/"%char :: e) = e.
Proof.
  intros He Hs. unfold Base.
  destruct (dir ++ "/"%char :: e) as [|c s] eqn:Heq.
  { apply app_eq_nil in Heq as [_ Heq]. discriminate. }
  rewrite <- Heq.
  change (dir ++ "/"%char :: e) with (dir ++ [ "/"%char ] ++ e).
  rewrite app_assoc, stripTrailingSlashes_app
    by (rewrite stripTrailingSlashes_plain by assumption; exact He).
  rewrite stripTrailingSlashes_plain by assumption.
  rewrite <- app_assoc. cbn [app].
  destruct (dir ++ "/"%char :: e) eqn:Heq'; [congruence|]. rewrite <- Heq'.
  rewrite elements_app, (elements_no_slash e) by assumption.
  rewrite last_snoc. reflexivity.
Qed.

End BaseFacts.

(** X12. The archive target keeps only the last element of the volume's
    path: for a volume at [dir/e], with [e] a non-empty element, [Delete]
    archives to [/persistentvolumes/archived-e], directly under the mount
    root, whatever directories [dir] names. Two volumes provisioned in
    different directories under the same last element share one archive
    target. *)
Theorem archive_target_keeps_last_element vol dir e :
  nfsPath (pvNFS vol) = dir ++ str "/" ++ e -> e <> [] -> "/"%char ∉ e ->
  archivePathOf vol = mountPath ++ str "/archived-" ++ e /\
  forall vol' dir', nfsPath (pvNFS vol') = dir' ++ str "/" ++ e ->
    archivePathOf vol' = archivePathOf vol.
Proof.
  intros Hp He Hs.
  assert (Hall : forall v d, nfsPath (pvNFS v) = d ++ str "/" ++ e ->
                   archivePathOf v = mountPath ++ str "/archived-" ++ e).
  { intros v d Hv.
    assert (Hb : filepath.Base (nfsPath (pvNFS v)) = e)
      by (rewrite Hv; apply Base_last; assumption).
    rewrite archivePathOf_literal; rewrite Hb; [reflexivity|].
    intros ->. apply Hs. left. }
  split; [exact (Hall vol dir Hp)|].
  intros vol' dir' Hv. rewrite (Hall vol' dir' Hv), (Hall vol dir Hp). reflexivity.
Qed.

Lemma archive_target_keeps_last_element_witness :
  archivePathOf (volume_at (str "/export/gold/data"))
    = str "/persistentvolumes/archived-data" /\
  archivePathOf (volume_at (str "/export/silver/data"))
    = archivePathOf (volume_at (str "/export/gold/data")).
Proof.
  assert (He : str "data" <> []) by discriminate.
  assert (Hs : "/"%char ∉ str "data") by compute_done.
  destruct (archive_target_keeps_last_element (volume_at (str "/export/gold/data"))
              (str "/export/gold") (str "data") eq_refl He Hs) as [H1 H2].
  split; [exact H1|].
  exact (H2 (volume_at (str "/export/silver/data")) (str "/export/silver") eq_refl).
Defined.
